(** * Clause comparators: a shallow embedding of light_sim.py,
      pipeline_sim.py and simple_sim.py.

    Python strings are sequences of Unicode code points; a character is
    modelled by its code point ([N]) and a text by a list of characters.
    Python floats are modelled twice.  [LightSim], [PipelineSim] and
    [SimpleSim] keep the exact rational value ([Q]) of every expression,
    which is what the code computes up to rounding; [LightSim64] is the
    lightweight comparator with the IEEE 754 binary64 arithmetic of Python
    written out, and is the model for what depends on rounding.  An
    exception is a [Raise] result.  The
    collaborators that are not part of the repository (jieba.cut,
    pypinyin.lazy_pinyin, the sentence encoder, numpy's norm, scikit-learn's
    vectorizer) are section variables. *)

From Stdlib Require Import QArith Qabs Lqa SpecFloat.
From stdpp Require Import base option list numbers countable gmap sets fin_sets strings sorting.

(** ** The Python runtime pieces used by the three scripts *)

Module Py.
Local Open Scope N_scope.

Definition char : Type := N.
Definition text : Type := list char.

(** UTF-8 decoding of a string literal of this file into code points, so
    that texts can be written the way the scripts write them. *)
Definition byte_of (a : Ascii.ascii) : N := Ascii.N_of_ascii a.

Definition cont (b : N) : N := N.land b 0x3F.

Fixpoint utf8_bytes (bs : list N) : text :=
  match bs with
  | [] => []
  | b0 :: r0 =>
      if b0 <? 0x80 then b0 :: utf8_bytes r0
      else if b0 <? 0xE0 then
        match r0 with
        | b1 :: r1 =>
            (N.shiftl (N.land b0 0x1F) 6 + cont b1) :: utf8_bytes r1
        | _ => []
        end
      else if b0 <? 0xF0 then
        match r0 with
        | b1 :: b2 :: r2 =>
            (N.shiftl (N.land b0 0x0F) 12 + N.shiftl (cont b1) 6 + cont b2)
              :: utf8_bytes r2
        | _ => []
        end
      else
        match r0 with
        | b1 :: b2 :: b3 :: r3 =>
            (N.shiftl (N.land b0 0x07) 18 + N.shiftl (cont b1) 12
             + N.shiftl (cont b2) 6 + cont b3) :: utf8_bytes r3
        | _ => []
        end
  end.

Definition str (s : string) : text :=
  utf8_bytes (byte_of <$> String.list_ascii_of_string s).
Global Arguments str : simpl never.

(** [Py_UNICODE_ISSPACE]: the characters that [str.strip], [str.isspace]
    and the regular expression class [\s] (on str patterns) treat as
    whitespace. *)
Definition isspace (c : char) : bool :=
  ((0x09 <=? c) && (c <=? 0x0D))
  || ((0x1C <=? c) && (c <=? 0x20))
  || (c =? 0x85) || (c =? 0xA0) || (c =? 0x1680)
  || ((0x2000 <=? c) && (c <=? 0x200A))
  || (c =? 0x2028) || (c =? 0x2029) || (c =? 0x202F)
  || (c =? 0x205F) || (c =? 0x3000).

(** [re.sub(r'\s+', '', text)]: every maximal run of whitespace is
    replaced by the empty string, so exactly the whitespace characters
    disappear. *)
Definition re_sub_spaces (t : text) : text :=
  List.filter (fun c => negb (isspace c)) t.

(** [text.strip()] *)
Fixpoint lstrip (t : text) : text :=
  match t with
  | c :: r => if isspace c then lstrip r else t
  | [] => []
  end.

Definition rstrip (t : text) : text := rev (lstrip (rev t)).

Definition strip (t : text) : text := rstrip (lstrip t).

(** [text.replace(old, new)] for a one-character [old]. *)
Definition replace (old : char) (new : text) (t : text) : text :=
  List.flat_map (fun c => if c =? old then new else [c]) t.

(** [sep.join(parts)] *)
Fixpoint join (sep : text) (parts : list text) : text :=
  match parts with
  | [] => []
  | [p] => p
  | p :: rest => p ++ sep ++ join sep rest
  end.

(** [c in s] for a character [c] and a string [s]. *)
Definition contains (s : text) (c : char) : bool :=
  existsb (N.eqb c) s.

(** Exceptions that the modelled code can raise. *)
Inductive exn : Type :=
| ZeroDivisionError
| ValueError
| IndexError.

Inductive result (A : Type) : Type :=
| Ok (a : A)
| Raise (e : exn).
Arguments Ok {A} a.
Arguments Raise {A} e.

(** [n / d] on two ints: true division, which raises on a zero divisor. *)
Definition truediv (n d : nat) : result Q :=
  match d with
  | O => Raise ZeroDivisionError
  | S _ => Ok (inject_Z (Z.of_nat n) / inject_Z (Z.of_nat d))%Q
  end.

#[export] Instance result_ret : MRet result := fun A a => Ok a.
#[export] Instance result_bind : MBind result := fun A B f m =>
  match m with
  | Ok a => f a
  | Raise e => Raise e
  end.

(** [seq[i]], which raises IndexError out of range. *)
Definition getitem {A : Type} (l : list A) (i : nat) : result A :=
  match l !! i with
  | Some x => Ok x
  | None => Raise IndexError
  end.

(** The similarity signals of the comparators.  A comparison records which
    signals it evaluated, in order, next to its result. *)
Inductive signal : Type :=
| WordBag
| CharSequence
| Phonetic
| Semantic.

Definition traced (A : Type) : Type := (list signal * result A)%type.

#[export] Instance traced_ret : MRet traced := fun A a => ([], Ok a).
#[export] Instance traced_bind : MBind traced := fun A B f m =>
  match m with
  | (tr, Ok a) => let '(tr', r) := f a in (tr ++ tr', r)
  | (tr, Raise e) => (tr, Raise e)
  end.

(** Evaluating one signal. *)
Definition evaluate {A : Type} (s : signal) (r : result A) : traced A := ([s], r).

End Py.

(** ** difflib.SequenceMatcher, as the scripts use it

    All three scripts call [SequenceMatcher(None, a, b).ratio()]: no junk
    predicate, [autojunk] left at its default.  The model follows
    [__chain_b], [find_longest_match], [get_matching_blocks] and [ratio] of
    the standard library, over any element type with decidable equality
    (characters for strings, syllables for lists of strings). *)

Module Difflib.

(** A match [(i, j, k)]: [a[i:i+k] == b[j:j+k]]. *)
Abbreviation Match := (nat * nat * nat)%type.

Section SequenceMatcher.
Context {A : Type} `{EqDecision A}.

Local Open Scope nat_scope.

Definition size_of (m : Match) : nat := m.2.

(** [__chain_b]: [b2j] maps an element of [b] to the increasing list of
    its positions; with [isjunk = None] no element is junk, and when [b]
    has at least 200 elements those occurring more than [n // 100 + 1]
    times are deleted from [b2j] as popular. *)
Fixpoint positions (x : A) (j : nat) (b : list A) : list nat :=
  match b with
  | [] => []
  | y :: b' =>
      if decide (y = x) then j :: positions x (S j) b'
      else positions x (S j) b'
  end.

Definition popular (b : list A) (x : A) : bool :=
  (200 <=? length b) && (length b / 100 + 1 <? length (positions x 0 b)).

Definition b2j (b : list A) (x : A) : list nat :=
  if popular b x then [] else positions x 0 b.

(** The inner loop of [find_longest_match] for one [i]:
    [for j in b2j.get(a[i], nothing)], with its [continue] below [blo] and
    its [break] from [bhi] on.  [j2len.get(j-1, 0)] is 0 for [j = 0]. *)
Fixpoint scan_row (blo bhi i : nat) (js : list nat)
    (j2len newj2len : gmap nat nat) (best : Match) : gmap nat nat * Match :=
  match js with
  | [] => (newj2len, best)
  | j :: js' =>
      if j <? blo then scan_row blo bhi i js' j2len newj2len best
      else if bhi <=? j then (newj2len, best)
      else
        let k := match j with
                 | O => 0
                 | S j' => default 0 (j2len !! j')
                 end + 1 in
        let best' := if best.2 <? k then (i + 1 - k, j + 1 - k, k) else best in
        scan_row blo bhi i js' j2len (<[j := k]> newj2len) best'
  end.

(** The outer loop, [for i in range(alo, ahi)]. *)
Fixpoint scan_rows (a b : list A) (blo bhi : nat) (rows : list nat)
    (j2len : gmap nat nat) (best : Match) : Match :=
  match rows with
  | [] => best
  | i :: rows' =>
      match a !! i with
      | Some x =>
          let '(newj2len, best') := scan_row blo bhi i (b2j b x) j2len ∅ best in
          scan_rows a b blo bhi rows' newj2len best'
      | None => best
      end
  end.

Definition same_at (a b : list A) (i j : nat) : bool :=
  match a !! i, b !! j with
  | Some x, Some y => bool_decide (x = y)
  | _, _ => false
  end.

(** [while besti > alo and bestj > blo and not isbjunk(b[bestj-1]) and
    a[besti-1] == b[bestj-1]]: at most [besti - alo] rounds. *)
Fixpoint extend_left (a b : list A) (alo blo : nat) (rounds : nat)
    (best : Match) : Match :=
  match rounds with
  | O => best
  | S r =>
      let '(besti, bestj, bestsize) := best in
      if (alo <? besti) && (blo <? bestj) && same_at a b (besti - 1) (bestj - 1)
      then extend_left a b alo blo r (besti - 1, bestj - 1, bestsize + 1)
      else best
  end.

(** [while besti+bestsize < ahi and bestj+bestsize < bhi and not isbjunk(..)
    and a[besti+bestsize] == b[bestj+bestsize]]: at most
    [ahi - (besti+bestsize)] rounds. *)
Fixpoint extend_right (a b : list A) (ahi bhi : nat) (rounds : nat)
    (best : Match) : Match :=
  match rounds with
  | O => best
  | S r =>
      let '(besti, bestj, bestsize) := best in
      if (besti + bestsize <? ahi) && (bestj + bestsize <? bhi)
         && same_at a b (besti + bestsize) (bestj + bestsize)
      then extend_right a b ahi bhi r (besti, bestj, bestsize + 1)
      else best
  end.

(** [find_longest_match(alo, ahi, blo, bhi)].  The two further loops of the
    library extend the match by junk elements only; [bjunk] is empty here,
    so they never run. *)
Definition find_longest_match (a b : list A) (alo ahi blo bhi : nat) : Match :=
  let best := scan_rows a b blo bhi (seq alo (ahi - alo)) ∅ (alo, blo, 0) in
  let best := extend_left a b alo blo (best.1.1 - alo) best in
  extend_right a b ahi bhi (ahi - (best.1.1 + best.2)) best.

(** The work list of [get_matching_blocks]: a block found in
    [a[alo:ahi]], [b[blo:bhi]] splits the ranges into the part to its left
    and the part to its right, each explored when non-empty on both
    sides.  The blocks are emitted in increasing order, which is the order
    the library's final [sort] gives them.  A range of [n] elements of [a]
    needs depth at most [n + 1]. *)
Fixpoint blocks (depth : nat) (a b : list A) (alo ahi blo bhi : nat) : list Match :=
  match depth with
  | O => []
  | S d =>
      let '(i, j, k) := find_longest_match a b alo ahi blo bhi in
      if k =? 0 then []
      else
        (if (alo <? i) && (blo <? j) then blocks d a b alo i blo j else [])
        ++ (i, j, k)
        :: (if (i + k <? ahi) && (j + k <? bhi)
            then blocks d a b (i + k) ahi (j + k) bhi else [])
  end.

(** Adjacent equal blocks are collapsed and the sentinel [(la, lb, 0)] is
    appended. *)
Fixpoint collapse (cur : Match) (ms : list Match) : list Match :=
  match ms with
  | [] => if cur.2 =? 0 then [] else [cur]
  | (i2, j2, k2) :: ms' =>
      let '(i1, j1, k1) := cur in
      if (i1 + k1 =? i2) && (j1 + k1 =? j2) then collapse (i1, j1, k1 + k2) ms'
      else (if k1 =? 0 then [] else [cur]) ++ collapse (i2, j2, k2) ms'
  end.

Definition get_matching_blocks (a b : list A) : list Match :=
  let la := length a in
  let lb := length b in
  collapse (0, 0, 0) (blocks (S la) a b 0 la 0 lb) ++ [(la, lb, 0)].

(** [_calculate_ratio(matches, length)] *)
Definition calculate_ratio (matches length : nat) : Q :=
  match length with
  | O => 1%Q
  | S _ => (2 * inject_Z (Z.of_nat matches) / inject_Z (Z.of_nat length))%Q
  end.

Definition ratio (a b : list A) : Q :=
  let matches := sum_list_with size_of (get_matching_blocks a b) in
  calculate_ratio matches (length a + length b).

End SequenceMatcher.
End Difflib.

(** ** light_sim.py: LightweightClauseComparator *)

Module LightSim.
Import Py.

Definition ord (s : string) : char := default 0%N (head (str s)).
Global Arguments ord : simpl never.

(** [self.punctuation]: two adjacent string literals, the first ending in
    two ASCII double quotes (U+0022). *)
Definition punctuation : text :=
  (str "，。！？；：" ++ [0x22; 0x22]%N) ++ str "（）【】《》、".

Definition stopwords : gset text :=
  list_to_set (str <$> ["的"; "了"; "且"; "与"; "和"; "或"; "由"; "从"; "到"; "对"; "该"; "此"]).

(** [self.number_map], in insertion order. *)
Definition number_map : list (char * text) :=
  [ (ord "一", str "1"); (ord "二", str "2"); (ord "三", str "3");
    (ord "四", str "4"); (ord "五", str "5"); (ord "六", str "6");
    (ord "七", str "7"); (ord "八", str "8"); (ord "九", str "9");
    (ord "十", str "10");
    (ord "壹", str "1"); (ord "贰", str "2"); (ord "叁", str "3");
    (ord "肆", str "4"); (ord "伍", str "5"); (ord "陆", str "6");
    (ord "柒", str "7"); (ord "捌", str "8"); (ord "玖", str "9");
    (ord "拾", str "10") ].
Global Arguments number_map : simpl never.

Definition preprocess (t : text) : text :=
  let t := re_sub_spaces t in
  let t := foldl (fun t '(cn_num, arab_num) => replace cn_num arab_num t) t number_map in
  replace (ord "）") (str ")") (replace (ord "（") (str "(") t).

Definition remove_punctuation (t : text) : text :=
  List.filter (fun c => negb (contains punctuation c)) t.

(** [collections.Counter(words)] and its reads. *)
Definition Counter (words : list text) : gmap text nat :=
  foldl (fun m w => <[w := S (default 0 (m !! w))]> m) ∅ words.

Definition count (c : gmap text nat) (w : text) : nat := default 0 (c !! w).

Definition total (c : gmap text nat) : nat :=
  map_fold (fun _ n acc => (n + acc)%nat) 0%nat c.

(** The outcome of [is_consistent]: the third component is a fixed message
    on the two early exits and the dictionary of the three signal values
    (printed with three decimals) otherwise. *)
Inductive reason : Type :=
| Exact
| PunctuationOnly
| Details (words_sim char_sim pinyin_sim : Q).

Definition outcome : Type := (bool * Q * reason)%type.

Section Comparator.
(** [jieba.cut] and [pypinyin.lazy_pinyin]. *)
Variable cut : text -> list text.
Variable lazy_pinyin : text -> list text.

Definition get_words_similarity (text1 text2 : text) : result Q :=
  let words1 := List.filter (fun w => bool_decide (w ∉ stopwords)) (cut text1) in
  let words2 := List.filter (fun w => bool_decide (w ∉ stopwords)) (cut text2) in
  let counter1 := Counter words1 in
  let counter2 := Counter words2 in
  let common_words : gset text := dom counter1 ∩ dom counter2 in
  if decide (common_words = ∅) then Ok 0%Q
  else
    let numerator :=
      sum_list_with (fun word => Nat.min (count counter1 word) (count counter2 word))
        (elements common_words) in
    let denominator := Nat.max (total counter1) (total counter2) in
    truediv numerator denominator.

Definition get_char_similarity (text1 text2 : text) : Q :=
  Difflib.ratio text1 text2.

Definition get_pinyin_similarity (text1 text2 : text) : Q :=
  let pinyin1 := lazy_pinyin text1 in
  let pinyin2 := lazy_pinyin text2 in
  Difflib.ratio pinyin1 pinyin2.

Definition is_consistent (clause_a clause_b : text) (threshold : Q) : traced outcome :=
  let clean_a := preprocess clause_a in
  let clean_b := preprocess clause_b in
  if decide (clean_a = clean_b) then mret (true, 1%Q, Exact)
  else
    let clean_a_no_punct := remove_punctuation clean_a in
    let clean_b_no_punct := remove_punctuation clean_b in
    if decide (clean_a_no_punct = clean_b_no_punct)
    then mret (true, 0.99%Q, PunctuationOnly)
    else
      words_sim ← evaluate WordBag
        (get_words_similarity clean_a_no_punct clean_b_no_punct);
      char_sim ← evaluate CharSequence
        (Ok (get_char_similarity clean_a_no_punct clean_b_no_punct));
      pinyin_sim ← evaluate Phonetic
        (Ok (get_pinyin_similarity clean_a_no_punct clean_b_no_punct));
      let weighted_sim := (words_sim * 0.5 + char_sim * 0.3 + pinyin_sim * 0.2)%Q in
      let details := Details words_sim char_sim pinyin_sim in
      if Qle_bool threshold weighted_sim
      then mret (true, weighted_sim, details)
      else mret (false, weighted_sim, details).

End Comparator.

(** The default of the [threshold] argument. *)
Definition default_threshold : Q := 0.9%Q.

End LightSim.

(** ** pipeline_sim.py: ClauseComparator *)

Module PipelineSim.
Import Py.

Definition punctuation : text :=
  (str "，。！？；：" ++ [0x22; 0x22]%N) ++ str "（）【】《》、".

Definition preprocess (t : text) : text :=
  let t := strip t in
  let t := List.flat_map (fun c => strip [c])
             (List.filter (fun c => negb (bool_decide (strip [c] = []))) t) in
  re_sub_spaces t.

Definition remove_punctuation (t : text) : text :=
  List.filter (fun c => negb (contains punctuation c)) t.

(** A numpy scalar: [None] is the not-a-number that numpy returns for a
    zero divided by zero (it warns and does not raise); it propagates
    through arithmetic and every comparison with it is false.  A zero
    divisor under a non-zero dividend, where numpy returns an infinity,
    needs a norm that underflows to zero; the model does not tell it from
    not-a-number, and what is proved about a zero divisor assumes a zero
    dividend. *)
Definition npfloat : Type := option Q.

Definition np_div (x y : Q) : npfloat :=
  if Qeq_bool y 0 then None else Some (x / y)%Q.

Definition np_ge (x : npfloat) (y : Q) : bool :=
  match x with
  | Some q => Qle_bool y q
  | None => false
  end.

(** [np.dot] on two vectors. *)
Fixpoint dot (u v : list Q) : Q :=
  match u, v with
  | x :: u', y :: v' => (x * y + dot u' v')%Q
  | _, _ => 0%Q
  end.

(** The third component of the outcome: a fixed message on the two early
    exits, otherwise a message that quotes the score (with three decimals)
    as sufficient or insufficient. *)
Inductive reason : Type :=
| Exact
| PunctuationOnly
| Composite (weighted_sim : npfloat)
| Insufficient (weighted_sim : npfloat).

Definition outcome : Type := (bool * npfloat * reason)%type.

Section Comparator.
(** [self.model.encode] on a batch of texts, [np.linalg.norm] and
    [pypinyin.lazy_pinyin]. *)
Variable encode : list text -> list (list Q).
Variable norm : list Q -> Q.
Variable lazy_pinyin : text -> list text.

Definition get_semantic_similarity (text1 text2 : text) : result npfloat :=
  let embeddings := encode [text1; text2] in
  e0 ← getitem embeddings 0;
  e1 ← getitem embeddings 1;
  mret (np_div (dot e0 e1) (norm e0 * norm e1)).

Definition get_char_similarity (text1 text2 : text) : Q :=
  Difflib.ratio text1 text2.

Definition get_pinyin_similarity (text1 text2 : text) : Q :=
  let pinyin1 := join (str " ") (lazy_pinyin text1) in
  let pinyin2 := join (str " ") (lazy_pinyin text2) in
  Difflib.ratio pinyin1 pinyin2.

Definition is_consistent (clause_a clause_b : text) (threshold : Q) : traced outcome :=
  let clean_a := preprocess clause_a in
  let clean_b := preprocess clause_b in
  if decide (clean_a = clean_b) then mret (true, Some 1%Q, Exact)
  else
    let clean_a_no_punct := remove_punctuation clean_a in
    let clean_b_no_punct := remove_punctuation clean_b in
    if decide (clean_a_no_punct = clean_b_no_punct)
    then mret (true, Some 0.99%Q, PunctuationOnly)
    else
      semantic_sim ← evaluate Semantic (get_semantic_similarity clean_a clean_b);
      char_sim ← evaluate CharSequence
        (Ok (get_char_similarity clean_a_no_punct clean_b_no_punct));
      pinyin_sim ← evaluate Phonetic
        (Ok (get_pinyin_similarity clean_a_no_punct clean_b_no_punct));
      let weighted_sim : npfloat :=
        (fun s => s * 0.5 + char_sim * 0.3 + pinyin_sim * 0.2)%Q <$> semantic_sim in
      if np_ge weighted_sim threshold
      then mret (true, weighted_sim, Composite weighted_sim)
      else mret (false, weighted_sim, Insufficient weighted_sim).

End Comparator.

Definition default_threshold : Q := 0.9%Q.

End PipelineSim.

(** ** simple_sim.py: calculate_similarities *)

Module SimpleSim.
Import Py.

(** The returned dictionary. *)
Record similarities : Type := {
  cosine_similarity : Q;
  sequence_similarity : Q;
  jaccard_similarity : Q
}.

Section Calculate.
(** [jieba.cut], and scikit-learn's [TfidfVectorizer] fitted on the two
    segmented documents and read at entry [0,1] of the product of the
    matrix with its transpose; fitting raises when it has to. *)
Variable cut : text -> list text.
Variable tfidf_cosine : text -> text -> result Q.

(** [len(set1 & set2) / len(set1 | set2)] *)
Definition jaccard (set1 set2 : gset text) : result Q :=
  truediv (size (set1 ∩ set2)) (size (set1 ∪ set2)).

Definition calculate_similarities (text1 text2 : text) : result similarities :=
  let text1_seg := join (str " ") (cut text1) in
  let text2_seg := join (str " ") (cut text2) in
  cosine_sim ← tfidf_cosine text1_seg text2_seg;
  let sequence_sim := Difflib.ratio text1 text2 in
  let set1 : gset text := list_to_set (cut text1) in
  let set2 : gset text := list_to_set (cut text2) in
  jaccard ← jaccard set1 set2;
  mret {| cosine_similarity := cosine_sim;
          sequence_similarity := sequence_sim;
          jaccard_similarity := jaccard |}.

End Calculate.

End SimpleSim.

(** ** The components as the specification words them *)

Module Spec.
Import Py.

(** Normalizer, step 1: whitespace (newlines and tabs included) goes. *)
Definition remove_whitespace (t : text) : text :=
  List.filter (fun c => negb (isspace c)) t.

(** Step 2: a character of the numeral table becomes its digit string,
    every other character stays; one character at a time. *)
Fixpoint numeral (table : list (char * text)) (c : char) : option text :=
  match table with
  | [] => None
  | (cn_num, arab_num) :: table' =>
      if (c =? cn_num)%N then Some arab_num else numeral table' c
  end.

Definition map_numerals (t : text) : text :=
  List.flat_map (fun c => default [c] (numeral LightSim.number_map c)) t.

(** Step 3: full-width parentheses become half-width ones. *)
Definition halfwidth (c : char) : char :=
  if (c =? LightSim.ord "（")%N then LightSim.ord "("
  else if (c =? LightSim.ord "）")%N then LightSim.ord ")"
  else c.

Definition normalize (t : text) : text :=
  List.map halfwidth (map_numerals (remove_whitespace t)).

(** WordBagSignal on the two stopword-free token sequences: the tokens
    common to both, each counted with the smaller of its two numbers of
    occurrences, over the larger of the two token totals. *)
Definition occurrences (w : text) (words : list text) : nat :=
  length (List.filter (fun w' => bool_decide (w' = w)) words).

Definition common (words1 words2 : list text) : list text :=
  List.filter (fun w => bool_decide (w ∈ words2)) (remove_dups words1).

Definition word_bag (words1 words2 : list text) : Q :=
  match common words1 words2 with
  | [] => 0%Q
  | _ :: _ =>
      (inject_Z (Z.of_nat
         (sum_list_with (fun w => Nat.min (occurrences w words1) (occurrences w words2))
            (common words1 words2)))
       / inject_Z (Z.of_nat (Nat.max (length words1) (length words2))))%Q
  end.

(** PunctuationStripper restricted to the punctuation characters that a
    normalized text can still contain: the punctuation set without the
    two full-width parentheses. *)
Definition core_punctuation : text :=
  List.filter (fun c => negb (c =? LightSim.ord "（")%N && negb (c =? LightSim.ord "）")%N)
    LightSim.punctuation.

Definition strip_core (t : text) : text :=
  List.filter (fun c => negb (contains core_punctuation c)) t.

(** CharSequenceSignal (section 4.6), which PhoneticSignal (section 4.7)
    applies to syllables: find the longest common contiguous run, recurse
    on the unmatched left and right remainders, and sum the lengths of the
    runs.  The text does not say which of several longest runs is taken;
    here it is the first one in the first sequence, and for it the first
    one in the second sequence. *)
Section MatchingBlocks.
Context {A : Type} `{EqDecision A}.

(** The length of the common run at the heads of two sequences. *)
Fixpoint common_run (u v : list A) : nat :=
  match u, v with
  | x :: u', y :: v' => if decide (x = y) then S (common_run u' v') else 0%nat
  | _, _ => 0%nat
  end.

(** The run that starts at [(i, j)] replaces the best one so far when it is
    strictly longer. *)
Definition longer (u v : list A) (best : nat * nat * nat) (i j : nat) : nat * nat * nat :=
  let k := common_run (drop i u) (drop j v) in
  if (best.2 <? k)%nat then (i, j, k) else best.

(** The longest common contiguous run, as (start in [u], start in [v],
    length); the length is 0 when the sequences share no element. *)
Definition longest_common_run (u v : list A) : nat * nat * nat :=
  foldl (fun best i => foldl (fun best j => longer u v best i j) best (seq 0 (length v)))
    (0, 0, 0)%nat (seq 0 (length u)).

(** The sum [M] of the lengths of the matched runs.  Every level of the
    recursion takes at least one element from [u], so [length u] levels are
    enough. *)
Fixpoint matched (fuel : nat) (u v : list A) : nat :=
  match fuel with
  | O => 0%nat
  | S fuel' =>
      let '(i, j, k) := longest_common_run u v in
      if (k =? 0)%nat then 0%nat
      else (matched fuel' (take i u) (take j v) + k
            + matched fuel' (drop (i + k) u) (drop (j + k) v))%nat
  end.

(** Score = [2*M / (len(a) + len(b))], and 1.0 for two empty sequences. *)
Definition matching_block_ratio (a b : list A) : Q :=
  let M := matched (length a) a b in
  match (length a + length b)%nat with
  | O => 1%Q
  | S _ => (2 * inject_Z (Z.of_nat M) / inject_Z (Z.of_nat (length a + length b)))%Q
  end.

End MatchingBlocks.

End Spec.

(** ** Python floats

    The comparators compute in IEEE 754 binary64.  The models above keep
    the exact value of each expression; the operations below are the
    rounded ones of Python: a float literal is the double nearest to the
    decimal fraction, and every product, sum and quotient is rounded to
    the nearest double, ties to even. *)

Module Binary64.

Definition prec : Z := 53.
Definition emax : Z := 1024.

Definition of_nat (n : nat) : spec_float :=
  match Z.of_nat n with
  | Zpos p => binary_normalize prec emax (Zpos p) 0 false
  | _ => S754_zero false
  end.

Definition div : spec_float -> spec_float -> spec_float := SFdiv prec emax.
Definition mul : spec_float -> spec_float -> spec_float := SFmul prec emax.
Definition add : spec_float -> spec_float -> spec_float := SFadd prec emax.

(** The literals [0.5], [0.3], [0.2] and [1.0]: the doubles nearest to the
    decimal fractions. *)
Definition half : spec_float := div (of_nat 5) (of_nat 10).
Definition three_tenths : spec_float := div (of_nat 3) (of_nat 10).
Definition two_tenths : spec_float := div (of_nat 2) (of_nat 10).
Definition one : spec_float := of_nat 1.

(** [words_sim * 0.5 + char_sim * 0.3 + pinyin_sim * 0.2] *)
Definition weighted (words_sim char_sim pinyin_sim : spec_float) : spec_float :=
  add (add (mul words_sim half) (mul char_sim three_tenths)) (mul pinyin_sim two_tenths).

(** The literals [0.0], [2.0], [0.9] and [0.99]. *)
Definition zero : spec_float := S754_zero false.
Definition two : spec_float := of_nat 2.
Definition nine_tenths : spec_float := div (of_nat 9) (of_nat 10).
Definition ninety_nine_hundredths : spec_float := div (of_nat 99) (of_nat 100).

(** [x >= y]; false when one of the two is not a number. *)
Definition ge (x y : spec_float) : bool := SFleb y x.

(** The rational value of a finite double. *)
Definition to_Q (x : spec_float) : option Q :=
  match x with
  | S754_zero _ => Some 0%Q
  | S754_finite s m e =>
      let v := match e with
               | Z0 => inject_Z (Zpos m)
               | Zpos p => inject_Z (Zpos m * 2 ^ Zpos p)
               | Zneg p => Qmake (Zpos m) (2 ^ p)
               end in
      Some (Qred (if s then - v else v))
  | _ => None
  end.

End Binary64.

(** ** light_sim.py with its float arithmetic

    The comparator of [LightSim] again, with every score a double: [n / d]
    on two ints is the correctly rounded quotient, the ratio of difflib is
    [2.0 * matches / length], and the weighted sum rounds after every
    product and every sum.  The token counts and sequence lengths that are
    converted to doubles are far below 2^53, where the conversion is
    exact. *)

Module LightSim64.
Import Py.

Inductive reason : Type :=
| Exact
| PunctuationOnly
| Details (words_sim char_sim pinyin_sim : spec_float).

Definition outcome : Type := (bool * spec_float * reason)%type.

(** [n / d] on two ints. *)
Definition truediv (n d : nat) : result spec_float :=
  match d with
  | O => Raise ZeroDivisionError
  | S _ => Ok (Binary64.div (Binary64.of_nat n) (Binary64.of_nat d))
  end.

(** difflib's [_calculate_ratio]: [2.0 * matches / length] if [length],
    else [1.0]. *)
Definition calculate_ratio (matches length : nat) : spec_float :=
  match length with
  | O => Binary64.one
  | S _ =>
      Binary64.div (Binary64.mul Binary64.two (Binary64.of_nat matches))
        (Binary64.of_nat length)
  end.

Definition ratio {A : Type} `{EqDecision A} (a b : list A) : spec_float :=
  let matches := sum_list_with Difflib.size_of (Difflib.get_matching_blocks a b) in
  calculate_ratio matches (length a + length b).

Section Comparator.
Variable cut : text -> list text.
Variable lazy_pinyin : text -> list text.

Definition get_words_similarity (text1 text2 : text) : result spec_float :=
  let words1 := List.filter (fun w => bool_decide (w ∉ LightSim.stopwords)) (cut text1) in
  let words2 := List.filter (fun w => bool_decide (w ∉ LightSim.stopwords)) (cut text2) in
  let counter1 := LightSim.Counter words1 in
  let counter2 := LightSim.Counter words2 in
  let common_words : gset text := dom counter1 ∩ dom counter2 in
  if decide (common_words = ∅) then Ok Binary64.zero
  else
    let numerator :=
      sum_list_with
        (fun word => Nat.min (LightSim.count counter1 word) (LightSim.count counter2 word))
        (elements common_words) in
    let denominator := Nat.max (LightSim.total counter1) (LightSim.total counter2) in
    truediv numerator denominator.

Definition get_char_similarity (text1 text2 : text) : spec_float :=
  ratio text1 text2.

Definition get_pinyin_similarity (text1 text2 : text) : spec_float :=
  let pinyin1 := lazy_pinyin text1 in
  let pinyin2 := lazy_pinyin text2 in
  ratio pinyin1 pinyin2.

Definition is_consistent (clause_a clause_b : text) (threshold : spec_float)
    : traced outcome :=
  let clean_a := LightSim.preprocess clause_a in
  let clean_b := LightSim.preprocess clause_b in
  if decide (clean_a = clean_b) then mret (true, Binary64.one, Exact)
  else
    let clean_a_no_punct := LightSim.remove_punctuation clean_a in
    let clean_b_no_punct := LightSim.remove_punctuation clean_b in
    if decide (clean_a_no_punct = clean_b_no_punct)
    then mret (true, Binary64.ninety_nine_hundredths, PunctuationOnly)
    else
      words_sim ← evaluate WordBag
        (get_words_similarity clean_a_no_punct clean_b_no_punct);
      char_sim ← evaluate CharSequence
        (Ok (get_char_similarity clean_a_no_punct clean_b_no_punct));
      pinyin_sim ← evaluate Phonetic
        (Ok (get_pinyin_similarity clean_a_no_punct clean_b_no_punct));
      let weighted_sim :=
        Binary64.add
          (Binary64.add (Binary64.mul words_sim Binary64.half)
             (Binary64.mul char_sim Binary64.three_tenths))
          (Binary64.mul pinyin_sim Binary64.two_tenths) in
      let details := Details words_sim char_sim pinyin_sim in
      if Binary64.ge weighted_sim threshold
      then mret (true, weighted_sim, details)
      else mret (false, weighted_sim, details).

End Comparator.

(** The default of the [threshold] argument, [0.9]. *)
Definition default_threshold : spec_float := Binary64.nine_tenths.

End LightSim64.

(** ** Notions used to state the properties *)

Module Invariant.
Import Difflib.

(** A match that lies inside the two ranges. *)
Definition inside (alo ahi blo bhi : nat) (m : Match) : Prop :=
  (alo <= m.1.1 /\ blo <= m.1.2 /\ m.1.1 + m.2 <= ahi /\ m.1.2 + m.2 <= bhi)%nat.

(** Every run length recorded in a row is at most [n] and does not reach
    below [blo]. *)
Definition row_ok (blo n : nat) (j2len : gmap nat nat) : Prop :=
  forall j k, j2len !! j = Some k -> (k <= n /\ k <= j + 1 - blo)%nat.

(** The two sequences agree on [k] elements from [(i, j)] on:
    [a[i:i+k] == b[j:j+k]]. *)
Definition agree {A : Type} (a b : list A) (i j k : nat) : Prop :=
  forall d, (d < k)%nat -> a !! (i + d)%nat = b !! (j + d)%nat.

(** The table of the row before row [i]: every length recorded at [j] is
    the length of a common run that ends at [(i - 1, j)]. *)
Definition row_sound {A : Type} (a b : list A) (i : nat) (j2len : gmap nat nat) : Prop :=
  forall j k, j2len !! j = Some k ->
    (k <= i /\ k <= j + 1)%nat /\ agree a b (i - k) (j + 1 - k) k.

Section Runs.
Context {A : Type} `{EqDecision A}.

(** A common run of [k] elements from [(i, j)] on, inside the two
    ranges. *)
Definition run_in (a b : list A) (alo ahi blo bhi i j k : nat) : Prop :=
  (alo <= i)%nat /\ (blo <= j)%nat /\ (i + k <= ahi)%nat /\ (j + k <= bhi)%nat
  /\ forall d, (d < k)%nat -> same_at a b (i + d) (j + d) = true.

(** The longest common run inside the ranges, the first one in [a] and for
    it the first one in [b]; [(alo, blo, 0)] when there is none. *)
Definition first_longest (a b : list A) (alo ahi blo bhi : nat) (m : Match) : Prop :=
  run_in a b alo ahi blo bhi m.1.1 m.1.2 m.2
  /\ (m.2 = 0%nat -> m.1.1 = alo /\ m.1.2 = blo)
  /\ forall i j k, run_in a b alo ahi blo bhi i j k ->
       (k <= m.2)%nat
       /\ (k = m.2 -> (0 < k)%nat -> (m.1.1 < i)%nat \/ (m.1.1 = i /\ (m.1.2 <= j)%nat)).

(** The cell [(i', j')] comes before [(i, j)] in the order of the spec's
    search. *)
Definition earlier (i j i' j' : nat) : Prop := (i' < i)%nat \/ (i' = i /\ (j' < j)%nat).

(** The state of the spec's search before the cell [(i, j)]: [best] is the
    first longest run among those that start at an earlier cell. *)
Definition searched (u v : list A) (i j : nat) (best : nat * nat * nat) : Prop :=
  (best.2 = 0%nat -> best.1.1 = 0%nat /\ best.1.2 = 0%nat)
  /\ ((0 < best.2)%nat ->
      best.2 = Spec.common_run (drop best.1.1 u) (drop best.1.2 v)
      /\ earlier i j best.1.1 best.1.2)
  /\ forall i' j', earlier i j i' j' -> (j' < length v)%nat ->
       (Spec.common_run (drop i' u) (drop j' v) <= best.2)%nat
       /\ (Spec.common_run (drop i' u) (drop j' v) = best.2 -> (0 < best.2)%nat ->
           (best.1.1 < i')%nat \/ (best.1.1 = i' /\ (best.1.2 <= j')%nat)).

(** [a[lo:hi]] *)
Definition slice (a : list A) (lo hi : nat) : list A := take (hi - lo) (drop lo a).

(** The cells visited by the library's search so far: the rows before [i],
    and the columns [pre] of row [i]. *)
Definition visited (i : nat) (pre : list nat) (i' j' : nat) : Prop :=
  (i' < i)%nat \/ (i' = i /\ j' ∈ pre).

Section Table.
Variables a b : list A.
Variables alo blo bhi : nat.

(** A common run of [k >= 1] elements ends at [(i, j)], inside the
    ranges. *)
Definition ends (i j k : nat) : Prop :=
  (1 <= k)%nat /\ (k <= i + 1 - alo)%nat /\ (k <= j + 1 - blo)%nat /\ (j < bhi)%nat
  /\ forall d, (d < k)%nat -> same_at a b (i - d) (j - d) = true.

(** The table recorded for row [i]: at every [j] the length of the longest
    run that ends at [(i, j)]. *)
Definition table_at (i : nat) (m : gmap nat nat) : Prop :=
  (forall j k, m !! j = Some k -> ends i j k)
  /\ (forall j k, ends i j k -> exists k', m !! j = Some k' /\ (k <= k')%nat).

(** The table that row [i] reads: that of row [i - 1], empty for the first
    row. *)
Definition table_before (i : nat) (m : gmap nat nat) : Prop :=
  (forall j k, m !! j = Some k -> (alo < i)%nat /\ ends (i - 1) j k)
  /\ ((alo < i)%nat -> forall j k, ends (i - 1) j k ->
      exists k', m !! j = Some k' /\ (k <= k')%nat).

(** [best] is the first longest run among those that end at a visited
    cell. *)
Definition best_upto (i : nat) (pre : list nat) (best : Match) : Prop :=
  (best.2 = 0%nat -> best.1.1 = alo /\ best.1.2 = blo)
  /\ ((0 < best.2)%nat ->
      ends (best.1.1 + best.2 - 1) (best.1.2 + best.2 - 1) best.2
      /\ visited i pre (best.1.1 + best.2 - 1) (best.1.2 + best.2 - 1))
  /\ forall i' j' k', ends i' j' k' -> visited i pre i' j' ->
       (k' <= best.2)%nat
       /\ (k' = best.2 ->
           (best.1.1 + best.2 - 1 < i')%nat
           \/ (best.1.1 + best.2 - 1 = i' /\ (best.1.2 + best.2 - 1 <= j')%nat)).

End Table.
End Runs.

Section Self.
Context {A : Type} `{EqDecision A}.
Variable a : list A.

(** Matching a sequence against itself: [a[i]] and [a[j]] are the same
    element, and it is not popular. *)
Definition hit (i j : nat) : bool :=
  match a !! i, a !! j with
  | Some x, Some y => bool_decide (x = y) && negb (popular a y)
  | _, _ => false
  end.

(** The length of the run of hits that ends at [(i, j)]. *)
Fixpoint run (i j : nat) : nat :=
  match i with
  | O => if hit 0 j then 1 else 0
  | S i' =>
      if hit (S i') j
      then S (match j with O => 0 | S j' => run i' j' end)
      else 0
  end.

(** The run that ends just before [(i, j)]. *)
Definition before (i : nat) (j : nat) : nat :=
  match i, j with
  | S i', S j' => run i' j'
  | _, _ => 0
  end.

(** The state of the inner loop on row [i] once the positions [pre] have
    been visited. *)
Definition row_upto (i : nat) (pre : list nat) (m : gmap nat nat) : Prop :=
  forall j, default 0 (m !! j) = if bool_decide (j ∈ pre) then run i j else 0.

End Self.

End Invariant.

Module Normalizer.
Import Py.
Local Open Scope N_scope.

(** One round of the loop over [number_map]. *)
Definition step (t : text) (entry : char * text) : text :=
  let '(cn_num, arab_num) := entry in replace cn_num arab_num t.

Definition is_key (table : list (char * text)) (c : char) : bool :=
  existsb (fun entry => c =? entry.1) table.

(** No digit string of the table contains a key of a later entry, so the
    replacements of the loop never feed one another. *)
Fixpoint settled (table : list (char * text)) : bool :=
  match table with
  | [] => true
  | (_, arab_num) :: table' =>
      forallb (fun c => negb (is_key table' c)) arab_num && settled table'
  end.

(** What [Spec.normalize] does to one character. *)
Definition normalize_char (c : char) : text :=
  if isspace c then []
  else List.map Spec.halfwidth (default [c] (Spec.numeral LightSim.number_map c)).

(** A character that normalization leaves alone. *)
Definition plain (c : char) : bool :=
  negb (isspace c) && negb (is_key LightSim.number_map c)
  && negb (c =? LightSim.ord "（") && negb (c =? LightSim.ord "）").

(** What is left of one character after normalization and stripping. *)
Definition residue (c : char) : text :=
  LightSim.remove_punctuation (normalize_char c).

End Normalizer.

Module WordBag.
Import Py.

(** One more occurrence of [w] in a counter. *)
Definition tally (m : gmap text nat) (w : text) : gmap text nat :=
  <[w := S (default 0 (m !! w))]> m.

(** The tokens of a text that are not stopwords. *)
Definition kept (cut : text -> list text) (t : text) : list text :=
  List.filter (fun w => bool_decide (w ∉ LightSim.stopwords)) (cut t).

End WordBag.

(** ** Stand-ins for the collaborators, for worked examples *)

Module Fixture.
Import Py.

(** A segmenter that finds no token in an empty text and takes any other
    text as one word. *)
Definition cut_whole (t : text) : list text :=
  match t with
  | [] => []
  | _ :: _ => [t]
  end.

(** A phoneticizer with a three-entry table; as pypinyin does, it passes a
    run of characters it cannot transliterate through as one token. *)
Definition syllable (c : char) : option text :=
  if (c =? LightSim.ord "马")%N then Some (str "ma")
  else if (c =? LightSim.ord "吗")%N then Some (str "ma")
  else if (c =? LightSim.ord "买")%N then Some (str "mai")
  else None.

Definition flush (run : text) : list text :=
  match run with
  | [] => []
  | _ :: _ => [run]
  end.

Fixpoint pinyin_from (run : text) (t : text) : list text :=
  match t with
  | [] => flush run
  | c :: t' =>
      match syllable c with
      | Some s => flush run ++ s :: pinyin_from [] t'
      | None => pinyin_from (run ++ [c]) t'
      end
  end.

Definition pinyin (t : text) : list text := pinyin_from [] t.

(** A phoneticizer that reads a character by its context, as pypinyin does
    for 行 in 银行 (hang) and in 行走 (xing); every other text is read by
    [pinyin]. *)
Definition pinyin_in_context (t : text) : list text :=
  if decide (t = str "银行") then [str "yin"; str "hang"]
  else if decide (t = str "行走") then [str "xing"; str "zou"]
  else pinyin t.

(** An encoder whose embeddings point in opposite directions for texts
    that start with "a" and for all others, and the sum of absolute
    values, which is the Euclidean norm of a vector with one non-zero
    coordinate. *)
Definition embed (t : text) : list Q :=
  if bool_decide (head t = Some (LightSim.ord "a")) then [1; 0]%Q else [-1; 0]%Q.

Definition encode (ts : list text) : list (list Q) := embed <$> ts.

Definition norm (v : list Q) : Q := foldr (fun x acc => Qabs x + acc)%Q 0%Q v.

(** A vectorizer that never raises. *)
Definition tfidf_zero (doc1 doc2 : text) : result Q := Ok 0%Q.

(** Two texts of 200 characters: 199 times 马 and then the letter a, and
    the letter a and then 199 times 马. *)
Definition ma_then_a : text :=
  replicate 199 (LightSim.ord "马") ++ [LightSim.ord "a"].

Definition a_then_ma : text :=
  LightSim.ord "a" :: replicate 199 (LightSim.ord "马").

End Fixture.

(** Character-wise stand-ins: a segmenter and a phoneticizer that return
    every character as a token of its own. *)

Module CharFixture.
Import Py.

Definition cut_chars (t : text) : list text := (fun c => [c]) <$> t.

Definition pinyin_chars (t : text) : list text := (fun c => [c]) <$> t.

(** An encoder that returns the zero vector for every text. *)
Definition encode_zero (ts : list text) : list (list Q) := (fun _ => [0; 0]%Q) <$> ts.

End CharFixture.

(** * Properties *)

(** ** The matching-block ratio *)

Module DifflibFacts.
Section Bounds.
Context {A : Type} `{EqDecision A}.
Import Difflib Invariant.

Local Open Scope nat_scope.

Lemma sum_sizes_cons (m : Match) (ms : list Match) :
  sum_list_with size_of (m :: ms) = m.2 + sum_list_with size_of ms.
Proof. reflexivity. Qed.

Lemma sum_sizes_nil : sum_list_with size_of [] = 0.
Proof. reflexivity. Qed.

Lemma row_ok_empty blo n : row_ok blo n ∅.
Proof. intros j k Hjk. by rewrite lookup_empty in Hjk. Qed.

Lemma scan_row_inside alo ahi blo bhi i js j2len newj2len best :
  alo <= i -> i < ahi ->
  row_ok blo (i - alo) j2len ->
  row_ok blo (i + 1 - alo) newj2len ->
  inside alo ahi blo bhi best ->
  row_ok blo (i + 1 - alo) (scan_row blo bhi i js j2len newj2len best).1
  /\ inside alo ahi blo bhi (scan_row blo bhi i js j2len newj2len best).2.
Proof.
  intros Hlo Hhi Hprev.
  revert newj2len best.
  induction js as [|j js IH]; intros newj2len best Hnew Hbest; simpl.
  - done.
  - destruct (j <? blo) eqn:Hjb; [by apply IH|].
    destruct (bhi <=? j) eqn:Hjh; [done|].
    apply Nat.ltb_ge in Hjb. apply Nat.leb_gt in Hjh.
    set (k := (match j with O => 0 | S j' => default 0 (j2len !! j') end + 1)).
    assert (Hk : 1 <= k /\ k <= i + 1 - alo /\ k <= j + 1 - blo).
    { subst k. destruct j as [|j']; [lia|].
      destruct (j2len !! j') as [k'|] eqn:Hk'; simpl; [|lia].
      destruct (Hprev _ _ Hk'). lia. }
    apply IH.
    + intros j0 k0. rewrite lookup_insert.
      case_decide; [|by apply Hnew].
      intros [= <-]. lia.
    + destruct (best.2 <? k); [|done].
      unfold inside; simpl. lia.
Qed.

Lemma scan_rows_inside (a b : list A) alo ahi blo bhi n i j2len best :
  alo <= i -> i + n <= ahi ->
  row_ok blo (i - alo) j2len ->
  inside alo ahi blo bhi best ->
  inside alo ahi blo bhi (scan_rows a b blo bhi (seq i n) j2len best).
Proof.
  revert i j2len best.
  induction n as [|n IH]; intros i j2len best Hlo Hhi Hrow Hbest; simpl; [done|].
  destruct (a !! i) as [x|]; [|done].
  pose proof (scan_row_inside alo ahi blo bhi i (b2j b x) j2len ∅ best
                Hlo ltac:(lia) Hrow (row_ok_empty _ _) Hbest) as [Hr Hb].
  destruct (scan_row blo bhi i (b2j b x) j2len ∅ best) as [newj2len best'].
  apply IH; [lia|lia| |done].
  replace (S i - alo) with (i + 1 - alo) by lia. done.
Qed.

Lemma extend_left_inside (a b : list A) alo ahi blo bhi rounds best :
  inside alo ahi blo bhi best ->
  inside alo ahi blo bhi (extend_left a b alo blo rounds best).
Proof.
  revert best. induction rounds as [|r IH]; intros [[bi bj] bs] Hb; simpl; [done|].
  destruct ((alo <? bi) && (blo <? bj) && same_at a b (bi - 1) (bj - 1)) eqn:Hc;
    [|done].
  apply andb_prop in Hc as [Hc _]. apply andb_prop in Hc as [Hi Hj].
  apply Nat.ltb_lt in Hi, Hj.
  apply IH. unfold inside in *; simpl in *. lia.
Qed.

Lemma extend_right_inside (a b : list A) alo ahi blo bhi rounds best :
  inside alo ahi blo bhi best ->
  inside alo ahi blo bhi (extend_right a b ahi bhi rounds best).
Proof.
  revert best. induction rounds as [|r IH]; intros [[bi bj] bs] Hb; simpl; [done|].
  destruct ((bi + bs <? ahi) && (bj + bs <? bhi)
            && same_at a b (bi + bs) (bj + bs)) eqn:Hc; [|done].
  apply andb_prop in Hc as [Hc _]. apply andb_prop in Hc as [Hi Hj].
  apply Nat.ltb_lt in Hi, Hj.
  apply IH. unfold inside in *; simpl in *. lia.
Qed.

(** The two loops stop on their own: rounds beyond the distance to the
    end of the range change nothing. *)
Lemma extend_left_rounds (a b : list A) alo blo r1 r2 best :
  best.1.1 - alo <= r1 -> best.1.1 - alo <= r2 ->
  extend_left a b alo blo r1 best = extend_left a b alo blo r2 best.
Proof.
  revert r2 best. induction r1 as [|r1 IH]; intros r2 [[bi bj] bs] H1 H2; simpl in *.
  - destruct r2 as [|r2]; simpl; [done|].
    replace (alo <? bi) with false by (symmetry; apply Nat.ltb_ge; lia). done.
  - destruct r2 as [|r2]; simpl.
    + replace (alo <? bi) with false by (symmetry; apply Nat.ltb_ge; lia). done.
    + destruct ((alo <? bi) && (blo <? bj) && same_at a b (bi - 1) (bj - 1));
        [|done].
      apply IH; simpl; lia.
Qed.

Lemma extend_right_rounds (a b : list A) ahi bhi r1 r2 best :
  ahi - (best.1.1 + best.2) <= r1 -> ahi - (best.1.1 + best.2) <= r2 ->
  extend_right a b ahi bhi r1 best = extend_right a b ahi bhi r2 best.
Proof.
  revert r2 best. induction r1 as [|r1 IH]; intros r2 [[bi bj] bs] H1 H2; simpl in *.
  - destruct r2 as [|r2]; simpl; [done|].
    replace (bi + bs <? ahi) with false by (symmetry; apply Nat.ltb_ge; lia). done.
  - destruct r2 as [|r2]; simpl.
    + replace (bi + bs <? ahi) with false by (symmetry; apply Nat.ltb_ge; lia). done.
    + destruct ((bi + bs <? ahi) && (bj + bs <? bhi) && same_at a b (bi + bs) (bj + bs));
        [|done].
      apply IH; simpl; lia.
Qed.

Lemma find_longest_match_inside (a b : list A) alo ahi blo bhi :
  alo <= ahi -> blo <= bhi ->
  inside alo ahi blo bhi (find_longest_match a b alo ahi blo bhi).
Proof.
  intros Ha Hb. unfold find_longest_match.
  apply extend_right_inside, extend_left_inside.
  apply scan_rows_inside; [lia|lia|apply row_ok_empty|].
  unfold inside; simpl. lia.
Qed.

(** The blocks found in a pair of ranges fit in both of them. *)
Lemma blocks_sum (a b : list A) depth alo ahi blo bhi :
  alo <= ahi -> blo <= bhi ->
  sum_list_with size_of (blocks depth a b alo ahi blo bhi) <= ahi - alo
  /\ sum_list_with size_of (blocks depth a b alo ahi blo bhi) <= bhi - blo.
Proof.
  revert alo ahi blo bhi.
  induction depth as [|d IH]; intros alo ahi blo bhi Ha Hb;
    cbn [blocks]; [rewrite sum_sizes_nil; lia|].
  pose proof (find_longest_match_inside a b alo ahi blo bhi Ha Hb) as Hin.
  destruct (find_longest_match a b alo ahi blo bhi) as [[i j] k].
  unfold inside in Hin; simpl in Hin.
  destruct (k =? 0) eqn:Hk; [rewrite sum_sizes_nil; lia|].
  rewrite sum_list_with_app, sum_sizes_cons. cbn [snd].
  set (L := sum_list_with size_of
              (if (alo <? i) && (blo <? j) then blocks d a b alo i blo j else [])).
  set (R := sum_list_with size_of
              (if (i + k <? ahi) && (j + k <? bhi)
               then blocks d a b (i + k) ahi (j + k) bhi else [])).
  assert (Hl : L <= i - alo /\ L <= j - blo).
  { subst L. destruct ((alo <? i) && (blo <? j)) eqn:Hc.
    - apply andb_prop in Hc as [Hi Hj]. apply Nat.ltb_lt in Hi, Hj.
      apply IH; lia.
    - rewrite sum_sizes_nil; lia. }
  assert (Hr : R <= ahi - (i + k) /\ R <= bhi - (j + k)).
  { subst R. destruct ((i + k <? ahi) && (j + k <? bhi)) eqn:Hc.
    - apply andb_prop in Hc as [Hi Hj]. apply Nat.ltb_lt in Hi, Hj.
      apply IH; lia.
    - rewrite sum_sizes_nil; lia. }
  clearbody L R. lia.
Qed.

(** Any depth above the size of the range of [a] explores the whole work
    list: the result no longer depends on it. *)
Lemma blocks_depth (a b : list A) d1 d2 alo ahi blo bhi :
  alo <= ahi -> blo <= bhi ->
  ahi - alo < d1 -> ahi - alo < d2 ->
  blocks d1 a b alo ahi blo bhi = blocks d2 a b alo ahi blo bhi.
Proof.
  revert d2 alo ahi blo bhi.
  induction d1 as [|d1 IH]; intros d2 alo ahi blo bhi Ha Hb H1 H2; [lia|].
  destruct d2 as [|d2]; [lia|]. simpl.
  pose proof (find_longest_match_inside a b alo ahi blo bhi Ha Hb) as Hin.
  destruct (find_longest_match a b alo ahi blo bhi) as [[i j] k].
  unfold inside in Hin; simpl in Hin.
  destruct (k =? 0) eqn:Hk; [done|]. apply Nat.eqb_neq in Hk.
  f_equal; [|f_equal].
  - destruct ((alo <? i) && (blo <? j)) eqn:Hc; [|done].
    apply andb_prop in Hc as [Hi Hj]. apply Nat.ltb_lt in Hi, Hj.
    apply IH; lia.
  - destruct ((i + k <? ahi) && (j + k <? bhi)) eqn:Hc; [|done].
    apply andb_prop in Hc as [Hi Hj]. apply Nat.ltb_lt in Hi, Hj.
    apply IH; lia.
Qed.

Lemma get_matching_blocks_depth (a b : list A) depth :
  length a < depth ->
  collapse (0, 0, 0) (blocks depth a b 0 (length a) 0 (length b))
  ++ [(length a, length b, 0)]
  = get_matching_blocks a b.
Proof.
  intros Hd. unfold get_matching_blocks.
  by rewrite (blocks_depth a b depth (S (length a))) by lia.
Qed.

Lemma collapse_sum cur ms :
  sum_list_with size_of (collapse cur ms) = size_of cur + sum_list_with size_of ms.
Proof.
  revert cur.
  induction ms as [|[[i2 j2] k2] ms IH]; intros [[i1 j1] k1]; cbn [collapse snd].
  - change (size_of (i1, j1, k1)) with k1. rewrite sum_sizes_nil.
    destruct (k1 =? 0) eqn:Hk.
    + apply Nat.eqb_eq in Hk. rewrite sum_sizes_nil. lia.
    + rewrite sum_sizes_cons, sum_sizes_nil. cbn [snd]. lia.
  - rewrite sum_sizes_cons. cbn [snd]. change (size_of (i1, j1, k1)) with k1.
    destruct ((i1 + k1 =? i2) && (j1 + k1 =? j2)).
    + rewrite IH. change (size_of (i1, j1, k1 + k2)) with (k1 + k2). lia.
    + rewrite sum_list_with_app, IH. change (size_of (i2, j2, k2)) with k2.
      destruct (k1 =? 0) eqn:Hk.
      * apply Nat.eqb_eq in Hk. rewrite sum_sizes_nil. lia.
      * rewrite sum_sizes_cons, sum_sizes_nil. cbn [snd]. lia.
Qed.

Lemma matches_le (a b : list A) :
  2 * sum_list_with size_of (get_matching_blocks a b) <= length a + length b.
Proof.
  unfold get_matching_blocks.
  rewrite sum_list_with_app, collapse_sum, sum_sizes_cons, sum_sizes_nil.
  change (size_of (0, 0, 0)) with 0. cbn [snd].
  pose proof (blocks_sum a b (S (length a)) 0 (length a) 0 (length b)
                ltac:(lia) ltac:(lia)).
  lia.
Qed.

Lemma calculate_ratio_range (m n : nat) :
  2 * m <= n -> (0 <= calculate_ratio m n <= 1)%Q.
Proof.
  intros Hmn. unfold calculate_ratio. destruct n as [|n]; [split; discriminate|].
  assert (Hpos : (0 < inject_Z (Z.of_nat (S n)))%Q).
  { rewrite <- (Zlt_Qlt 0). lia. }
  split.
  - apply Qle_shift_div_l; [done|]. rewrite Qmult_0_l.
    apply (Qmult_le_0_compat 2); [discriminate|].
    rewrite <- (Zle_Qle 0). lia.
  - apply Qle_shift_div_r; [done|]. rewrite Qmult_1_l.
    change 2%Q with (inject_Z 2). rewrite <- inject_Z_mult, <- Zle_Qle. lia.
Qed.

(** The ratio is a number between 0 and 1. *)
Lemma ratio_range (a b : list A) : (0 <= ratio a b <= 1)%Q.
Proof. apply calculate_ratio_range, matches_le. Qed.

End Bounds.

Section Renaming.
Context {A B : Type} `{EqDecision A} `{EqDecision B}.
Variable f : A -> B.
Hypothesis f_inj : forall x y, f x = f y -> x = y.
Import Difflib.

Local Open Scope nat_scope.

Lemma positions_fmap x j (b : list A) :
  positions (f x) j (f <$> b) = positions x j b.
Proof.
  revert j. induction b as [|y b IH]; intros j; simpl; [done|].
  rewrite IH. destruct (decide (y = x)) as [->|Hne].
  - by rewrite decide_True.
  - rewrite decide_False; [done|]. intros Heq. by apply Hne, f_inj.
Qed.

Lemma b2j_fmap (b : list A) x : b2j (f <$> b) (f x) = b2j b x.
Proof. unfold b2j, popular. by rewrite positions_fmap, length_fmap. Qed.

Lemma scan_rows_fmap (a b : list A) blo bhi rows j2len best :
  scan_rows (f <$> a) (f <$> b) blo bhi rows j2len best
  = scan_rows a b blo bhi rows j2len best.
Proof.
  revert j2len best. induction rows as [|i rows IH]; intros j2len best; simpl; [done|].
  rewrite list_lookup_fmap. destruct (a !! i) as [x|]; simpl; [|done].
  rewrite b2j_fmap.
  destruct (scan_row blo bhi i (b2j b x) j2len ∅ best) as [newj2len best'].
  apply IH.
Qed.

Lemma same_at_fmap (a b : list A) i j :
  same_at (f <$> a) (f <$> b) i j = same_at a b i j.
Proof.
  unfold same_at. rewrite !list_lookup_fmap.
  destruct (a !! i) as [x|]; simpl; [|done].
  destruct (b !! j) as [y|]; simpl; [|done].
  apply bool_decide_ext. split; [apply f_inj|by intros ->].
Qed.

Lemma extend_left_fmap (a b : list A) alo blo rounds best :
  extend_left (f <$> a) (f <$> b) alo blo rounds best
  = extend_left a b alo blo rounds best.
Proof.
  revert best. induction rounds as [|r IH]; intros [[bi bj] bs]; simpl; [done|].
  rewrite same_at_fmap. by rewrite IH.
Qed.

Lemma extend_right_fmap (a b : list A) ahi bhi rounds best :
  extend_right (f <$> a) (f <$> b) ahi bhi rounds best
  = extend_right a b ahi bhi rounds best.
Proof.
  revert best. induction rounds as [|r IH]; intros [[bi bj] bs]; simpl; [done|].
  rewrite same_at_fmap. by rewrite IH.
Qed.

Lemma find_longest_match_fmap (a b : list A) alo ahi blo bhi :
  find_longest_match (f <$> a) (f <$> b) alo ahi blo bhi
  = find_longest_match a b alo ahi blo bhi.
Proof.
  unfold find_longest_match.
  by rewrite scan_rows_fmap, extend_left_fmap, extend_right_fmap.
Qed.

Lemma blocks_fmap (a b : list A) depth alo ahi blo bhi :
  blocks depth (f <$> a) (f <$> b) alo ahi blo bhi = blocks depth a b alo ahi blo bhi.
Proof.
  revert alo ahi blo bhi. induction depth as [|d IH]; intros alo ahi blo bhi;
    simpl; [done|].
  rewrite find_longest_match_fmap.
  destruct (find_longest_match a b alo ahi blo bhi) as [[i j] k].
  by rewrite !IH.
Qed.

(** The ratio only sees which elements are equal: renaming the elements
    one-to-one leaves it unchanged. *)
Lemma ratio_fmap (a b : list A) : ratio (f <$> a) (f <$> b) = ratio a b.
Proof.
  unfold ratio, get_matching_blocks. by rewrite !length_fmap, blocks_fmap.
Qed.

End Renaming.

Section Self.
Context {A : Type} `{EqDecision A}.
Variable a : list A.
Import Difflib.

Local Open Scope nat_scope.

Local Abbreviation hit := (Invariant.hit a).
Local Abbreviation run := (Invariant.run a).
Local Abbreviation before := (Invariant.before a).
Local Abbreviation row_upto := (Invariant.row_upto a).

Lemma hit_sym i j : hit i j = hit j i.
Proof.
  unfold hit. destruct (a !! i) as [x|], (a !! j) as [y|]; try done.
  destruct (decide (x = y)) as [->|Hne].
  - done.
  - rewrite !bool_decide_eq_false_2; [done| congruence |done].
Qed.

Lemma hit_diag i j : hit i j = true -> hit i i = true.
Proof.
  unfold hit. destruct (a !! i) as [x|], (a !! j) as [y|]; try done.
  intros [Hxy Hp]%andb_prop. apply bool_decide_eq_true in Hxy. subst y.
  by rewrite bool_decide_eq_true_2.
Qed.

Lemma run_sym i j : run i j = run j i.
Proof.
  revert j. induction i as [|i IH]; intros [|j]; simpl; try done.
  - rewrite (hit_sym 0 (S j)). by destruct (hit (S j) 0).
  - rewrite (hit_sym (S i) 0). by destruct (hit 0 (S i)).
  - rewrite (hit_sym (S i) (S j)), IH. done.
Qed.

Lemma run_diag i j : run i j <= run i i.
Proof.
  revert j. induction i as [|i IH]; intros j; simpl.
  - destruct (hit 0 j) eqn:Hh; [|lia]. by rewrite (hit_diag _ _ Hh).
  - destruct (hit (S i) j) eqn:Hh; [|lia]. rewrite (hit_diag _ _ Hh).
    destruct j as [|j]; [lia|]. specialize (IH j). lia.
Qed.

Lemma positions_spec x (b : list A) start j :
  j ∈ positions x start b <-> start <= j /\ b !! (j - start) = Some x.
Proof.
  revert start. induction b as [|y b IH]; intros start; simpl.
  - split; [by intros ?%elem_of_nil|intros [_ ?]; done].
  - destruct (decide (y = x)) as [->|Hne].
    + rewrite elem_of_cons, IH. split.
      * intros [->|[Hle Hb]].
        -- split; [lia|]. by rewrite Nat.sub_diag.
        -- split; [lia|]. replace (j - start) with (S (j - S start)) by lia. done.
      * intros [Hle Hb]. destruct (decide (j = start)) as [->|Hj]; [by left|right].
        split; [lia|]. replace (j - start) with (S (j - S start)) in Hb by lia. done.
    + rewrite IH. split.
      * intros [Hle Hb]. split; [lia|].
        replace (j - start) with (S (j - S start)) by lia. done.
      * intros [Hle Hb]. destruct (decide (j = start)) as [->|Hj].
        { rewrite Nat.sub_diag in Hb. simpl in Hb. congruence. }
        split; [lia|]. replace (j - start) with (S (j - S start)) in Hb by lia. done.
Qed.

Lemma positions_sorted x (b : list A) start :
  StronglySorted lt (positions x start b).
Proof.
  revert start. induction b as [|y b IH]; intros start; simpl; [constructor|].
  destruct (decide (y = x)); [|apply IH].
  constructor; [apply IH|].
  apply Forall_forall. intros j Hj. apply positions_spec in Hj. lia.
Qed.

Lemma sorted_split (pre : list nat) j rest :
  StronglySorted lt (pre ++ j :: rest) ->
  (forall j', j' ∈ pre -> j' < j) /\ (forall j', j' ∈ rest -> j < j').
Proof.
  induction pre as [|p pre IH]; simpl; intros Hs.
  - apply StronglySorted_inv in Hs as [_ Hall]. split; [by intros ? ?%elem_of_nil|].
    intros j' Hj'. rewrite Forall_forall in Hall. by apply Hall.
  - apply StronglySorted_inv in Hs as [Hs Hall]. destruct (IH Hs) as [H1 H2].
    split; [|done]. intros j' [->|Hj']%elem_of_cons; [|by apply H1].
    rewrite Forall_forall in Hall. apply Hall.
    apply elem_of_app. right. by left.
Qed.

Lemma run_hit i j : hit i j = true -> run i j = S (before i j).
Proof. destruct i; simpl; intros ->; done. Qed.

Lemma run_miss i j : hit i j = false -> run i j = 0.
Proof. destruct i; simpl; intros ->; done. Qed.

Lemma hit_positions i j x :
  a !! i = Some x -> popular a x = false ->
  j ∈ positions x 0 a -> hit i j = true.
Proof.
  intros Hi Hp [_ Hj]%positions_spec. rewrite Nat.sub_0_r in Hj.
  unfold hit. rewrite Hi, Hj, Hp. by rewrite bool_decide_eq_true_2.
Qed.

Lemma miss_positions i j x :
  a !! i = Some x -> j ∉ positions x 0 a -> hit i j = false.
Proof.
  intros Hi Hj. unfold hit. rewrite Hi.
  destruct (a !! j) as [y|] eqn:Hy; [|done].
  destruct (decide (x = y)) as [->|Hne].
  - exfalso. apply Hj. apply positions_spec. split; [lia|]. by rewrite Nat.sub_0_r.
  - by rewrite bool_decide_eq_false_2.
Qed.

Lemma miss_popular i j x :
  a !! i = Some x -> popular a x = true -> hit i j = false.
Proof.
  intros Hi Hp. unfold hit. rewrite Hi.
  destruct (a !! j) as [y|]; [|done].
  destruct (decide (x = y)) as [->|Hne].
  - by rewrite Hp, andb_false_r.
  - by rewrite bool_decide_eq_false_2.
Qed.

(** The inner loop on a row whose element is not popular: every new best
    match lies on the diagonal. *)
Lemma scan_row_diagonal i x j2len js :
  a !! i = Some x -> popular a x = false ->
  (forall j, default 0 (j2len !! j) = match i with O => 0 | S i' => run i' j end) ->
  forall pre newj2len best,
    positions x 0 a = pre ++ js ->
    row_upto i pre newj2len ->
    best.1.1 = best.1.2 ->
    (forall i' j, i' < i -> run i' j <= best.2) ->
    (forall j, j ∈ pre -> run i j <= best.2) ->
    let r := scan_row 0 (length a) i js j2len newj2len best in
    row_upto i (positions x 0 a) r.1
    /\ r.2.1.1 = r.2.1.2
    /\ best.2 <= r.2.2
    /\ (forall j, j ∈ positions x 0 a -> run i j <= r.2.2).
Proof.
  intros Hi Hp Hprev.
  induction js as [|j js IH]; intros pre newj2len best Hsplit Hrow Hdiag Hrows Hpre.
  - rewrite app_nil_r in Hsplit. subst pre. simpl. done.
  - assert (Hj : j ∈ positions x 0 a).
    { rewrite Hsplit. apply elem_of_app. right. by left. }
    pose proof (hit_positions i j x Hi Hp Hj) as Hhit.
    apply positions_spec in Hj as [_ Hj]. rewrite Nat.sub_0_r in Hj.
    pose proof (lookup_lt_Some _ _ _ Hj) as Hlt.
    cbn [scan_row]. replace (j <? 0) with false by done.
    replace (length a <=? j) with false by (symmetry; apply Nat.leb_gt; lia).
    set (k := match j with O => 0 | S j' => default 0 (j2len !! j') end + 1).
    assert (Hk : k = run i j).
    { rewrite (run_hit _ _ Hhit). subst k. unfold before.
      destruct j as [|j']; [destruct i; lia|].
      rewrite Hprev. destruct i; lia. }
    pose proof (positions_sorted x a 0) as Hsorted. rewrite Hsplit in Hsorted.
    apply sorted_split in Hsorted as [Hbelow Habove].
    assert (Hnew : best.2 < k -> i = j).
    { intros Hbk. destruct (Nat.lt_trichotomy j i) as [Hji|[->|Hij]]; [|done|].
      - pose proof (Hrows j i Hji) as Hle. rewrite run_sym in Hle. lia.
      - assert (Hin : i ∈ positions x 0 a).
        { apply positions_spec. split; [lia|]. by rewrite Nat.sub_0_r. }
        rewrite Hsplit in Hin.
        apply elem_of_app in Hin as [Hin|Hin].
        + pose proof (Hpre i Hin). pose proof (run_diag i j). lia.
        + apply elem_of_cons in Hin as [->|Hin]; [lia|].
          specialize (Habove i Hin). lia. }
    specialize (IH (pre ++ [j]) (<[j:=k]> newj2len)
                  (if best.2 <? k then (i + 1 - k, j + 1 - k, k) else best)).
    destruct IH as (H1 & H2 & H3 & H4).
    + by rewrite <- app_assoc.
    + intros j0. rewrite lookup_insert.
      destruct (decide (j = j0)) as [<-|Hne].
      * simpl. rewrite bool_decide_eq_true_2; [done|].
        apply elem_of_app. right. by left.
      * rewrite Hrow. rewrite (bool_decide_ext (j0 ∈ pre ++ [j]) (j0 ∈ pre)); [done|].
        rewrite elem_of_app, list_elem_of_singleton.
        split; [intros [?|?]; [done|congruence]|by left].
    + destruct (best.2 <? k) eqn:Hb; [|done].
      apply Nat.ltb_lt in Hb. rewrite (Hnew Hb). done.
    + intros i' j0 Hi'. specialize (Hrows i' j0 Hi').
      destruct (best.2 <? k) eqn:Hb; [|done]. apply Nat.ltb_lt in Hb. simpl. lia.
    + intros j0 [Hj0|Hj0]%elem_of_app.
      * specialize (Hpre j0 Hj0).
        destruct (best.2 <? k) eqn:Hb; [|done]. apply Nat.ltb_lt in Hb. simpl. lia.
      * apply list_elem_of_singleton in Hj0. subst j0. rewrite <- Hk.
        destruct (best.2 <? k) eqn:Hb; simpl; [lia|]. apply Nat.ltb_ge in Hb. lia.
    + split; [done|]. split; [done|]. split; [|done].
      etrans; [|exact H3].
      destruct (best.2 <? k) eqn:Hb; [|done]. apply Nat.ltb_lt in Hb. simpl. lia.
Qed.

(** After a row, the recorded run lengths are those of the row. *)
Lemma scan_row_run i x j2len best :
  a !! i = Some x ->
  (forall j, default 0 (j2len !! j) = match i with O => 0 | S i' => run i' j end) ->
  best.1.1 = best.1.2 ->
  (forall i' j, i' < i -> run i' j <= best.2) ->
  let r := scan_row 0 (length a) i (b2j a x) j2len ∅ best in
  (forall j, default 0 (r.1 !! j) = run i j)
  /\ r.2.1.1 = r.2.1.2
  /\ (forall i' j, i' < S i -> run i' j <= r.2.2).
Proof.
  intros Hi Hprev Hdiag Hrows. unfold b2j.
  destruct (popular a x) eqn:Hp.
  - cbn [scan_row fst snd]. split; [|split; [done|]].
    + intros j. change (0 = run i j). symmetry.
      apply run_miss. by eapply miss_popular.
    + intros i' j Hi'. destruct (decide (i' = i)) as [->|Hne]; [|apply Hrows; lia].
      rewrite run_miss; [lia|]. by eapply miss_popular.
  - assert (Hrow0 : row_upto i [] ∅).
    { intros j. rewrite bool_decide_eq_false_2 by (by intros ?%elem_of_nil).
      reflexivity. }
    assert (Hpre0 : forall j, j ∈ [] -> run i j <= best.2)
      by (by intros j ?%elem_of_nil).
    destruct (scan_row_diagonal i x j2len (positions x 0 a) Hi Hp Hprev [] ∅ best
                eq_refl Hrow0 Hdiag Hrows Hpre0) as (H1 & H2 & H3 & H4).
    split; [|split; [done|]].
    + intros j. rewrite H1.
      destruct (decide (j ∈ positions x 0 a)) as [Hj|Hj].
      * by rewrite bool_decide_eq_true_2.
      * rewrite bool_decide_eq_false_2 by done. symmetry.
        apply run_miss. by eapply miss_positions.
    + intros i' j Hi'. destruct (decide (i' = i)) as [->|Hne].
      * destruct (decide (j ∈ positions x 0 a)) as [Hj|Hj]; [by apply H4|].
        rewrite run_miss; [lia|]. by eapply miss_positions.
      * etrans; [apply Hrows; lia|done].
Qed.

Lemma scan_rows_diagonal cnt i j2len best :
  i + cnt <= length a ->
  (forall j, default 0 (j2len !! j) = match i with O => 0 | S i' => run i' j end) ->
  best.1.1 = best.1.2 ->
  (forall i' j, i' < i -> run i' j <= best.2) ->
  (scan_rows a a 0 (length a) (seq i cnt) j2len best).1.1
  = (scan_rows a a 0 (length a) (seq i cnt) j2len best).1.2.
Proof.
  revert i j2len best.
  induction cnt as [|cnt IH]; intros i j2len best Hlen Hprev Hdiag Hrows; simpl; [done|].
  destruct (a !! i) as [x|] eqn:Hi;
    [|apply lookup_ge_None in Hi; lia].
  pose proof (scan_row_run i x j2len best Hi Hprev Hdiag Hrows) as (H1 & H2 & H3).
  destruct (scan_row 0 (length a) i (b2j a x) j2len ∅ best) as [newj2len best'].
  apply IH; [lia|exact H1|exact H2|exact H3].
Qed.

Lemma same_at_diagonal i : i < length a -> same_at a a i i = true.
Proof.
  intros Hi. unfold same_at.
  destruct (a !! i) eqn:Hl; [by rewrite bool_decide_eq_true_2|].
  apply lookup_ge_None in Hl. lia.
Qed.

Lemma extend_left_diagonal rounds bi bs :
  bi + bs <= length a -> bi <= rounds ->
  extend_left a a 0 0 rounds (bi, bi, bs) = (0, 0, bs + bi).
Proof.
  revert bi bs. induction rounds as [|r IH]; intros bi bs Hin Hr; simpl.
  - replace bi with 0 by lia. by rewrite Nat.add_0_r.
  - destruct bi as [|bi]; simpl; [by rewrite Nat.add_0_r|].
    rewrite Nat.sub_0_r, same_at_diagonal by lia.
    rewrite IH by lia. f_equal. lia.
Qed.

Lemma extend_right_diagonal rounds bs :
  bs <= length a -> length a - bs <= rounds ->
  extend_right a a (length a) (length a) rounds (0, 0, bs) = (0, 0, length a).
Proof.
  revert bs. induction rounds as [|r IH]; intros bs Hin Hr; simpl.
  - f_equal. lia.
  - destruct (bs <? length a) eqn:Hlt; simpl.
    + apply Nat.ltb_lt in Hlt. rewrite same_at_diagonal by done.
      apply IH; lia.
    + apply Nat.ltb_ge in Hlt. f_equal. lia.
Qed.

(** The longest match of a sequence with itself is the whole sequence. *)
Lemma find_longest_match_self :
  find_longest_match a a 0 (length a) 0 (length a) = (0, 0, length a).
Proof.
  unfold find_longest_match. cbv zeta. rewrite Nat.sub_0_r.
  match goal with
  | |- context [scan_rows ?s ?t ?blo ?bhi ?rows ?m ?b] =>
      set (best := scan_rows s t blo bhi rows m b)
  end.
  assert (Hin : Invariant.inside 0 (length a) 0 (length a) best).
  { apply scan_rows_inside;
      [lia|lia|apply row_ok_empty|].
    unfold Invariant.inside. simpl. lia. }
  assert (Hdiag : best.1.1 = best.1.2).
  { apply scan_rows_diagonal; [lia|done|done|intros; lia]. }
  clearbody best. destruct best as [[bi bj] bs].
  simpl in Hdiag. subst bj. destruct Hin as (_ & _ & Hin & _). simpl in Hin.
  cbn [fst snd]. rewrite ?Nat.sub_0_r.
  rewrite extend_left_diagonal by lia. cbn [fst snd].
  apply extend_right_diagonal; lia.
Qed.

Lemma get_matching_blocks_self :
  sum_list_with size_of (get_matching_blocks a a) = length a.
Proof.
  unfold get_matching_blocks. cbn [blocks]. rewrite find_longest_match_self.
  destruct (length a) as [|n] eqn:Hn; [reflexivity|].
  replace (S n =? 0) with false by done.
  replace (0 <? 0) with false by done. cbn [andb app].
  replace (0 + S n <? S n) with false by (symmetry; apply Nat.ltb_ge; lia).
  cbn [andb]. simpl. unfold size_of. simpl. lia.
Qed.

(** A sequence compared with itself has ratio 1. *)
Lemma ratio_self : (ratio a a == 1)%Q.
Proof.
  unfold ratio. rewrite get_matching_blocks_self. unfold calculate_ratio.
  destruct (length a + length a) as [|m] eqn:Hm; [reflexivity|].
  rewrite <- Hm, Nat2Z.inj_add, inject_Z_plus.
  assert (Hpos : (0 < inject_Z (Z.of_nat (length a)))%Q).
  { rewrite <- (Zlt_Qlt 0). lia. }
  field. lra.
Qed.

End Self.
End DifflibFacts.

(** ** The library's ratio and the specification's

    When no element of the second sequence is popular, which is the case
    below 200 elements, [find_longest_match] returns the first longest
    common run of the two ranges, and so does the search of the
    specification on the two slices; the blocks and the recursion of the
    specification then split the ranges alike. *)

Module MatchingBlockFacts.
Section Refine.
Context {A : Type} `{EqDecision A}.
Import Difflib Invariant DifflibFacts.

Local Open Scope nat_scope.

Lemma first_longest_unique (a b : list A) alo ahi blo bhi (m m' : Match) :
  first_longest a b alo ahi blo bhi m -> first_longest a b alo ahi blo bhi m' -> m = m'.
Proof.
  destruct m as [[i j] k], m' as [[i' j'] k'].
  intros (Hr & Hz & Hmax) (Hr' & Hz' & Hmax'). cbn [fst snd] in *.
  destruct (Hmax _ _ _ Hr') as [Hle1 Ht1]. destruct (Hmax' _ _ _ Hr) as [Hle2 Ht2].
  assert (k = k') by lia. subst k'.
  destruct (decide (k = 0)) as [->|Hk].
  - destruct (Hz eq_refl) as [-> ->]. destruct (Hz' eq_refl) as [-> ->]. done.
  - specialize (Ht1 eq_refl ltac:(lia)). specialize (Ht2 eq_refl ltac:(lia)).
    assert (i = i' /\ j = j') as [-> ->] by lia. done.
Qed.

(** *** The spec's search *)

Lemma same_at_Some (a b : list A) i j :
  same_at a b i j = true <-> exists x, a !! i = Some x /\ b !! j = Some x.
Proof.
  unfold same_at. destruct (a !! i) as [x|], (b !! j) as [y|].
  - rewrite bool_decide_eq_true. split; [intros ->; eauto|].
    intros (z & [= ->] & [= ->]). done.
  - split; [done|]. intros (z & _ & [=]).
  - split; [done|]. intros (z & [=] & _).
  - split; [done|]. intros (z & [=] & _).
Qed.

Lemma common_run_spec (u v : list A) d :
  d < Spec.common_run u v <-> forall d', d' <= d -> same_at u v d' d' = true.
Proof.
  revert v d. induction u as [|x u IH]; intros [|y v] d; simpl.
  - split; [lia|]. intros Hs. specialize (Hs 0 ltac:(lia)). done.
  - split; [lia|]. intros Hs. specialize (Hs 0 ltac:(lia)). done.
  - split; [lia|]. intros Hs. specialize (Hs 0 ltac:(lia)). done.
  - destruct (decide (x = y)) as [->|Hne].
    + destruct d as [|d].
      * split; [|lia]. intros _ d' Hd'. replace d' with 0 by lia.
        unfold same_at. simpl. by rewrite bool_decide_eq_true_2.
      * rewrite <- Nat.succ_lt_mono, IH. split.
        -- intros Hs [|d'] Hd'.
           ++ unfold same_at. simpl. by rewrite bool_decide_eq_true_2.
           ++ apply (Hs d'). lia.
        -- intros Hs d' Hd'. apply (Hs (S d')). lia.
    + split; [lia|]. intros Hs. specialize (Hs 0 ltac:(lia)).
      unfold same_at in Hs. simpl in Hs. by rewrite bool_decide_eq_false_2 in Hs.
Qed.

Lemma same_at_drop (u v : list A) i j d :
  same_at (drop i u) (drop j v) d d = same_at u v (i + d) (j + d).
Proof. unfold same_at. by rewrite !lookup_drop. Qed.

(** [k <= Spec.common_run (drop i u) (drop j v)] says that [u] and [v] agree on
    [k] elements from [(i, j)]. *)
Lemma common_run_drop (u v : list A) i j k :
  k <= Spec.common_run (drop i u) (drop j v)
  <-> forall d, d < k -> same_at u v (i + d) (j + d) = true.
Proof.
  destruct k as [|k].
  - split; [intros _ d Hd; lia|lia].
  - change (S k <= ?n) with (k < n). rewrite common_run_spec. split.
    + intros Hs d Hd. rewrite <- same_at_drop. apply Hs. lia.
    + intros Hs d Hd. rewrite same_at_drop. apply Hs. lia.
Qed.

Lemma same_at_lt (a b : list A) i j :
  same_at a b i j = true -> i < length a /\ j < length b.
Proof.
  intros (x & Hi & Hj)%same_at_Some.
  split; by eapply lookup_lt_Some.
Qed.

Section Search.
Variables u v : list A.

Local Abbreviation cr i j := (Spec.common_run (drop i u) (drop j v)).
Local Abbreviation searched := (Invariant.searched u v).

Lemma searched_longer i j best :
  j < length v -> searched i j best -> searched i (S j) (Spec.longer u v best i j).
Proof.
  intros Hj (Hz & Hpos & Hmax). unfold Spec.longer. cbv zeta.
  destruct (best.2 <? cr i j) eqn:Hlt.
  - apply Nat.ltb_lt in Hlt. split; [cbn; lia|]. split.
    + intros _. cbn. split; [done|]. right. lia.
    + intros i' j' He Hj'. cbn [fst snd].
      destruct (decide (i' = i /\ j' = j)) as [[-> ->]|Hne].
      * split; [lia|]. intros _ _. right. lia.
      * assert (He' : earlier i j i' j') by (unfold earlier in *; lia).
        destruct (Hmax i' j' He' Hj') as [Hle _]. split; [lia|]. intros Heq. lia.
  - apply Nat.ltb_ge in Hlt. split; [done|]. split.
    + intros Hb. destruct (Hpos Hb) as [Hcr He]. split; [done|].
      unfold earlier in *. lia.
    + intros i' j' He Hj'.
      destruct (decide (i' = i /\ j' = j)) as [[-> ->]|Hne].
      * split; [lia|]. intros Heq Hb. destruct (Hpos Hb) as [_ Hbe].
        unfold earlier in Hbe. lia.
      * apply Hmax; [|done]. unfold earlier in *. lia.
Qed.

Lemma searched_row i n j best :
  j + n <= length v -> searched i j best ->
  searched i (j + n) (foldl (fun best j => Spec.longer u v best i j) best (seq j n)).
Proof.
  revert j best. induction n as [|n IH]; intros j best Hn Hs; simpl.
  - by rewrite Nat.add_0_r.
  - replace (j + S n) with (S j + n) by lia. apply IH; [lia|].
    apply searched_longer; [lia|done].
Qed.

Lemma searched_next_row i best :
  searched i (length v) best -> searched (S i) 0 best.
Proof.
  intros (Hz & Hpos & Hmax). split; [done|]. split.
  - intros Hb. destruct (Hpos Hb) as [Hcr He]. split; [done|].
    assert (Hlt : best.1.2 < length v).
    { destruct (decide (best.1.2 < length v)) as [?|Hge]; [done|].
      exfalso. rewrite (drop_ge v) in Hcr by lia.
      destruct (drop best.1.1 u); simpl in Hcr; lia. }
    unfold earlier in *. lia.
  - intros i' j' He Hj'. apply Hmax; [|done]. unfold earlier in *. lia.
Qed.

Lemma searched_rows n i best :
  searched i 0 best ->
  searched (i + n) 0
    (foldl (fun best i => foldl (fun best j => Spec.longer u v best i j) best
                            (seq 0 (length v))) best (seq i n)).
Proof.
  revert i best. induction n as [|n IH]; intros i best Hs; simpl.
  - by rewrite Nat.add_0_r.
  - replace (i + S n) with (S i + n) by lia. apply IH.
    apply searched_next_row.
    apply (searched_row i (length v) 0 best); [lia|done].
Qed.

Lemma longest_common_run_first :
  first_longest u v 0 (length u) 0 (length v) (Spec.longest_common_run u v).
Proof.
  assert (Hs : searched (length u) 0 (Spec.longest_common_run u v)).
  { apply (searched_rows (length u) 0 (0, 0, 0)).
    split; [done|]. split; [cbn; lia|].
    intros i' j' He. unfold earlier in He. lia. }
  destruct (Spec.longest_common_run u v) as [[bi bj] bk].
  destruct Hs as (Hz & Hpos & Hmax). unfold first_longest. cbn [fst snd] in *.
  split; [|split].
  - destruct (decide (bk = 0)) as [->|Hk].
    + destruct (Hz eq_refl) as [-> ->]. unfold run_in. cbn.
      repeat split; try lia.
    + destruct (Hpos ltac:(lia)) as [Hcr He].
      assert (Hrun : forall d, d < bk -> same_at u v (bi + d) (bj + d) = true).
      { apply common_run_drop. lia. }
      unfold run_in. cbn [fst snd].
      pose proof (same_at_lt _ _ _ _ (Hrun (bk - 1) ltac:(lia))) as [H1 H2].
      repeat split; try lia. done.
  - intros ->. by apply Hz.
  - intros i j k (_ & _ & Hi & Hj & Hrun).
    destruct (decide (k = 0)) as [->|Hk]; [split; lia|].
    apply common_run_drop in Hrun.
    assert (He : earlier (length u) 0 i j) by (unfold earlier; lia).
    destruct (Hmax i j He ltac:(lia)) as [Hle Htie].
    split; [lia|]. intros -> Hb.
    destruct (Hpos Hb) as [Hcr _]. apply Htie; [|done]. lia.
Qed.

End Search.

(** *** The library's search, when no element of [b] is popular *)

Section Table.
Variables a b : list A.
Variables alo ahi blo bhi : nat.
Hypothesis no_popular : forall x, popular b x = false.

Local Abbreviation ends := (Invariant.ends a b alo blo bhi).
Local Abbreviation table_at := (Invariant.table_at a b alo blo bhi).
Local Abbreviation table_before := (Invariant.table_before a b alo blo bhi).
Local Abbreviation best_upto := (Invariant.best_upto a b alo blo bhi).

Lemma table_before_first : table_before alo ∅.
Proof.
  split; [intros j k Hjk; by rewrite lookup_empty in Hjk|]. lia.
Qed.

Lemma table_at_before i m : alo <= i -> table_at i m -> table_before (S i) m.
Proof.
  intros Hi [Hs Hc]. unfold table_before.
  assert (Hsi : S i - 1 = i) by lia. rewrite Hsi. split.
  - intros j k Hjk. split; [lia|by apply Hs].
  - intros _. exact Hc.
Qed.

Lemma best_upto_first : best_upto alo [] (alo, blo, 0).
Proof.
  split; [done|]. split; [cbn; lia|].
  intros i' j' k' (H1 & H2 & _) [Hlt|[_ Hin]].
  - lia.
  - by apply elem_of_nil in Hin.
Qed.

Lemma ends_same i j k : ends i j k -> same_at a b i j = true.
Proof.
  intros (H1 & _ & _ & _ & Hrun). specialize (Hrun 0 ltac:(lia)).
  by rewrite !Nat.sub_0_r in Hrun.
Qed.

(** Once every run that ends in row [i] ends at a visited column, the row
    is done. *)
Lemma best_upto_row_done i pre best :
  (forall j k, ends i j k -> j ∈ pre) ->
  best_upto i pre best -> best_upto (S i) [] best.
Proof.
  intros Hcover (Hz & Hpos & Hmax). split; [done|]. split.
  - intros Hb. destruct (Hpos Hb) as [He Hv]. split; [done|].
    left. destruct Hv as [?|[? _]]; lia.
  - intros i' j' k' He [Hlt|[_ Hin]]; [|by apply elem_of_nil in Hin].
    apply Hmax; [done|].
    destruct (decide (i' = i)) as [->|Hne].
    + right. split; [done|]. by eapply Hcover.
    + left. lia.
Qed.

Lemma best_upto_skip i pre j best :
  (forall k, ~ ends i j k) ->
  best_upto i pre best -> best_upto i (pre ++ [j]) best.
Proof.
  intros Hnone (Hz & Hpos & Hmax). split; [done|]. split.
  - intros Hb. destruct (Hpos Hb) as [He Hv]. split; [done|].
    destruct Hv as [?|[? Hin]]; [by left|right]. split; [done|].
    apply elem_of_app. by left.
  - intros i' j' k' He [Hlt|[-> Hin]].
    + apply Hmax; [done|by left].
    + apply elem_of_app in Hin as [Hin|Hin].
      * apply Hmax; [done|]. right. done.
      * apply list_elem_of_singleton in Hin. subst j'. by destruct (Hnone k').
Qed.

Lemma scan_row_exact i x j2len :
  a !! i = Some x -> alo <= i ->
  table_before i j2len ->
  forall js pre newj2len best,
    positions x 0 b = pre ++ js ->
    (forall j k, newj2len !! j = Some k -> ends i j k) ->
    (forall j k, ends i j k -> j ∈ pre -> exists k', newj2len !! j = Some k' /\ k <= k') ->
    best_upto i pre best ->
    table_at i (scan_row blo bhi i js j2len newj2len best).1
    /\ best_upto (S i) [] (scan_row blo bhi i js j2len newj2len best).2.
Proof.
  intros Hi Hlo [Hprev_s Hprev_c].
  assert (Hcol : forall j k, ends i j k -> j ∈ positions x 0 b).
  { intros j k He. apply ends_same, same_at_Some in He as (y & Hy & Hj).
    rewrite Hi in Hy. injection Hy as <-.
    apply positions_spec. split; [lia|]. by rewrite Nat.sub_0_r. }
  assert (Hdone : forall pre newj2len best,
             (forall j k, ends i j k -> j ∈ pre) ->
             (forall j k, newj2len !! j = Some k -> ends i j k) ->
             (forall j k, ends i j k -> j ∈ pre ->
                          exists k', newj2len !! j = Some k' /\ k <= k') ->
             best_upto i pre best ->
             table_at i newj2len /\ best_upto (S i) [] best).
  { intros pre newj2len best Hcover Hs Hc Hb. split.
    - split; [done|]. intros j k He. apply (Hc j k He). by eapply Hcover.
    - by eapply best_upto_row_done. }
  induction js as [|j js IH]; intros pre newj2len best Hsplit Hs Hc Hb.
  { rewrite app_nil_r in Hsplit. subst pre. cbn [scan_row]. by eapply Hdone. }
  pose proof (positions_sorted x b 0) as Hsorted. rewrite Hsplit in Hsorted.
  apply sorted_split in Hsorted as [Hbelow Habove].
  assert (Hj : b !! j = Some x).
  { assert (Hin : j ∈ positions x 0 b)
      by (rewrite Hsplit; apply elem_of_app; right; by left).
    apply positions_spec in Hin as [_ Hin]. by rewrite Nat.sub_0_r in Hin. }
  cbn [scan_row].
  destruct (j <? blo) eqn:Hjb.
  { apply Nat.ltb_lt in Hjb.
    assert (Hnone : forall k, ~ ends i j k) by (intros k (? & ? & ? & _); lia).
    apply (IH (pre ++ [j])).
    - by rewrite <- app_assoc.
    - done.
    - intros j' k He [Hin|Hin]%elem_of_app; [by apply Hc|].
      apply list_elem_of_singleton in Hin. subst j'. by destruct (Hnone k).
    - by apply best_upto_skip. }
  apply Nat.ltb_ge in Hjb.
  destruct (bhi <=? j) eqn:Hjh.
  { apply Nat.leb_le in Hjh. apply (Hdone pre); try done.
    intros j' k He. pose proof (Hcol j' k He) as Hin. rewrite Hsplit in Hin.
    apply elem_of_app in Hin as [Hin|Hin]; [done|]. exfalso.
    destruct He as (_ & _ & _ & Hlt & _).
    apply elem_of_cons in Hin as [->|Hin]; [lia|]. specialize (Habove j' Hin). lia. }
  apply Nat.leb_gt in Hjh.
  set (k0 := match j with O => 0 | S j' => default 0 (j2len !! j') end).
  assert (Hk0 : k0 = 0 \/ (alo < i /\ 1 <= j /\ ends (i - 1) (j - 1) k0)).
  { subst k0. destruct j as [|j']; [by left|].
    destruct (j2len !! j') as [k|] eqn:Hk; [|by left]. right.
    destruct (Hprev_s j' k Hk) as [Hai He]. split; [done|]. split; [lia|].
    by replace (S j' - 1) with j' by lia. }
  assert (Hsame : same_at a b i j = true).
  { apply same_at_Some. eauto. }
  assert (Hends : ends i j (k0 + 1)).
  { destruct Hk0 as [->|(Hai & Hj1 & (H1 & H2 & H3 & H4 & Hrun))].
    - unfold ends. repeat split; try lia. intros d Hd.
      replace d with 0 by lia. by rewrite !Nat.sub_0_r.
    - unfold ends. repeat split; try lia. intros [|d] Hd.
      + by rewrite !Nat.sub_0_r.
      + replace (i - S d) with (i - 1 - d) by lia.
        replace (j - S d) with (j - 1 - d) by lia. apply Hrun. lia. }
  assert (Hlongest : forall k1, ends i j k1 -> k1 <= k0 + 1).
  { intros k1 (H1 & H2 & H3 & H4 & Hrun).
    destruct (decide (k1 <= 1)) as [?|Hk1]; [lia|].
    assert (He : ends (i - 1) (j - 1) (k1 - 1)).
    { unfold ends. repeat split; try lia. intros d Hd.
      replace (i - 1 - d) with (i - S d) by lia.
      replace (j - 1 - d) with (j - S d) by lia. apply Hrun. lia. }
    destruct (Hprev_c ltac:(lia) _ _ He) as (k' & Hk' & Hle).
    subst k0. destruct j as [|j']; [lia|].
    replace (S j' - 1) with j' in Hk' by lia. rewrite Hk'. simpl. lia. }
  clearbody k0.
  apply (IH (pre ++ [j])).
  - by rewrite <- app_assoc.
  - intros j' k'. destruct (decide (j = j')) as [<-|Hne].
    + rewrite lookup_insert_eq. by intros [= <-].
    + rewrite lookup_insert_ne by done. apply Hs.
  - intros j' k' He Hin. destruct (decide (j = j')) as [<-|Hne].
    + rewrite lookup_insert_eq. eexists. split; [done|]. by apply Hlongest.
    + rewrite lookup_insert_ne by done. apply Hc; [done|].
      apply elem_of_app in Hin as [Hin|Hin]; [done|].
      apply list_elem_of_singleton in Hin. congruence.
  - destruct Hb as (Hz & Hpos & Hmax).
    destruct Hends as (E1 & E2 & E3 & E4 & E5).
    destruct (best.2 <? k0 + 1) eqn:Hlt.
    + apply Nat.ltb_lt in Hlt. split; [cbn; lia|]. cbn [fst snd].
      replace (i + 1 - (k0 + 1) + (k0 + 1) - 1) with i by lia.
      replace (j + 1 - (k0 + 1) + (k0 + 1) - 1) with j by lia.
      split.
      * intros _. split; [unfold ends; repeat split; try lia; done|].
        right. split; [done|]. apply elem_of_app. right. by left.
      * intros i' j' k' He [Hv|[-> Hin]].
        -- destruct (Hmax i' j' k' He (or_introl Hv)) as [Hle _]. lia.
        -- apply elem_of_app in Hin as [Hin|Hin].
           ++ destruct (Hmax i j' k' He (or_intror (conj eq_refl Hin))) as [Hle _]. lia.
           ++ apply list_elem_of_singleton in Hin. subst j'.
              pose proof (Hlongest k' He). split; [lia|]. intros _. right. lia.
    + apply Nat.ltb_ge in Hlt. split; [done|]. split.
      * intros Hbk. destruct (Hpos Hbk) as [He Hv]. split; [done|].
        destruct Hv as [?|[? Hin]]; [by left|right]. split; [done|].
        apply elem_of_app. by left.
      * intros i' j' k' He [Hv|[-> Hin]].
        -- apply Hmax; [done|by left].
        -- apply elem_of_app in Hin as [Hin|Hin].
           ++ apply Hmax; [done|]. right. done.
           ++ apply list_elem_of_singleton in Hin. subst j'.
              pose proof (Hlongest k' He) as Hk'. split; [lia|]. intros ->.
              destruct (Hpos ltac:(destruct He; lia)) as [_ [Hv|[Hv Hin]]].
              ** left. exact Hv.
              ** right. split; [done|]. specialize (Hbelow _ Hin). lia.
Qed.

Lemma scan_rows_exact n i j2len best :
  alo <= i -> i + n <= length a ->
  table_before i j2len -> best_upto i [] best ->
  best_upto (i + n) [] (scan_rows a b blo bhi (seq i n) j2len best).
Proof.
  revert i j2len best.
  induction n as [|n IH]; intros i j2len best Hlo Hhi Ht Hb; simpl.
  - by rewrite Nat.add_0_r.
  - destruct (a !! i) as [x|] eqn:Hi; [|apply lookup_ge_None in Hi; lia].
    unfold b2j. rewrite no_popular.
    destruct (scan_row_exact i x j2len Hi Hlo Ht (positions x 0 b) [] ∅ best)
      as [Ht' Hb'].
    + done.
    + intros j k Hjk. by rewrite lookup_empty in Hjk.
    + intros j k _ Hin. by apply elem_of_nil in Hin.
    + done.
    + destruct (scan_row blo bhi i (positions x 0 b) j2len ∅ best)
        as [newj2len best'].
      replace (i + S n) with (S i + n) by lia.
      apply IH; [lia|lia|by apply table_at_before|done].
Qed.

(** What the rows leave is the first longest run of the two ranges. *)
Lemma best_upto_first_longest best :
  alo <= ahi -> blo <= bhi ->
  best_upto ahi [] best -> first_longest a b alo ahi blo bhi best.
Proof.
  intros Ha Hb. destruct best as [[bi bj] bk].
  intros (Hz & Hpos & Hmax). unfold first_longest. cbn [fst snd] in *.
  split; [|split].
  - destruct (decide (bk = 0)) as [->|Hk].
    + destruct (Hz eq_refl) as [-> ->]. unfold run_in. repeat split; try lia.
    + destruct (Hpos ltac:(lia)) as [(H1 & H2 & H3 & H4 & Hrun) [Hv|[_ Hin]]];
        [|by apply elem_of_nil in Hin].
      unfold run_in. repeat split; try lia. intros d Hd.
      specialize (Hrun (bk - 1 - d) ltac:(lia)).
      replace (bi + bk - 1 - (bk - 1 - d)) with (bi + d) in Hrun by lia.
      by replace (bj + bk - 1 - (bk - 1 - d)) with (bj + d) in Hrun by lia.
  - done.
  - intros i j k (H1 & H2 & H3 & H4 & Hrun).
    destruct (decide (k = 0)) as [->|Hk]; [split; lia|].
    assert (He : ends (i + k - 1) (j + k - 1) k).
    { unfold ends. repeat split; try lia. intros d Hd.
      specialize (Hrun (k - 1 - d) ltac:(lia)).
      replace (i + (k - 1 - d)) with (i + k - 1 - d) in Hrun by lia.
      by replace (j + (k - 1 - d)) with (j + k - 1 - d) in Hrun by lia. }
    destruct (Hmax _ _ _ He ltac:(left; lia)) as [Hle Htie].
    split; [done|]. intros -> _. specialize (Htie eq_refl). lia.
Qed.

Lemma extend_left_longest rounds best :
  first_longest a b alo ahi blo bhi best ->
  extend_left a b alo blo rounds best = best.
Proof.
  destruct rounds as [|r]; [done|]. destruct best as [[bi bj] bk].
  intros (Hr & Hz & Hmax). cbn [fst snd] in *. cbn [extend_left].
  destruct ((alo <? bi) && (blo <? bj) && same_at a b (bi - 1) (bj - 1)) eqn:Hc;
    [|done].
  exfalso. apply andb_prop in Hc as [Hc Hsame]. apply andb_prop in Hc as [Hi Hj].
  apply Nat.ltb_lt in Hi, Hj. destruct Hr as (H1 & H2 & H3 & H4 & Hrun).
  assert (Hlonger : run_in a b alo ahi blo bhi (bi - 1) (bj - 1) (bk + 1)).
  { unfold run_in. repeat split; try lia. intros [|d] Hd.
    - by rewrite !Nat.add_0_r.
    - replace (bi - 1 + S d) with (bi + d) by lia.
      replace (bj - 1 + S d) with (bj + d) by lia. apply Hrun. lia. }
  destruct (Hmax _ _ _ Hlonger). lia.
Qed.

Lemma extend_right_longest rounds best :
  first_longest a b alo ahi blo bhi best ->
  extend_right a b ahi bhi rounds best = best.
Proof.
  destruct rounds as [|r]; [done|]. destruct best as [[bi bj] bk].
  intros (Hr & Hz & Hmax). cbn [fst snd] in *. cbn [extend_right].
  destruct ((bi + bk <? ahi) && (bj + bk <? bhi) && same_at a b (bi + bk) (bj + bk))
    eqn:Hc; [|done].
  exfalso. apply andb_prop in Hc as [Hc Hsame]. apply andb_prop in Hc as [Hi Hj].
  apply Nat.ltb_lt in Hi, Hj. destruct Hr as (H1 & H2 & H3 & H4 & Hrun).
  assert (Hlonger : run_in a b alo ahi blo bhi bi bj (bk + 1)).
  { unfold run_in. repeat split; try lia. intros d Hd.
    destruct (decide (d = bk)) as [->|Hne]; [done|]. apply Hrun. lia. }
  destruct (Hmax _ _ _ Hlonger). lia.
Qed.

(** [find_longest_match] returns the first longest run of the ranges. *)
Lemma find_longest_match_first :
  alo <= ahi -> ahi <= length a -> blo <= bhi ->
  first_longest a b alo ahi blo bhi (find_longest_match a b alo ahi blo bhi).
Proof.
  intros Ha Hlen Hb. unfold find_longest_match. cbv zeta.
  assert (Hbest : first_longest a b alo ahi blo bhi
                    (scan_rows a b blo bhi (seq alo (ahi - alo)) ∅ (alo, blo, 0))).
  { apply best_upto_first_longest; [done|done|].
    replace ahi with (alo + (ahi - alo)) at 1 by lia.
    apply scan_rows_exact; [lia|lia|apply table_before_first|apply best_upto_first]. }
  rewrite (extend_left_longest _ _ Hbest). by rewrite (extend_right_longest _ _ Hbest).
Qed.

End Table.

(** *** The blocks and the spec's recursion *)

Lemma slice_length (a : list A) lo hi :
  hi <= length a -> length (slice a lo hi) = hi - lo.
Proof. intros Hhi. unfold slice. rewrite length_take, length_drop. lia. Qed.

Lemma slice_lookup (a : list A) lo hi d :
  d < hi - lo -> slice a lo hi !! d = a !! (lo + d).
Proof. intros Hd. unfold slice. by rewrite lookup_take_lt, lookup_drop. Qed.

Lemma slice_take (a : list A) lo hi i :
  lo + i <= hi -> take i (slice a lo hi) = slice a lo (lo + i).
Proof.
  intros Hi. unfold slice. rewrite take_take.
  f_equal. lia.
Qed.

Lemma slice_drop (a : list A) lo hi i :
  drop i (slice a lo hi) = slice a (lo + i) hi.
Proof.
  unfold slice. rewrite skipn_firstn_comm, drop_drop. f_equal. lia.
Qed.

Lemma slice_all (a : list A) : slice a 0 (length a) = a.
Proof. unfold slice. rewrite drop_0, Nat.sub_0_r. apply firstn_all. Qed.

Lemma same_at_slice (a b : list A) alo ahi blo bhi i j :
  ahi <= length a -> bhi <= length b ->
  same_at (slice a alo ahi) (slice b blo bhi) i j = true
  <-> i < ahi - alo /\ j < bhi - blo /\ same_at a b (alo + i) (blo + j) = true.
Proof.
  intros Ha Hb. split.
  - intros Hs. pose proof (same_at_lt _ _ _ _ Hs) as [Hi Hj].
    rewrite !slice_length in * by done. split; [done|]. split; [done|].
    unfold same_at in *. by rewrite !slice_lookup in Hs by done.
  - intros (Hi & Hj & Hs). unfold same_at in *. by rewrite !slice_lookup by done.
Qed.

(** The first longest run of two slices is that of the two ranges. *)
Lemma first_longest_slice (a b : list A) alo ahi blo bhi (m : Match) :
  alo <= ahi -> ahi <= length a -> blo <= bhi -> bhi <= length b ->
  first_longest (slice a alo ahi) (slice b blo bhi) 0 (ahi - alo) 0 (bhi - blo) m ->
  first_longest a b alo ahi blo bhi (alo + m.1.1, blo + m.1.2, m.2).
Proof.
  intros Ha Hla Hb Hlb. destruct m as [[i j] k].
  intros (Hr & Hz & Hmax). unfold first_longest. cbn [fst snd] in *.
  split; [|split].
  - destruct Hr as (_ & _ & H3 & H4 & Hrun). unfold run_in.
    repeat split; try lia. intros d Hd. specialize (Hrun d Hd).
    apply same_at_slice in Hrun as (_ & _ & Hrun); [|done|done].
    by rewrite !Nat.add_assoc in Hrun.
  - intros Hk. destruct (Hz Hk) as [-> ->]. lia.
  - intros i' j' k' (H1 & H2 & H3 & H4 & Hrun).
    assert (Hr' : run_in (slice a alo ahi) (slice b blo bhi) 0 (ahi - alo) 0 (bhi - blo)
                    (i' - alo) (j' - blo) k').
    { unfold run_in. repeat split; try lia. intros d Hd.
      apply same_at_slice; [done|done|]. split; [lia|]. split; [lia|].
      replace (alo + (i' - alo + d)) with (i' + d) by lia.
      replace (blo + (j' - blo + d)) with (j' + d) by lia. by apply Hrun. }
    destruct (Hmax _ _ _ Hr') as [Hle Htie]. split; [done|].
    intros Hk Hpos. specialize (Htie Hk Hpos). lia.
Qed.

Lemma find_longest_match_spec (a b : list A) alo ahi blo bhi :
  (forall x, popular b x = false) ->
  alo <= ahi -> ahi <= length a -> blo <= bhi -> bhi <= length b ->
  let m := Spec.longest_common_run (slice a alo ahi) (slice b blo bhi) in
  find_longest_match a b alo ahi blo bhi = (alo + m.1.1, blo + m.1.2, m.2).
Proof.
  intros Hpop Ha Hla Hb Hlb m.
  apply (first_longest_unique a b alo ahi blo bhi).
  - by apply find_longest_match_first.
  - apply first_longest_slice; try done.
    pose proof (longest_common_run_first (slice a alo ahi) (slice b blo bhi)) as Hf.
    by rewrite !slice_length in Hf by done.
Qed.

Lemma longest_common_run_nil_l (v : list A) : (Spec.longest_common_run [] v).2 = 0.
Proof. reflexivity. Qed.

Lemma longest_common_run_nil_r (u : list A) : (Spec.longest_common_run u []).2 = 0.
Proof.
  pose proof (longest_common_run_first u []) as (Hr & _).
  destruct Hr as (_ & _ & _ & H4 & _). simpl in H4. lia.
Qed.

Lemma matched_nil_l fuel (v : list A) : Spec.matched fuel [] v = 0.
Proof. destruct fuel; [done|]. reflexivity. Qed.

Lemma matched_nil_r fuel (u : list A) : Spec.matched fuel u [] = 0.
Proof.
  destruct fuel; [done|]. cbn [Spec.matched].
  pose proof (longest_common_run_nil_r u) as Hk.
  destruct (Spec.longest_common_run u []) as [[i j] k]. cbn in Hk. by subst k.
Qed.

(** The blocks of two ranges add up to what the spec's recursion matches
    in the two slices. *)
Lemma blocks_matched (a b : list A) :
  (forall x, popular b x = false) ->
  forall n depth fuel alo ahi blo bhi,
    ahi - alo <= n -> n < depth -> n <= fuel ->
    alo <= ahi -> ahi <= length a -> blo <= bhi -> bhi <= length b ->
    sum_list_with size_of (blocks depth a b alo ahi blo bhi)
    = Spec.matched fuel (slice a alo ahi) (slice b blo bhi).
Proof.
  intros Hpop. induction n as [|n IH];
    intros depth fuel alo ahi blo bhi Hn Hdepth Hfuel Ha Hla Hb Hlb.
  - destruct depth as [|d]; [lia|]. cbn [blocks].
    pose proof (find_longest_match_inside a b alo ahi blo bhi Ha Hb) as Hin.
    destruct (find_longest_match a b alo ahi blo bhi) as [[i j] k].
    unfold inside in Hin. cbn [fst snd] in Hin.
    assert (k = 0) as -> by lia. cbn.
    replace (slice a alo ahi) with (@nil A); [by rewrite matched_nil_l|].
    unfold slice. replace (ahi - alo) with 0 by lia. done.
  - destruct depth as [|d]; [lia|]. destruct fuel as [|f]; [lia|].
    cbn [blocks Spec.matched].
    pose proof (find_longest_match_inside a b alo ahi blo bhi Ha Hb) as Hin.
    rewrite (find_longest_match_spec a b alo ahi blo bhi Hpop Ha Hla Hb Hlb) in *.
    cbv zeta in *.
    destruct (Spec.longest_common_run (slice a alo ahi) (slice b blo bhi)) as [[i j] k].
    unfold inside in Hin. cbn [fst snd] in *.
    destruct (k =? 0) eqn:Hk; [done|]. apply Nat.eqb_neq in Hk.
    rewrite sum_list_with_app, sum_sizes_cons. cbn [snd].
    rewrite (slice_take a alo ahi i) by lia. rewrite (slice_take b blo bhi j) by lia.
    rewrite !slice_drop.
    assert (Hleft : sum_list_with size_of
                      (if (alo <? alo + i) && (blo <? blo + j)
                       then blocks d a b alo (alo + i) blo (blo + j) else [])
                    = Spec.matched f (slice a alo (alo + i)) (slice b blo (blo + j))).
    { destruct (alo <? alo + i) eqn:Hi; [destruct (blo <? blo + j) eqn:Hj|]; cbn [andb].
      - apply (IH d f); lia.
      - apply Nat.ltb_ge in Hj. replace (blo + j) with blo by lia.
        unfold slice at 2. rewrite Nat.sub_diag. cbn [take].
        by rewrite matched_nil_r.
      - apply Nat.ltb_ge in Hi. replace (alo + i) with alo by lia.
        unfold slice at 1. rewrite Nat.sub_diag. cbn [take].
        by rewrite matched_nil_l. }
    assert (Hright : sum_list_with size_of
                       (if (alo + i + k <? ahi) && (blo + j + k <? bhi)
                        then blocks d a b (alo + i + k) ahi (blo + j + k) bhi else [])
                     = Spec.matched f (slice a (alo + (i + k)) ahi) (slice b (blo + (j + k)) bhi)).
    { rewrite !Nat.add_assoc.
      destruct (alo + i + k <? ahi) eqn:Hi; [destruct (blo + j + k <? bhi) eqn:Hj|];
        cbn [andb].
      - apply (IH d f); lia.
      - apply Nat.ltb_ge in Hj.
        unfold slice at 2. replace (bhi - (blo + j + k)) with 0 by lia. cbn [take].
        by rewrite matched_nil_r.
      - apply Nat.ltb_ge in Hi.
        unfold slice at 1. replace (ahi - (alo + i + k)) with 0 by lia. cbn [take].
        by rewrite matched_nil_l. }
    rewrite Hleft, Hright. lia.
Qed.

(** For a second sequence of fewer than 200 elements the library's ratio
    is the spec's matching-block ratio. *)
Lemma ratio_matching_block_ratio (a b : list A) :
  length b < 200 -> ratio a b = Spec.matching_block_ratio a b.
Proof.
  intros Hshort.
  assert (Hpop : forall x, popular b x = false).
  { intros x. unfold popular.
    replace (200 <=? length b) with false; [done|]. symmetry. apply Nat.leb_gt. lia. }
  unfold ratio, Spec.matching_block_ratio, get_matching_blocks. cbv zeta.
  rewrite sum_list_with_app, collapse_sum, sum_sizes_cons, sum_sizes_nil.
  change (size_of (0, 0, 0)) with 0. cbn [snd].
  rewrite (blocks_matched a b Hpop (length a) (S (length a)) (length a)
             0 (length a) 0 (length b)) by lia.
  rewrite !slice_all. unfold calculate_ratio.
  replace (0 + Spec.matched (length a) a b + (0 + 0)) with (Spec.matched (length a) a b) by lia.
  done.
Qed.

(** The fuel of the spec's recursion is enough: more of it changes
    nothing. *)
Lemma matched_enough (u v : list A) fuel :
  length u <= fuel -> Spec.matched fuel u v = Spec.matched (length u) u v.
Proof.
  remember (length u) as n eqn:Hn. revert u v fuel Hn.
  induction n as [n IH] using lt_wf_ind. intros u v fuel Hn Hfuel.
  destruct fuel as [|f].
  - assert (Hz : n = 0) by lia. subst n. by rewrite Hz.
  - destruct n as [|n].
    + destruct u; [|done]. by rewrite !matched_nil_l.
    + cbn [Spec.matched].
      pose proof (longest_common_run_first u v) as (Hr & _ & _).
      destruct (Spec.longest_common_run u v) as [[i j] k]. cbn [fst snd] in Hr.
      destruct Hr as (_ & _ & Hi & _ & _).
      destruct (k =? 0) eqn:Hk; [done|]. apply Nat.eqb_neq in Hk.
      assert (H1 : length (take i u) <= n) by (rewrite length_take; lia).
      assert (H2 : length (drop (i + k) u) <= n) by (rewrite length_drop; lia).
      rewrite (IH (length (take i u)) ltac:(lia) (take i u) (take j v) f eq_refl ltac:(lia)).
      rewrite (IH (length (drop (i + k) u)) ltac:(lia) (drop (i + k) u) (drop (j + k) v) f
                 eq_refl ltac:(lia)).
      rewrite (IH (length (take i u)) ltac:(lia) (take i u) (take j v) n eq_refl ltac:(lia)).
      rewrite (IH (length (drop (i + k) u)) ltac:(lia) (drop (i + k) u) (drop (j + k) v) n
                 eq_refl ltac:(lia)).
      done.
Qed.

End Refine.
End MatchingBlockFacts.

(** ** The normalizers *)

Module NormalizerFacts.
Import Py Normalizer.

Local Open Scope N_scope.

Lemma replace_app old new t1 t2 :
  replace old new (t1 ++ t2) = replace old new t1 ++ replace old new t2.
Proof. unfold replace. apply flat_map_app. Qed.

Lemma replace_absent old new t :
  forallb (fun c => negb (c =? old)) t = true -> replace old new t = t.
Proof.
  induction t as [|c t IH]; simpl; [done|].
  intros [Hc Ht]%andb_prop. rewrite (negb_true_iff _) in Hc.
  rewrite Hc. simpl. by rewrite IH.
Qed.

Lemma foldl_step_app table t1 t2 :
  foldl step (t1 ++ t2) table = foldl step t1 table ++ foldl step t2 table.
Proof.
  revert t1 t2. induction table as [|[k d] table IH]; intros t1 t2; simpl; [done|].
  by rewrite replace_app, IH.
Qed.

Lemma foldl_step_absent table t :
  forallb (fun c => negb (is_key table c)) t = true -> foldl step t table = t.
Proof.
  revert t. induction table as [|[k d] table IH]; intros t Ht; simpl; [done|].
  rewrite replace_absent.
  - apply IH. eapply forallb_forall. intros c Hc.
    eapply forallb_forall in Ht; [|exact Hc].
    simpl in Ht. apply negb_true_iff, orb_false_iff in Ht as [_ Ht].
    by rewrite Ht.
  - eapply forallb_forall. intros c Hc.
    eapply forallb_forall in Ht; [|exact Hc].
    simpl in Ht. apply negb_true_iff, orb_false_iff in Ht as [Ht _].
    by rewrite Ht.
Qed.

Lemma foldl_step_char table c :
  settled table = true ->
  foldl step [c] table = default [c] (Spec.numeral table c).
Proof.
  induction table as [|[k d] table IH]; simpl; [done|].
  intros [Hd Hs]%andb_prop.
  destruct (c =? k) eqn:Hck; simpl.
  - rewrite app_nil_r. by apply foldl_step_absent.
  - by apply IH.
Qed.

Lemma foldl_step_numerals table t :
  settled table = true ->
  foldl step t table = List.flat_map (fun c => default [c] (Spec.numeral table c)) t.
Proof.
  intros Hs. induction t as [|c t IH]; simpl.
  - clear Hs. induction table as [|[k d] table IHt]; simpl; done.
  - change (c :: t) with ([c] ++ t).
    by rewrite foldl_step_app, IH, foldl_step_char.
Qed.

Lemma replace_single old new t :
  replace old [new] t = List.map (fun c => if c =? old then new else c) t.
Proof.
  induction t as [|c t IH]; simpl; [done|].
  rewrite <- IH. unfold replace at 2. by destruct (c =? old).
Qed.

(** The loop over [number_map] and the two parenthesis replacements of
    [preprocess] do what the three steps say. *)
Lemma light_preprocess_steps t : LightSim.preprocess t = Spec.normalize t.
Proof.
  unfold LightSim.preprocess, Spec.normalize, Spec.map_numerals,
    Spec.remove_whitespace, re_sub_spaces.
  change (fun (t0 : text) '(cn_num, arab_num) => replace cn_num arab_num t0)
    with step.
  rewrite foldl_step_numerals by (vm_compute; reflexivity).
  change (str "(") with [LightSim.ord "("].
  change (str ")") with [LightSim.ord ")"].
  rewrite !replace_single, List.map_map.
  apply List.map_ext. intros c. unfold Spec.halfwidth.
  destruct (c =? LightSim.ord "（") eqn:H1; [reflexivity|].
  reflexivity.
Qed.

Lemma map_flat_map_filter {X Y Z : Type} (f : Y -> Z) (h : X -> list Y)
    (p : X -> bool) (l : list X) :
  List.map f (List.flat_map h (List.filter p l))
  = List.flat_map (fun x => if p x then List.map f (h x) else []) l.
Proof.
  induction l as [|x l IH]; simpl; [done|].
  destruct (p x); simpl; [|done]. by rewrite List.map_app, IH.
Qed.

Lemma normalize_flat_map t : Spec.normalize t = List.flat_map normalize_char t.
Proof.
  unfold Spec.normalize, Spec.map_numerals, Spec.remove_whitespace.
  rewrite map_flat_map_filter. apply List.flat_map_ext. intros c.
  unfold normalize_char. by destruct (isspace c).
Qed.

Lemma numeral_is_key table c :
  is_key table c = bool_decide (is_Some (Spec.numeral table c)).
Proof.
  induction table as [|[k d] table IH]; simpl; [done|].
  destruct (c =? k); [|exact IH].
  symmetry. apply bool_decide_eq_true_2. by eexists.
Qed.

Lemma numeral_In table c d :
  Spec.numeral table c = Some d -> In d (List.map snd table).
Proof.
  induction table as [|[k d'] table IH]; simpl; [done|].
  destruct (c =? k); [intros [= ->]; by left|intros Hd; right; by apply IH].
Qed.

Lemma normalize_char_plain c : plain c = true -> normalize_char c = [c].
Proof.
  unfold plain, normalize_char.
  intros [[[Hs Hk]%andb_prop H1]%andb_prop H2]%andb_prop.
  apply negb_true_iff in Hs, Hk, H1, H2. rewrite Hs.
  rewrite numeral_is_key in Hk. apply bool_decide_eq_false in Hk.
  destruct (Spec.numeral LightSim.number_map c) as [d|] eqn:Hd;
    [exfalso; apply Hk; by eexists|].
  simpl. unfold Spec.halfwidth. by rewrite H1, H2.
Qed.

Lemma normalize_char_outputs c : forallb plain (normalize_char c) = true.
Proof.
  unfold normalize_char.
  destruct (isspace c) eqn:Hs; [done|].
  destruct (Spec.numeral LightSim.number_map c) as [d|] eqn:Hd; simpl.
  - apply numeral_In in Hd.
    assert (Hall : forallb (fun d => forallb plain (List.map Spec.halfwidth d))
                     (List.map snd LightSim.number_map) = true)
      by (vm_compute; reflexivity).
    eapply forallb_forall in Hall; [exact Hall|exact Hd].
  - rewrite andb_true_r. unfold Spec.halfwidth.
    destruct (c =? LightSim.ord "（") eqn:H1; [vm_compute; reflexivity|].
    destruct (c =? LightSim.ord "）") eqn:H2; [vm_compute; reflexivity|].
    unfold plain. rewrite Hs, H1, H2, numeral_is_key, Hd. reflexivity.
Qed.

Lemma flat_map_plain t :
  forallb plain t = true -> List.flat_map normalize_char t = t.
Proof.
  induction t as [|c t IH]; simpl; [done|].
  intros [Hc Ht]%andb_prop. by rewrite normalize_char_plain, IH.
Qed.

Lemma normalize_plain t : forallb plain (Spec.normalize t) = true.
Proof.
  rewrite normalize_flat_map.
  induction t as [|c t IH]; simpl; [done|].
  rewrite forallb_app, IH, normalize_char_outputs. done.
Qed.

(** [str.strip] and the character-wise filter of the pipeline comparator
    remove whitespace only. *)
Lemma filter_lstrip t :
  List.filter (fun c => negb (isspace c)) (lstrip t)
  = List.filter (fun c => negb (isspace c)) t.
Proof.
  induction t as [|c t IH]; simpl; [done|].
  destruct (isspace c) eqn:Hc; simpl; [done|]. by rewrite Hc.
Qed.

Lemma filter_rev_nospace t :
  List.filter (fun c => negb (isspace c)) (rev t)
  = rev (List.filter (fun c => negb (isspace c)) t).
Proof.
  induction t as [|c t IH]; simpl; [done|].
  rewrite List.filter_app, IH. simpl.
  destruct (negb (isspace c)); simpl; [done|]. by rewrite app_nil_r.
Qed.

Lemma filter_strip t :
  List.filter (fun c => negb (isspace c)) (strip t)
  = List.filter (fun c => negb (isspace c)) t.
Proof.
  unfold strip, rstrip.
  rewrite filter_rev_nospace, filter_lstrip, filter_rev_nospace, rev_involutive.
  apply filter_lstrip.
Qed.

Lemma strip_char c : strip [c] = if isspace c then [] else [c].
Proof.
  unfold strip, rstrip. simpl. destruct (isspace c) eqn:Hc; simpl; [done|].
  by rewrite Hc.
Qed.

Lemma pipeline_preprocess_filter t :
  PipelineSim.preprocess t = List.filter (fun c => negb (isspace c)) t.
Proof.
  unfold PipelineSim.preprocess, re_sub_spaces.
  rewrite <- (filter_strip t).
  induction (strip t) as [|c u IH]; simpl; [done|].
  rewrite strip_char.
  destruct (isspace c) eqn:Hc; simpl; [exact IH|].
  rewrite strip_char, Hc. simpl. rewrite Hc. simpl. by rewrite IH.
Qed.

End NormalizerFacts.

(** ** The word-bag signal *)

Module WordBagFacts.
Import Py LightSim WordBag.

Local Open Scope nat_scope.

Lemma count_tally (m : gmap text nat) (w w' : text) :
  count (tally m w) w' = count m w' + (if bool_decide (w = w') then 1 else 0).
Proof.
  unfold count, tally. rewrite lookup_insert.
  destruct (decide (w = w')) as [->|Hne].
  - rewrite bool_decide_eq_true_2 by done. simpl. lia.
  - rewrite bool_decide_eq_false_2 by done. lia.
Qed.

Lemma count_foldl (ws : list text) (m : gmap text nat) (w : text) :
  count (foldl tally m ws) w = count m w + Spec.occurrences w ws.
Proof.
  revert m. induction ws as [|x ws IH]; intros m; simpl.
  - unfold Spec.occurrences. simpl. lia.
  - rewrite IH, count_tally. unfold Spec.occurrences. simpl.
    destruct (bool_decide (x = w)); simpl; lia.
Qed.

Lemma dom_foldl (ws : list text) (m : gmap text nat) :
  dom (foldl tally m ws) = dom m ∪ list_to_set ws.
Proof.
  revert m. induction ws as [|x ws IH]; intros m; simpl.
  - by rewrite (right_id_L ∅ (∪)).
  - rewrite IH. unfold tally. rewrite dom_insert_L.
    by rewrite (comm_L (∪) {[x]} (dom m)), (assoc_L (∪)).
Qed.

Lemma total_tally (m : gmap text nat) (w : text) : total (tally m w) = S (total m).
Proof.
  unfold total, tally.
  assert (Hcomm : forall (m' : gmap text nat) (j1 j2 : text) (z1 z2 y : nat),
             j1 <> j2 -> m' !! j1 = Some z1 -> m' !! j2 = Some z2 ->
             z1 + (z2 + y) = z2 + (z1 + y)) by (intros; lia).
  destruct (m !! w) as [n|] eqn:Hw; simpl.
  - rewrite <- insert_delete_eq.
    rewrite map_fold_insert_L; [|by eauto|by rewrite lookup_delete_eq].
    rewrite (map_fold_delete_L _ _ w n m); [lia|by eauto|done].
  - rewrite map_fold_insert_L; [lia|by eauto|done].
Qed.

Lemma total_foldl (ws : list text) (m : gmap text nat) : total (foldl tally m ws) = total m + length ws.
Proof.
  revert m. induction ws as [|x ws IH]; intros m; simpl; [lia|].
  rewrite IH, total_tally. lia.
Qed.

Lemma count_Counter (ws : list text) (w : text) : count (Counter ws) w = Spec.occurrences w ws.
Proof.
  unfold Counter. change (fun m w0 => <[w0:=S (default 0 (m !! w0))]> m) with tally.
  rewrite count_foldl. unfold count. by rewrite lookup_empty.
Qed.

Lemma dom_Counter (ws : list text) : dom (Counter ws) = list_to_set ws.
Proof.
  unfold Counter. change (fun m w0 => <[w0:=S (default 0 (m !! w0))]> m) with tally.
  by rewrite dom_foldl, dom_empty_L, (left_id_L ∅ (∪)).
Qed.

Lemma total_Counter (ws : list text) : total (Counter ws) = length ws.
Proof.
  unfold Counter. change (fun m w0 => <[w0:=S (default 0 (m !! w0))]> m) with tally.
  rewrite total_foldl. unfold total. by rewrite map_fold_empty.
Qed.

Lemma sum_list_with_ext {X : Type} (g h : X -> nat) (l : list X) :
  (forall x, g x = h x) -> sum_list_with g l = sum_list_with h l.
Proof. intros Hgh. induction l as [|x l IH]; simpl; [done|]. by rewrite Hgh, IH. Qed.

Lemma sum_list_with_le {X : Type} (g h : X -> nat) (l : list X) :
  (forall x, g x <= h x) -> sum_list_with g l <= sum_list_with h l.
Proof.
  intros Hgh. induction l as [|x l IH]; simpl; [done|].
  specialize (Hgh x). lia.
Qed.

Lemma elem_of_common (w : text) (words1 words2 : list text) :
  w ∈ Spec.common words1 words2 <-> w ∈ words1 /\ w ∈ words2.
Proof.
  unfold Spec.common. rewrite list_elem_of_In, List.filter_In.
  rewrite <- list_elem_of_In, elem_of_remove_dups, bool_decide_eq_true. done.
Qed.

Lemma NoDup_common (words1 words2 : list text) : NoDup (Spec.common words1 words2).
Proof.
  unfold Spec.common.
  apply NoDup_ListNoDup, List.NoDup_filter, NoDup_ListNoDup, NoDup_remove_dups.
Qed.

(** The keys shared by the two counters are the tokens common to the two
    sequences. *)
Lemma elements_common (words1 words2 : list text) :
  elements (dom (Counter words1) ∩ dom (Counter words2) : gset text)
  ≡ₚ Spec.common words1 words2.
Proof.
  apply NoDup_Permutation; [apply NoDup_elements|apply NoDup_common|].
  intros w. rewrite elem_of_elements, elem_of_intersection, !dom_Counter,
    !elem_of_list_to_set, elem_of_common. done.
Qed.

Lemma occurrences_le_filter (w w' : text) (ws : list text) :
  w' <> w ->
  Spec.occurrences w' (List.filter (fun x => negb (bool_decide (x = w))) ws)
  = Spec.occurrences w' ws.
Proof.
  intros Hne. unfold Spec.occurrences.
  induction ws as [|x ws IH]; simpl; [done|].
  destruct (decide (x = w)) as [->|Hx].
  - rewrite bool_decide_eq_true_2 by done. simpl.
    rewrite (bool_decide_eq_false_2 (w = w')) by done. exact IH.
  - rewrite (bool_decide_eq_false_2 (x = w)) by done. simpl.
    destruct (bool_decide (x = w')); simpl; by rewrite IH.
Qed.

Lemma occurrences_split (w : text) (ws : list text) :
  Spec.occurrences w ws
  + length (List.filter (fun x => negb (bool_decide (x = w))) ws) = length ws.
Proof.
  unfold Spec.occurrences. induction ws as [|x ws IH]; simpl; [done|].
  destruct (bool_decide (x = w)); simpl; lia.
Qed.

(** Distinct tokens cannot occur more often, together, than the sequence
    is long. *)
Lemma sum_occurrences_le (l ws : list text) :
  NoDup l -> sum_list_with (fun w => Spec.occurrences w ws) l <= length ws.
Proof.
  intros Hl. revert ws. induction Hl as [|w l Hw Hl IH]; intros ws; simpl; [lia|].
  pose proof (occurrences_split w ws) as Hsplit.
  specialize (IH (List.filter (fun x => negb (bool_decide (x = w))) ws)).
  assert (Heq : sum_list_with (fun w0 => Spec.occurrences w0 ws) l
                = sum_list_with
                    (fun w0 => Spec.occurrences w0
                       (List.filter (fun x => negb (bool_decide (x = w))) ws)) l).
  { clear IH Hsplit Hl. induction l as [|v l IHl]; simpl; [done|].
    rewrite occurrences_le_filter.
    - rewrite IHl; [done|]. intros Hin. apply Hw. by right.
    - intros ->. apply Hw. by left. }
  lia.
Qed.

Lemma word_bag_fraction (words1 words2 : list text) :
  sum_list_with (fun w => Nat.min (Spec.occurrences w words1) (Spec.occurrences w words2))
    (Spec.common words1 words2)
  <= Nat.max (length words1) (length words2).
Proof.
  etrans; [apply (sum_list_with_le _ (fun w => Spec.occurrences w words1)); intros; lia|].
  etrans; [apply sum_occurrences_le, NoDup_common|]. lia.
Qed.

Section Signal.
Variable cut : text -> list text.

(** The counter-based computation returns the specified fraction; it
    never divides by zero. *)
Lemma get_words_similarity_word_bag text1 text2 :
  get_words_similarity cut text1 text2 = Ok (Spec.word_bag (kept cut text1) (kept cut text2)).
Proof.
  unfold get_words_similarity, Spec.word_bag. fold (kept cut text1) (kept cut text2).
  pose proof (elements_common (kept cut text1) (kept cut text2)) as Hperm.
  destruct (decide (dom (Counter (kept cut text1)) ∩ dom (Counter (kept cut text2))
                    = (∅ : gset text))) as [He|Hne].
  - rewrite He, elements_empty in Hperm.
    apply Permutation_nil_l in Hperm. by rewrite <- Hperm.
  - destruct (Spec.common (kept cut text1) (kept cut text2)) as [|w l] eqn:Hc.
    + exfalso. apply Hne. apply Permutation_nil_r in Hperm.
      apply leibniz_equiv. by apply elements_empty_inv.
    + rewrite (sum_list_with_ext _
                 (fun w => Nat.min (Spec.occurrences w (kept cut text1))
                             (Spec.occurrences w (kept cut text2))))
        by (intros; by rewrite !count_Counter).
      rewrite Hperm, !total_Counter.
      assert (Hin : w ∈ kept cut text1).
      { apply (elem_of_common w (kept cut text1) (kept cut text2)). rewrite Hc. by left. }
      destruct (kept cut text1) as [|x ws1] eqn:Hk1; [by apply elem_of_nil in Hin|].
      simpl length. unfold truediv.
      destruct (Nat.max (S (length ws1)) (length (kept cut text2))) eqn:Hm; [lia|].
      done.
Qed.

Lemma get_words_similarity_comm text1 text2 :
  get_words_similarity cut text1 text2 = get_words_similarity cut text2 text1.
Proof.
  unfold get_words_similarity. fold (kept cut text1) (kept cut text2).
  rewrite (comm_L (∩) (dom (Counter (kept cut text2)))).
  rewrite (Nat.max_comm (total (Counter (kept cut text2)))).
  destruct (decide _); [done|].
  f_equal. apply sum_list_with_ext. intros w. apply Nat.min_comm.
Qed.

End Signal.

Lemma word_bag_range (words1 words2 : list text) : (0 <= Spec.word_bag words1 words2 <= 1)%Q.
Proof.
  unfold Spec.word_bag.
  destruct (Spec.common words1 words2) as [|w l] eqn:Hc; [split; discriminate|].
  assert (Hin : w ∈ words1).
  { apply (elem_of_common w words1 words2). rewrite Hc. by left. }
  rewrite <- Hc. pose proof (word_bag_fraction words1 words2) as Hle.
  set (n := sum_list_with _ _) in *.
  set (d := Nat.max _ _) in *.
  assert (Hd : 0 < d).
  { subst d. destruct words1; [by apply elem_of_nil in Hin|]. simpl. lia. }
  clearbody n d.
  assert (Hpos : (0 < inject_Z (Z.of_nat d))%Q) by (rewrite <- (Zlt_Qlt 0); lia).
  split.
  - apply Qle_shift_div_l; [done|]. rewrite Qmult_0_l, <- (Zle_Qle 0). lia.
  - apply Qle_shift_div_r; [done|]. rewrite Qmult_1_l, <- Zle_Qle. lia.
Qed.

End WordBagFacts.

(** ** The exact-match gate *)

Module GateFacts.
Import Py Normalizer NormalizerFacts.

Lemma filter_flat_map {X Y : Type} (p : Y -> bool) (g : X -> list Y) (l : list X) :
  List.filter p (List.flat_map g l) = List.flat_map (fun x => List.filter p (g x)) l.
Proof.
  induction l as [|x l IH]; simpl; [done|]. by rewrite List.filter_app, IH.
Qed.

Lemma flat_map_filter_nil {X Y : Type} (q : X -> bool) (h : X -> list Y) (l : list X) :
  (forall x, q x = false -> h x = []) ->
  List.flat_map h (List.filter q l) = List.flat_map h l.
Proof.
  intros Hq. induction l as [|x l IH]; simpl; [done|].
  destruct (q x) eqn:Hx; simpl; [by rewrite IH|].
  by rewrite (Hq x Hx), IH.
Qed.

Lemma residue_core c : contains Spec.core_punctuation c = true -> residue c = [].
Proof.
  unfold contains. intros (x & Hx & Hcx)%existsb_exists.
  apply N.eqb_eq in Hcx. subst x.
  assert (Hall : forallb (fun c => bool_decide (residue c = []))
                   Spec.core_punctuation = true) by (vm_compute; reflexivity).
  eapply forallb_forall in Hall; [|exact Hx].
  by apply bool_decide_eq_true in Hall.
Qed.

Lemma stripped_preprocess t :
  LightSim.remove_punctuation (LightSim.preprocess t)
  = List.flat_map residue (Spec.strip_core t).
Proof.
  rewrite light_preprocess_steps, normalize_flat_map.
  unfold LightSim.remove_punctuation at 1. rewrite filter_flat_map.
  unfold Spec.strip_core. rewrite flat_map_filter_nil; [done|].
  intros c Hc. apply residue_core. by apply negb_false_iff.
Qed.

Section Light.
Variable cut : text -> list text.
Variable lazy_pinyin : text -> list text.

Lemma light_exact a b threshold :
  LightSim.preprocess a = LightSim.preprocess b ->
  LightSim.is_consistent cut lazy_pinyin a b threshold
  = ([], Ok (true, 1%Q, LightSim.Exact)).
Proof. intros Heq. unfold LightSim.is_consistent. by rewrite decide_True. Qed.

Lemma light_punctuation_only a b threshold :
  LightSim.preprocess a <> LightSim.preprocess b ->
  LightSim.remove_punctuation (LightSim.preprocess a)
  = LightSim.remove_punctuation (LightSim.preprocess b) ->
  LightSim.is_consistent cut lazy_pinyin a b threshold
  = ([], Ok (true, 0.99%Q, LightSim.PunctuationOnly)).
Proof.
  intros Hne Heq. unfold LightSim.is_consistent.
  rewrite decide_False by done. by rewrite decide_True.
Qed.

(** Past the gate the three signals are evaluated, in this order, and
    fused. *)
Lemma light_weighted a b threshold :
  LightSim.preprocess a <> LightSim.preprocess b ->
  LightSim.remove_punctuation (LightSim.preprocess a)
  <> LightSim.remove_punctuation (LightSim.preprocess b) ->
  let sa := LightSim.remove_punctuation (LightSim.preprocess a) in
  let sb := LightSim.remove_punctuation (LightSim.preprocess b) in
  let w := Spec.word_bag (WordBag.kept cut sa) (WordBag.kept cut sb) in
  let c := LightSim.get_char_similarity sa sb in
  let p := LightSim.get_pinyin_similarity lazy_pinyin sa sb in
  let fused := (w * 0.5 + c * 0.3 + p * 0.2)%Q in
  LightSim.is_consistent cut lazy_pinyin a b threshold
  = ([WordBag; CharSequence; Phonetic],
     Ok (Qle_bool threshold fused, fused, LightSim.Details w c p)).
Proof.
  intros Hne Hne' sa sb w c p fused. unfold LightSim.is_consistent.
  rewrite decide_False by done. rewrite decide_False by done.
  fold sa sb. rewrite WordBagFacts.get_words_similarity_word_bag.
  fold w c p. cbn. fold fused. by destruct (Qle_bool threshold fused).
Qed.
End Light.

Section Pipeline.
Variable encode : list text -> list (list Q).
Variable norm : list Q -> Q.
Variable lazy_pinyin : text -> list text.

Lemma pipeline_exact a b threshold :
  PipelineSim.preprocess a = PipelineSim.preprocess b ->
  PipelineSim.is_consistent encode norm lazy_pinyin a b threshold
  = ([], Ok (true, Some 1%Q, PipelineSim.Exact)).
Proof. intros Heq. unfold PipelineSim.is_consistent. by rewrite decide_True. Qed.

Lemma pipeline_punctuation_only a b threshold :
  PipelineSim.preprocess a <> PipelineSim.preprocess b ->
  PipelineSim.remove_punctuation (PipelineSim.preprocess a)
  = PipelineSim.remove_punctuation (PipelineSim.preprocess b) ->
  PipelineSim.is_consistent encode norm lazy_pinyin a b threshold
  = ([], Ok (true, Some 0.99%Q, PipelineSim.PunctuationOnly)).
Proof.
  intros Hne Heq. unfold PipelineSim.is_consistent.
  rewrite decide_False by done. by rewrite decide_True.
Qed.

Lemma pipeline_weighted a b threshold :
  PipelineSim.preprocess a <> PipelineSim.preprocess b ->
  PipelineSim.remove_punctuation (PipelineSim.preprocess a)
  <> PipelineSim.remove_punctuation (PipelineSim.preprocess b) ->
  let ca := PipelineSim.preprocess a in
  let cb := PipelineSim.preprocess b in
  let sa := PipelineSim.remove_punctuation ca in
  let sb := PipelineSim.remove_punctuation cb in
  let c := PipelineSim.get_char_similarity sa sb in
  let p := PipelineSim.get_pinyin_similarity lazy_pinyin sa sb in
  PipelineSim.is_consistent encode norm lazy_pinyin a b threshold
  = match PipelineSim.get_semantic_similarity encode norm ca cb with
    | Ok sem =>
        let fused := (fun s => s * 0.5 + c * 0.3 + p * 0.2)%Q <$> sem in
        ([Semantic; CharSequence; Phonetic],
         Ok (PipelineSim.np_ge fused threshold, fused,
             if PipelineSim.np_ge fused threshold
             then PipelineSim.Composite fused
             else PipelineSim.Insufficient fused))
    | Raise e => ([Semantic], Raise e)
    end.
Proof.
  intros Hne Hne' ca cb sa sb c p. unfold PipelineSim.is_consistent.
  rewrite decide_False by done. rewrite decide_False by done.
  fold ca cb sa sb c p.
  destruct (PipelineSim.get_semantic_similarity encode norm ca cb) as [sem|e];
    cbn; [|done].
  by destruct (PipelineSim.np_ge _ threshold).
Qed.
End Pipeline.

End GateFacts.

(** ** The set-overlap quotient *)

Module JaccardFacts.
Import Py SimpleSim.

(** With exactly one empty token set the quotient is 0 over a positive
    number; with two empty sets it is 0 over 0. *)
Lemma jaccard_one_empty (tokens : gset text) :
  tokens <> ∅ ->
  exists q, jaccard ∅ tokens = Ok q /\ (q == 0)%Q.
Proof.
  intros Hne. unfold jaccard.
  rewrite (left_absorb_L ∅ (∩)), (left_id_L ∅ (∪)), size_empty.
  destruct (size tokens) as [|n] eqn:Hn.
  - exfalso. apply Hne. apply leibniz_equiv. by apply size_empty_inv.
  - eexists. split; [reflexivity|]. reflexivity.
Qed.

Lemma jaccard_both_empty : jaccard ∅ ∅ = Raise ZeroDivisionError.
Proof. reflexivity. Qed.

End JaccardFacts.

(** ** The cosine of two embeddings *)

Module SemanticFacts.
Import Py PipelineSim.

Lemma square_nonneg (z : Q) : (0 <= z * z)%Q.
Proof.
  destruct (Qlt_le_dec z 0) as [Hz|Hz].
  - assert (Hneg : (0 <= (- z) * (- z))%Q) by (apply Qmult_le_0_compat; lra).
    lra.
  - by apply Qmult_le_0_compat.
Qed.

Lemma dot_self_nonneg (u : list Q) : (0 <= dot u u)%Q.
Proof.
  induction u as [|x u IH]; simpl; [discriminate|].
  pose proof (square_nonneg x). lra.
Qed.

(** Cauchy-Schwarz, by induction on the two vectors. *)
Lemma dot_square_le (u v : list Q) : (dot u v * dot u v <= dot u u * dot v v)%Q.
Proof.
  revert v. induction u as [|x u IH]; intros v.
  - simpl. pose proof (dot_self_nonneg v). lra.
  - destruct v as [|y v].
    + simpl. pose proof (dot_self_nonneg (x :: u)) as Hu. simpl in Hu. lra.
    + simpl. specialize (IH v).
      pose proof (dot_self_nonneg u) as Ha. pose proof (dot_self_nonneg v) as Hc.
      set (d := dot u v) in *. set (a := dot u u) in *. set (c := dot v v) in *.
      clearbody d a c.
      pose proof (square_nonneg (2 * x * y)) as Hxy.
      assert (H4 : (0 <= (2 * x * y) * (2 * x * y) * (a * c - d * d))%Q)
        by (apply Qmult_le_0_compat; lra).
      pose proof (square_nonneg (x * x * c - y * y * a)) as H5.
      pose proof (square_nonneg x) as Hx. pose proof (square_nonneg y) as Hy.
      assert (H6 : (0 <= x * x * c)%Q) by (by apply Qmult_le_0_compat).
      assert (H7 : (0 <= y * y * a)%Q) by (by apply Qmult_le_0_compat).
      assert (H2 : (2 * (x * y * d) <= x * x * c + y * y * a)%Q).
      { destruct (Qlt_le_dec (x * x * c + y * y * a) (2 * (x * y * d))) as [Hlt|Hle];
          [|exact Hle].
        exfalso.
        assert (Hprod : (0 < (2 * (x * y * d) - (x * x * c + y * y * a))
                            * (2 * (x * y * d) + (x * x * c + y * y * a)))%Q)
          by (apply Qmult_lt_0_compat; lra).
        lra. }
      lra.
Qed.

Lemma quotient_range (d n : Q) :
  (0 < n)%Q -> (d * d <= n * n)%Q -> (-1 <= d / n <= 1)%Q.
Proof.
  intros Hn Hd.
  assert (Hle : (d <= n)%Q).
  { destruct (Qlt_le_dec n d) as [Hlt|Hle]; [|exact Hle]. exfalso.
    assert (0 < (d - n) * (d + n))%Q by (apply Qmult_lt_0_compat; lra). lra. }
  assert (Hge : (- n <= d)%Q).
  { destruct (Qlt_le_dec d (- n)) as [Hlt|Hle']; [|exact Hle']. exfalso.
    assert (0 < (- n - d) * (n - d))%Q by (apply Qmult_lt_0_compat; lra). lra. }
  split.
  - apply Qle_shift_div_l; [done|]. lra.
  - apply Qle_shift_div_r; [done|]. lra.
Qed.

Section Cosine.
Variable encode : list text -> list (list Q).
Variable norm : list Q -> Q.

(** For two non-zero embeddings whose norms are their Euclidean lengths,
    the semantic signal is a number between -1 and 1. *)
Lemma semantic_similarity_range (text1 text2 : text) (e0 e1 : list Q) :
  encode [text1; text2] = [e0; e1] ->
  (0 < norm e0)%Q -> (0 < norm e1)%Q ->
  (norm e0 * norm e0 == dot e0 e0)%Q -> (norm e1 * norm e1 == dot e1 e1)%Q ->
  exists sem,
    get_semantic_similarity encode norm text1 text2 = Ok (Some sem)
    /\ (-1 <= sem <= 1)%Q.
Proof.
  intros He H0 H1 Hn0 Hn1. unfold get_semantic_similarity. rewrite He. cbn.
  assert (Hpos : (0 < norm e0 * norm e1)%Q) by (by apply Qmult_lt_0_compat).
  unfold np_div.
  destruct (Qeq_bool (norm e0 * norm e1) 0) eqn:Hz.
  { apply Qeq_bool_iff in Hz. lra. }
  eexists. split; [reflexivity|].
  apply quotient_range; [done|].
  pose proof (dot_square_le e0 e1) as Hcs.
  assert (Hsq : (norm e0 * norm e1 * (norm e0 * norm e1) == dot e0 e0 * dot e1 e1)%Q).
  { rewrite <- Hn0, <- Hn1. ring. }
  by rewrite Hsq.
Qed.

End Cosine.
End SemanticFacts.

(** ** The lightweight comparator in binary64 *)

Module FloatFacts.
Import Py.
Section Light.
Variables cut lazy_pinyin : text -> list text.

(** The division of the word-bag scorer never has a zero divisor. *)
Lemma get_words_similarity_returns (text1 text2 : text) :
  exists w, LightSim64.get_words_similarity cut text1 text2 = Ok w.
Proof.
  pose proof (WordBagFacts.get_words_similarity_word_bag cut text1 text2) as Hex.
  unfold LightSim.get_words_similarity in Hex.
  unfold LightSim64.get_words_similarity. cbv zeta in *.
  destruct (decide (_ = ∅)) as [He|Hne]; [by eexists|].
  unfold LightSim64.truediv. unfold truediv in Hex.
  destruct (Nat.max _ _); [discriminate|by eexists].
Qed.

Lemma light64_exact (a b : text) (threshold : spec_float) :
  LightSim.preprocess a = LightSim.preprocess b ->
  LightSim64.is_consistent cut lazy_pinyin a b threshold
  = ([], Ok (true, Binary64.one, LightSim64.Exact)).
Proof. intros He. unfold LightSim64.is_consistent. by rewrite decide_True. Qed.

Lemma light64_punctuation_only (a b : text) (threshold : spec_float) :
  LightSim.preprocess a <> LightSim.preprocess b ->
  LightSim.remove_punctuation (LightSim.preprocess a)
  = LightSim.remove_punctuation (LightSim.preprocess b) ->
  LightSim64.is_consistent cut lazy_pinyin a b threshold
  = ([], Ok (true, Binary64.ninety_nine_hundredths, LightSim64.PunctuationOnly)).
Proof.
  intros Hne Hs. unfold LightSim64.is_consistent.
  rewrite decide_False by done. by rewrite decide_True.
Qed.

Lemma light64_weighted (a b : text) (threshold : spec_float) :
  LightSim.preprocess a <> LightSim.preprocess b ->
  LightSim.remove_punctuation (LightSim.preprocess a)
  <> LightSim.remove_punctuation (LightSim.preprocess b) ->
  let sa := LightSim.remove_punctuation (LightSim.preprocess a) in
  let sb := LightSim.remove_punctuation (LightSim.preprocess b) in
  let c := LightSim64.get_char_similarity sa sb in
  let p := LightSim64.get_pinyin_similarity lazy_pinyin sa sb in
  exists w,
    LightSim64.get_words_similarity cut sa sb = Ok w
    /\ LightSim64.is_consistent cut lazy_pinyin a b threshold
       = ([WordBag; CharSequence; Phonetic],
          Ok (Binary64.ge (Binary64.weighted w c p) threshold,
              Binary64.weighted w c p, LightSim64.Details w c p)).
Proof.
  intros Hne Hne' sa sb c p.
  destruct (get_words_similarity_returns sa sb) as [w Hw].
  exists w. split; [exact Hw|].
  unfold LightSim64.is_consistent.
  rewrite decide_False by done. rewrite decide_False by done.
  fold sa sb. rewrite Hw. fold c p.
  unfold evaluate, Binary64.weighted.
  cbn [mbind traced_bind mret traced_ret app].
  by destruct (Binary64.ge _ threshold).
Qed.

End Light.
End FloatFacts.

(** ** Worked examples *)

Example str_sample : Py.str "三十(a" = [0x4E09; 0x5341; 0x28; 0x61]%N.
Proof. reflexivity. Qed.

Example light_preprocess_sample :
  LightSim.preprocess (Py.str " 三十（日） ") = Py.str "310(日)".
Proof. vm_compute. reflexivity. Qed.

Example pipeline_preprocess_sample :
  PipelineSim.preprocess (Py.str " 三十（日） ") = Py.str "三十（日）".
Proof. vm_compute. reflexivity. Qed.

(** The example of the library's documentation. *)
Example ratio_tide_diet :
  Difflib.ratio (Py.str "tide") (Py.str "diet") = (2 * 1 / 8)%Q
  /\ Difflib.ratio (Py.str "diet") (Py.str "tide") = (2 * 2 / 8)%Q.
Proof. split; vm_compute; reflexivity. Qed.

(** With 200 elements in the second sequence, the element that fills it is
    popular and seeds no match. *)
Example matching_blocks_popular :
  Difflib.get_matching_blocks (1 :: replicate 199 0)%nat (replicate 199 0 ++ [1])%nat
  = [(0, 199, 1); (200, 200, 0)]%nat.
Proof. vm_compute. reflexivity. Qed.

(** Rounding does not push the fused score of three perfect signals above
    1.0, and the three weights are the doubles Python reads. *)
Example binary64_full_marks :
  Binary64.weighted Binary64.one Binary64.one Binary64.one = Binary64.one
  /\ Binary64.three_tenths = S754_finite false 5404319552844595 (-54)
  /\ Binary64.two_tenths = S754_finite false 7205759403792794 (-55)
  /\ Binary64.half = S754_finite false 4503599627370496 (-53).
Proof. repeat split; vm_compute; reflexivity. Qed.

(** * The claims *)

Section Claims.
Import Py.

(** C1.  Both comparators normalize the two clauses and then decide in
    stages: equal normalized texts give (true, 1.0, Exact) and equal
    punctuation-stripped texts give (true, 0.99, PunctuationOnly), in both
    cases without evaluating any signal; otherwise the weighted signals
    are evaluated. *)
Theorem exact_match_gate_stages
    (cut lazy_pinyin : text -> list text)
    (encode : list text -> list (list Q)) (norm : list Q -> Q)
    (a b : text) (threshold : Q) :
  (LightSim.preprocess a = LightSim.preprocess b ->
     LightSim.is_consistent cut lazy_pinyin a b threshold
     = ([], Ok (true, 1%Q, LightSim.Exact)))
  /\ (LightSim.preprocess a <> LightSim.preprocess b ->
      LightSim.remove_punctuation (LightSim.preprocess a)
      = LightSim.remove_punctuation (LightSim.preprocess b) ->
      LightSim.is_consistent cut lazy_pinyin a b threshold
      = ([], Ok (true, 0.99%Q, LightSim.PunctuationOnly)))
  /\ (LightSim.preprocess a <> LightSim.preprocess b ->
      LightSim.remove_punctuation (LightSim.preprocess a)
      <> LightSim.remove_punctuation (LightSim.preprocess b) ->
      exists verdict score w c p,
        LightSim.is_consistent cut lazy_pinyin a b threshold
        = ([WordBag; CharSequence; Phonetic],
           Ok (verdict, score, LightSim.Details w c p)))
  /\ (PipelineSim.preprocess a = PipelineSim.preprocess b ->
      PipelineSim.is_consistent encode norm lazy_pinyin a b threshold
      = ([], Ok (true, Some 1%Q, PipelineSim.Exact)))
  /\ (PipelineSim.preprocess a <> PipelineSim.preprocess b ->
      PipelineSim.remove_punctuation (PipelineSim.preprocess a)
      = PipelineSim.remove_punctuation (PipelineSim.preprocess b) ->
      PipelineSim.is_consistent encode norm lazy_pinyin a b threshold
      = ([], Ok (true, Some 0.99%Q, PipelineSim.PunctuationOnly)))
  /\ (PipelineSim.preprocess a <> PipelineSim.preprocess b ->
      PipelineSim.remove_punctuation (PipelineSim.preprocess a)
      <> PipelineSim.remove_punctuation (PipelineSim.preprocess b) ->
      exists trace outcome,
        PipelineSim.is_consistent encode norm lazy_pinyin a b threshold
        = (Semantic :: trace, outcome)
        /\ forall verdict score reason,
             outcome = Ok (verdict, score, reason) ->
             trace = [CharSequence; Phonetic]
             /\ (reason = PipelineSim.Composite score
                 \/ reason = PipelineSim.Insufficient score)).
Proof.
  repeat split.
  - apply GateFacts.light_exact.
  - apply GateFacts.light_punctuation_only.
  - intros Hne Hne'. do 5 eexists.
    by apply GateFacts.light_weighted.
  - apply GateFacts.pipeline_exact.
  - apply GateFacts.pipeline_punctuation_only.
  - intros Hne Hne'.
    rewrite (GateFacts.pipeline_weighted encode norm lazy_pinyin a b threshold Hne Hne').
    destruct (PipelineSim.get_semantic_similarity _ _ _ _) as [sem|e].
    + do 2 eexists. split; [reflexivity|].
      intros verdict score reason [= <- <- <-]. split; [done|].
      destruct (PipelineSim.np_ge _ threshold); auto.
    + do 2 eexists. split; [reflexivity|]. intros ??? [=].
Qed.

(** C2, as amended.  Past the gate, the lightweight comparator returns
    the double words_sim * 0.5 + char_sim * 0.3 + pinyin_sim * 0.2, computed
    from left to right with the doubles nearest to 0.5, 0.3 and 0.2 and with
    every product and sum rounded to the nearest double; its verdict is true
    exactly when that double is at least the threshold, whose default is the
    double nearest to 0.9. *)
Theorem lightweight_fusion
    (cut lazy_pinyin : text -> list text) (a b : text) (threshold : spec_float) :
  LightSim.preprocess a <> LightSim.preprocess b ->
  LightSim.remove_punctuation (LightSim.preprocess a)
  <> LightSim.remove_punctuation (LightSim.preprocess b) ->
  let sa := LightSim.remove_punctuation (LightSim.preprocess a) in
  let sb := LightSim.remove_punctuation (LightSim.preprocess b) in
  let c := LightSim64.get_char_similarity sa sb in
  let p := LightSim64.get_pinyin_similarity lazy_pinyin sa sb in
  exists w verdict score,
    LightSim64.get_words_similarity cut sa sb = Ok w
    /\ LightSim64.is_consistent cut lazy_pinyin a b threshold
       = ([WordBag; CharSequence; Phonetic],
          Ok (verdict, score, LightSim64.Details w c p))
    /\ score
       = Binary64.add
           (Binary64.add (Binary64.mul w Binary64.half)
              (Binary64.mul c Binary64.three_tenths))
           (Binary64.mul p Binary64.two_tenths)
    /\ (verdict = true <-> Binary64.ge score threshold = true)
    /\ Binary64.half = S754_finite false 4503599627370496 (-53)
    /\ Binary64.three_tenths = S754_finite false 5404319552844595 (-54)
    /\ Binary64.two_tenths = S754_finite false 7205759403792794 (-55)
    /\ LightSim64.default_threshold = S754_finite false 8106479329266893 (-53).
Proof.
  intros Hne Hne' sa sb c p.
  destruct (FloatFacts.light64_weighted cut lazy_pinyin a b threshold Hne Hne')
    as (w & Hw & Hc).
  cbv zeta in Hc. fold sa sb c p in Hc.
  exists w, (Binary64.ge (Binary64.weighted w c p) threshold), (Binary64.weighted w c p).
  split; [exact Hw|]. split; [exact Hc|]. split; [reflexivity|].
  split; [reflexivity|]. repeat split; vm_compute; reflexivity.
Qed.

(** C2 as stated fails by rounding: for the signal values 0.875, 0.875 and
    1.0 the weighted sum is 0.9, which the exact computation accepts at the
    threshold 0.9, but the double that the comparator returns is
    0.8999999999999999, below the default threshold, and the verdict is
    false. *)
Lemma fused_score_is_rounded :
  exists w c p score s exact,
    LightSim64.is_consistent CharFixture.cut_chars Fixture.pinyin
      (str "a马b马c马d马") (str "a马b马c马d吗") LightSim64.default_threshold
    = ([WordBag; CharSequence; Phonetic],
       Ok (false, score, LightSim64.Details w c p))
    /\ Binary64.to_Q w = Some (7 # 8)%Q
    /\ Binary64.to_Q c = Some (7 # 8)%Q
    /\ Binary64.to_Q p = Some 1%Q
    /\ (0.5 * (7 # 8) + 0.3 * (7 # 8) + 0.2 * 1 == 9 # 10)%Q
    /\ Binary64.to_Q score = Some s
    /\ (s < 9 # 10)%Q
    /\ LightSim.is_consistent CharFixture.cut_chars Fixture.pinyin
         (str "a马b马c马d马") (str "a马b马c马d吗") LightSim.default_threshold
       = ([WordBag; CharSequence; Phonetic],
          Ok (true, exact, LightSim.Details (7 # 8) (14 # 16) (16 # 16)))
    /\ (exact == 9 # 10)%Q.
Proof.
  eexists _, _, _, _, _, _.
  split; [vm_compute; reflexivity|]. split; [vm_compute; reflexivity|].
  split; [vm_compute; reflexivity|]. split; [vm_compute; reflexivity|].
  split; [vm_compute; reflexivity|]. split; [vm_compute; reflexivity|].
  split; [vm_compute; reflexivity|]. split; [vm_compute; reflexivity|].
  vm_compute. reflexivity.
Qed.

(** C3, as amended.  The lightweight comparator's normalization is, for
    every input, the three steps in order: whitespace removed, each
    numeral of the table replaced character by character by its digit
    string (so that "三十" gives "310"), full-width parentheses made
    half-width.  The pipeline comparator's normalization removes the
    whitespace.  Both are total. *)
Theorem normalization_steps (t : text) :
  LightSim.preprocess t = Spec.normalize t
  /\ PipelineSim.preprocess t = Spec.remove_whitespace t
  /\ LightSim.preprocess (str "三十") = str "310"
  /\ LightSim.preprocess [] = []
  /\ PipelineSim.preprocess [] = [].
Proof.
  split; [apply NormalizerFacts.light_preprocess_steps|].
  split; [apply NormalizerFacts.pipeline_preprocess_filter|].
  repeat split; vm_compute; reflexivity.
Qed.

(** C3 as stated fails for the pipeline comparator: its normalization
    leaves the numerals and the full-width parentheses in place. *)
Lemma pipeline_normalization_keeps_numerals :
  PipelineSim.preprocess (str "三十") = str "三十"
  /\ PipelineSim.preprocess (str "三十") <> str "310"
  /\ PipelineSim.preprocess (str "（") <> str "(".
Proof. repeat split; vm_compute; congruence. Qed.

(** C4.  The word-bag signal tokenizes both texts, drops the stopwords and
    counts the tokens; it is 0.0 when no token is common to both, and
    otherwise the sum over the common tokens of the smaller of the two
    counts, divided by the larger of the two token totals. *)
Theorem word_bag_signal (cut : text -> list text) (text1 text2 : text) :
  let words1 := List.filter (fun w => bool_decide (w ∉ LightSim.stopwords)) (cut text1) in
  let words2 := List.filter (fun w => bool_decide (w ∉ LightSim.stopwords)) (cut text2) in
  LightSim.get_words_similarity cut text1 text2 = Ok (Spec.word_bag words1 words2)
  /\ (forall w, w ∈ Spec.common words1 words2 <-> w ∈ words1 /\ w ∈ words2)
  /\ NoDup (Spec.common words1 words2)
  /\ (forall w, LightSim.count (LightSim.Counter words1) w = Spec.occurrences w words1)
  /\ LightSim.total (LightSim.Counter words1) = length words1.
Proof.
  intros words1 words2.
  split; [apply WordBagFacts.get_words_similarity_word_bag|].
  split; [intros w; apply WordBagFacts.elem_of_common|].
  split; [apply WordBagFacts.NoDup_common|].
  split; [intros w; apply WordBagFacts.count_Counter|].
  apply WordBagFacts.total_Counter.
Qed.

(** C5.  On two texts in which the segmenter finds no token,
    [calculate_similarities] does not return: whatever the vectorizer
    does, the Jaccard quotient divides by zero. *)
Theorem calculate_similarities_without_tokens
    (cut : text -> list text) (tfidf_cosine : text -> text -> result Q)
    (text1 text2 : text) :
  cut text1 = [] -> cut text2 = [] ->
  SimpleSim.jaccard (list_to_set (cut text1)) (list_to_set (cut text2))
  = Raise ZeroDivisionError
  /\ exists e, SimpleSim.calculate_similarities cut tfidf_cosine text1 text2 = Raise e.
Proof.
  intros H1 H2. unfold SimpleSim.calculate_similarities. rewrite H1, H2.
  split; [reflexivity|].
  destruct (tfidf_cosine _ _) as [q|e]; cbn; eauto.
Qed.

(** C6, as amended.  Swapping the two clauses leaves the word-bag signal
    and the outcome of the two early exits unchanged; the whole comparison
    gives the same score and verdict in both orders whenever the
    character-sequence and the phonetic ratio of the stripped texts do. *)
Theorem comparison_symmetry
    (cut lazy_pinyin : text -> list text) (a b : text) (threshold : Q) :
  let sa := LightSim.remove_punctuation (LightSim.preprocess a) in
  let sb := LightSim.remove_punctuation (LightSim.preprocess b) in
  (forall text1 text2,
     LightSim.get_words_similarity cut text1 text2
     = LightSim.get_words_similarity cut text2 text1)
  /\ (forall early,
        early = (true, 1%Q, LightSim.Exact)
        \/ early = (true, 0.99%Q, LightSim.PunctuationOnly) ->
        LightSim.is_consistent cut lazy_pinyin a b threshold = ([], Ok early)
        <-> LightSim.is_consistent cut lazy_pinyin b a threshold = ([], Ok early))
  /\ ((LightSim.get_char_similarity sa sb == LightSim.get_char_similarity sb sa)%Q ->
      (LightSim.get_pinyin_similarity lazy_pinyin sa sb
       == LightSim.get_pinyin_similarity lazy_pinyin sb sa)%Q ->
      exists trace verdict score score' reason reason',
        LightSim.is_consistent cut lazy_pinyin a b threshold
        = (trace, Ok (verdict, score, reason))
        /\ LightSim.is_consistent cut lazy_pinyin b a threshold
           = (trace, Ok (verdict, score', reason'))
        /\ (score == score')%Q).
Proof.
  intros sa sb.
  split; [apply WordBagFacts.get_words_similarity_comm|].
  destruct (decide (LightSim.preprocess a = LightSim.preprocess b)) as [He|Hne].
  { rewrite (GateFacts.light_exact cut lazy_pinyin a b threshold He).
    rewrite (GateFacts.light_exact cut lazy_pinyin b a threshold (eq_sym He)).
    split; [done|]. intros _ _. by eexists _, _, _, _, _, _. }
  assert (Hne_sym : LightSim.preprocess b <> LightSim.preprocess a) by congruence.
  destruct (decide (sa = sb)) as [Hs|Hns].
  { rewrite (GateFacts.light_punctuation_only cut lazy_pinyin a b threshold Hne Hs).
    rewrite (GateFacts.light_punctuation_only cut lazy_pinyin b a threshold
               Hne_sym (eq_sym Hs)).
    split; [done|]. intros _ _. by eexists _, _, _, _, _, _. }
  assert (Hns_sym : sb <> sa) by congruence.
  rewrite (GateFacts.light_weighted cut lazy_pinyin a b threshold Hne Hns).
  rewrite (GateFacts.light_weighted cut lazy_pinyin b a threshold Hne_sym Hns_sym).
  cbv zeta. fold sa sb.
  split; [intros early [-> | ->]; split; intros [=]|].
  intros Hc Hp.
  assert (Hw : Spec.word_bag (WordBag.kept cut sa) (WordBag.kept cut sb)
               = Spec.word_bag (WordBag.kept cut sb) (WordBag.kept cut sa)).
  { pose proof (WordBagFacts.get_words_similarity_comm cut sa sb) as Hcomm.
    rewrite !WordBagFacts.get_words_similarity_word_bag in Hcomm. congruence. }
  rewrite <- Hw.
  set (w := Spec.word_bag _ _) in *.
  assert (Hfused : (w * 0.5 + LightSim.get_char_similarity sa sb * 0.3
                    + LightSim.get_pinyin_similarity lazy_pinyin sa sb * 0.2
                    == w * 0.5 + LightSim.get_char_similarity sb sa * 0.3
                       + LightSim.get_pinyin_similarity lazy_pinyin sb sa * 0.2)%Q)
    by (rewrite Hc, Hp; reflexivity).
  assert (Hv : Qle_bool threshold
                 (w * 0.5 + LightSim.get_char_similarity sb sa * 0.3
                  + LightSim.get_pinyin_similarity lazy_pinyin sb sa * 0.2)
               = Qle_bool threshold
                   (w * 0.5 + LightSim.get_char_similarity sa sb * 0.3
                    + LightSim.get_pinyin_similarity lazy_pinyin sa sb * 0.2)).
  { destruct (Qle_bool threshold (_ + LightSim.get_pinyin_similarity _ sa sb * _))
      eqn:H1.
    - apply Qle_bool_iff. apply Qle_bool_iff in H1. by rewrite <- Hfused.
    - apply not_true_is_false. intros H2. apply Qle_bool_iff in H2.
      rewrite <- Hfused in H2. apply Qle_bool_iff in H2. congruence. }
  rewrite Hv.
  eexists _, _, _, _, _, _. split; [reflexivity|]. split; [reflexivity|exact Hfused].
Qed.

(** C6 as stated fails: the character-sequence ratio of "tide" and "diet"
    is 0.25 in one order and 0.5 in the other, and so are the fused scores
    0.075 and 0.15 (the segmenter and the phoneticizer return each of the
    two words as one token). *)
Lemma comparison_not_symmetric :
  (LightSim.get_char_similarity (str "tide") (str "diet") == 1 # 4)%Q
  /\ (LightSim.get_char_similarity (str "diet") (str "tide") == 1 # 2)%Q
  /\ exists score score' reason reason',
       LightSim.is_consistent Fixture.cut_whole Fixture.pinyin
         (str "tide") (str "diet") LightSim.default_threshold
       = ([WordBag; CharSequence; Phonetic], Ok (false, score, reason))
       /\ LightSim.is_consistent Fixture.cut_whole Fixture.pinyin
            (str "diet") (str "tide") LightSim.default_threshold
          = ([WordBag; CharSequence; Phonetic], Ok (false, score', reason'))
       /\ (score == 3 # 40)%Q /\ (score' == 3 # 20)%Q /\ ~ (score == score')%Q.
Proof.
  split; [vm_compute; reflexivity|]. split; [vm_compute; reflexivity|].
  eexists _, _, _, _.
  split; [vm_compute; reflexivity|]. split; [vm_compute; reflexivity|].
  repeat split; vm_compute; congruence.
Qed.



(** C8, as amended.  Two clauses whose normalized texts differ and which
    differ only by characters of the punctuation set other than the two
    full-width parentheses compare as (true, 0.99, PunctuationOnly), with no
    signal evaluated. *)
Theorem punctuation_only_verdict
    (cut lazy_pinyin : text -> list text) (x x' : text) (threshold : Q) :
  Spec.strip_core x = Spec.strip_core x' ->
  LightSim.preprocess x <> LightSim.preprocess x' ->
  LightSim.is_consistent cut lazy_pinyin x x' threshold
  = ([], Ok (true, 0.99%Q, LightSim.PunctuationOnly)).
Proof.
  intros Hcore Hne. apply GateFacts.light_punctuation_only; [done|].
  by rewrite !GateFacts.stripped_preprocess, Hcore.
Qed.

(** C8 as stated fails on two kinds of pairs that differ only by
    punctuation characters: a pair that normalization makes equal compares
    as Exact with score 1.0, and a pair that differs by full-width
    parentheses goes on to the weighted signals. *)
Lemma punctuation_invariance_fails :
  (str "。 " <> str " 。"
   /\ LightSim.remove_punctuation (str "。 ") = LightSim.remove_punctuation (str " 。")
   /\ forall cut lazy_pinyin threshold,
        LightSim.is_consistent cut lazy_pinyin (str "。 ") (str " 。") threshold
        = ([], Ok (true, 1%Q, LightSim.Exact)))
  /\ (str "甲（乙）" <> str "甲乙"
      /\ LightSim.remove_punctuation (str "甲（乙）")
         = LightSim.remove_punctuation (str "甲乙")
      /\ forall cut lazy_pinyin threshold,
         exists verdict score w c p,
           LightSim.is_consistent cut lazy_pinyin (str "甲（乙）") (str "甲乙") threshold
           = ([WordBag; CharSequence; Phonetic],
              Ok (verdict, score, LightSim.Details w c p))).
Proof.
  split; (split; [vm_compute; congruence|]); (split; [vm_compute; reflexivity|]).
  - intros cut lazy_pinyin threshold. apply GateFacts.light_exact.
    vm_compute. reflexivity.
  - intros cut lazy_pinyin threshold. do 5 eexists.
    apply GateFacts.light_weighted; vm_compute; congruence.
Qed.




(** C10.  The lightweight normalization is idempotent: its output has no
    whitespace, no character of the numeral table and no full-width
    parenthesis, and a second pass returns it unchanged. *)
Theorem preprocess_idempotent (t : text) :
  LightSim.preprocess (LightSim.preprocess t) = LightSim.preprocess t
  /\ (forall c, In c (LightSim.preprocess t) ->
        isspace c = false
        /\ Spec.numeral LightSim.number_map c = None
        /\ c <> LightSim.ord "（" /\ c <> LightSim.ord "）").
Proof.
  pose proof (NormalizerFacts.normalize_plain t) as Hplain.
  rewrite <- NormalizerFacts.light_preprocess_steps in Hplain.
  split.
  - rewrite (NormalizerFacts.light_preprocess_steps (LightSim.preprocess t)).
    rewrite NormalizerFacts.normalize_flat_map.
    by apply NormalizerFacts.flat_map_plain.
  - intros c Hc. eapply forallb_forall in Hplain; [|exact Hc].
    unfold Normalizer.plain in Hplain.
    apply andb_prop in Hplain as [[[Hs Hk]%andb_prop H1]%andb_prop H2].
    apply negb_true_iff in Hs, Hk, H1, H2.
    rewrite NormalizerFacts.numeral_is_key in Hk. apply bool_decide_eq_false in Hk.
    split; [done|]. split; [|split; by apply N.eqb_neq].
    destruct (Spec.numeral LightSim.number_map c); [|done].
    exfalso. apply Hk. by eexists.
Qed.

(** ** The claims at work on concrete clauses *)

Lemma exact_match_gate_stages_witness :
  LightSim.is_consistent Fixture.cut_whole Fixture.pinyin
    (str "付款。") (str "付 款。") LightSim.default_threshold
  = ([], Ok (true, 1%Q, LightSim.Exact))
  /\ LightSim.is_consistent Fixture.cut_whole Fixture.pinyin
       (str "付款。") (str "付款") LightSim.default_threshold
     = ([], Ok (true, 0.99%Q, LightSim.PunctuationOnly))
  /\ (exists verdict score w c p,
        LightSim.is_consistent Fixture.cut_whole Fixture.pinyin
          (str "付款。") (str "交货。") LightSim.default_threshold
        = ([WordBag; CharSequence; Phonetic],
           Ok (verdict, score, LightSim.Details w c p)))
  /\ PipelineSim.is_consistent Fixture.encode Fixture.norm Fixture.pinyin
       (str "付款。") (str "付 款。") PipelineSim.default_threshold
     = ([], Ok (true, Some 1%Q, PipelineSim.Exact))
  /\ PipelineSim.is_consistent Fixture.encode Fixture.norm Fixture.pinyin
       (str "付款。") (str "付款") PipelineSim.default_threshold
     = ([], Ok (true, Some 0.99%Q, PipelineSim.PunctuationOnly)).
Proof.
  split.
  { destruct (exact_match_gate_stages Fixture.cut_whole Fixture.pinyin
                Fixture.encode Fixture.norm (str "付款。") (str "付 款。")
                LightSim.default_threshold) as (H & _).
    apply H. vm_compute. reflexivity. }
  split.
  { destruct (exact_match_gate_stages Fixture.cut_whole Fixture.pinyin
                Fixture.encode Fixture.norm (str "付款。") (str "付款")
                LightSim.default_threshold) as (_ & H & _).
    apply H; vm_compute; congruence. }
  split.
  { destruct (exact_match_gate_stages Fixture.cut_whole Fixture.pinyin
                Fixture.encode Fixture.norm (str "付款。") (str "交货。")
                LightSim.default_threshold) as (_ & _ & H & _).
    apply H; vm_compute; congruence. }
  split.
  { destruct (exact_match_gate_stages Fixture.cut_whole Fixture.pinyin
                Fixture.encode Fixture.norm (str "付款。") (str "付 款。")
                PipelineSim.default_threshold) as (_ & _ & _ & H & _).
    apply H. vm_compute. reflexivity. }
  destruct (exact_match_gate_stages Fixture.cut_whole Fixture.pinyin
              Fixture.encode Fixture.norm (str "付款。") (str "付款")
              PipelineSim.default_threshold) as (_ & _ & _ & _ & H & _).
  apply H; vm_compute; congruence.
Defined.

Lemma lightweight_fusion_witness :
  LightSim.preprocess (str "tide") <> LightSim.preprocess (str "diet")
  /\ exists w verdict score,
       LightSim64.get_words_similarity Fixture.cut_whole (str "tide") (str "diet") = Ok w
       /\ LightSim64.is_consistent Fixture.cut_whole Fixture.pinyin
            (str "tide") (str "diet") LightSim64.default_threshold
          = ([WordBag; CharSequence; Phonetic],
             Ok (verdict, score,
                 LightSim64.Details w
                   (LightSim64.get_char_similarity (str "tide") (str "diet"))
                   (LightSim64.get_pinyin_similarity Fixture.pinyin
                      (str "tide") (str "diet"))))
       /\ score
          = Binary64.add
              (Binary64.add (Binary64.mul w Binary64.half)
                 (Binary64.mul (LightSim64.get_char_similarity (str "tide") (str "diet"))
                    Binary64.three_tenths))
              (Binary64.mul
                 (LightSim64.get_pinyin_similarity Fixture.pinyin (str "tide") (str "diet"))
                 Binary64.two_tenths)
       /\ (verdict = true <-> Binary64.ge score LightSim64.default_threshold = true)
       /\ Binary64.half = S754_finite false 4503599627370496 (-53)
       /\ Binary64.three_tenths = S754_finite false 5404319552844595 (-54)
       /\ Binary64.two_tenths = S754_finite false 7205759403792794 (-55)
       /\ LightSim64.default_threshold = S754_finite false 8106479329266893 (-53).
Proof.
  split; [vm_compute; congruence|].
  apply (lightweight_fusion Fixture.cut_whole Fixture.pinyin
           (str "tide") (str "diet") LightSim64.default_threshold);
    vm_compute; congruence.
Defined.

Lemma calculate_similarities_without_tokens_witness :
  Fixture.cut_whole [] = []
  /\ SimpleSim.jaccard (list_to_set (Fixture.cut_whole [])) (list_to_set (Fixture.cut_whole []))
     = Raise ZeroDivisionError
  /\ exists e,
       SimpleSim.calculate_similarities Fixture.cut_whole Fixture.tfidf_zero [] []
       = Raise e.
Proof.
  split; [reflexivity|].
  apply (calculate_similarities_without_tokens Fixture.cut_whole Fixture.tfidf_zero [] []);
    reflexivity.
Defined.

Lemma comparison_symmetry_witness :
  exists trace verdict score score' reason reason',
    LightSim.is_consistent Fixture.cut_whole Fixture.pinyin
      (str "付款") (str "交款") LightSim.default_threshold
    = (trace, Ok (verdict, score, reason))
    /\ LightSim.is_consistent Fixture.cut_whole Fixture.pinyin
         (str "交款") (str "付款") LightSim.default_threshold
       = (trace, Ok (verdict, score', reason'))
    /\ (score == score')%Q.
Proof.
  destruct (comparison_symmetry Fixture.cut_whole Fixture.pinyin
              (str "付款") (str "交款") LightSim.default_threshold) as (_ & _ & H).
  apply H; vm_compute; reflexivity.
Defined.


Lemma punctuation_only_verdict_witness :
  Spec.strip_core (str "甲方应在收到乙方通知后30日内付款。")
  = Spec.strip_core (str "甲方应在收到乙方通知后30日内付款")
  /\ LightSim.is_consistent Fixture.cut_whole Fixture.pinyin
       (str "甲方应在收到乙方通知后30日内付款。")
       (str "甲方应在收到乙方通知后30日内付款") LightSim.default_threshold
     = ([], Ok (true, 0.99%Q, LightSim.PunctuationOnly)).
Proof.
  split; [vm_compute; reflexivity|].
  apply punctuation_only_verdict; vm_compute; congruence.
Defined.

End Claims.

(** * Further properties of the three scripts *)

(** ** Normalization and stripping, character by character *)

Module TextFacts.
Import Py Normalizer NormalizerFacts.

Lemma filter_comm {X : Type} (p q : X -> bool) (l : list X) :
  List.filter p (List.filter q l) = List.filter q (List.filter p l).
Proof.
  induction l as [|x l IH]; simpl; [done|].
  destruct (p x) eqn:Hp, (q x) eqn:Hq; simpl; rewrite ?Hp, ?Hq, IH; done.
Qed.

Lemma filter_idem {X : Type} (p : X -> bool) (l : list X) :
  List.filter p (List.filter p l) = List.filter p l.
Proof. apply List.forallb_filter_id, List.forallb_filter. Qed.

Lemma light_preprocess_app (u v : text) :
  LightSim.preprocess (u ++ v) = LightSim.preprocess u ++ LightSim.preprocess v.
Proof.
  rewrite !light_preprocess_steps, !normalize_flat_map. apply List.flat_map_app.
Qed.

Lemma pipeline_preprocess_app (u v : text) :
  PipelineSim.preprocess (u ++ v) = PipelineSim.preprocess u ++ PipelineSim.preprocess v.
Proof. rewrite !pipeline_preprocess_filter. apply List.filter_app. Qed.

Lemma light_preprocess_char (c : char) : LightSim.preprocess [c] = normalize_char c.
Proof.
  rewrite light_preprocess_steps, normalize_flat_map. simpl. apply app_nil_r.
Qed.

Lemma numeral_entry table c d :
  Spec.numeral table c = Some d -> In (c, d) table.
Proof.
  induction table as [|[k d'] table IH]; simpl; [done|].
  destruct (N.eqb_spec c k) as [->|Hne].
  - intros [= ->]. by left.
  - intros Hd. right. by apply IH.
Qed.

(** A numeral of the table and its digit string normalize to the same
    text. *)
Lemma entry_same_text c d :
  In (c, d) LightSim.number_map ->
  LightSim.preprocess [c] = LightSim.preprocess d.
Proof.
  intros Hd.
  assert (Hall : forallb (fun entry : char * text =>
                            bool_decide (LightSim.preprocess [entry.1]
                                         = LightSim.preprocess entry.2))
                   LightSim.number_map = true) by (vm_compute; reflexivity).
  eapply forallb_forall in Hall; [|exact Hd].
  by apply bool_decide_eq_true in Hall.
Qed.

(** In the pipeline comparator normalization and stripping commute. *)
Lemma pipeline_strip_preprocess (t : text) :
  PipelineSim.remove_punctuation (PipelineSim.preprocess t)
  = PipelineSim.preprocess (PipelineSim.remove_punctuation t).
Proof.
  rewrite !pipeline_preprocess_filter. unfold PipelineSim.remove_punctuation.
  apply filter_comm.
Qed.

End TextFacts.

(** ** More on the word-bag signal *)

Module WordBagMore.
Import Py LightSim WordBag WordBagFacts.

Local Open Scope nat_scope.

Lemma elem_of_filter_other (w x : text) (ws : list text) :
  x ∈ List.filter (fun y => negb (bool_decide (y = w))) ws <-> x ∈ ws /\ x <> w.
Proof.
  rewrite !list_elem_of_In, List.filter_In, negb_true_iff, bool_decide_eq_false. done.
Qed.

(** Distinct tokens that cover a sequence occur, together, as often as the
    sequence is long. *)
Lemma sum_occurrences_all (l ws : list text) :
  NoDup l -> (forall w, w ∈ ws -> w ∈ l) ->
  sum_list_with (fun w => Spec.occurrences w ws) l = length ws.
Proof.
  intros Hl. revert ws. induction Hl as [|w l Hw Hl IH]; intros ws Hcover; simpl.
  - destruct ws as [|x ws]; [done|]. exfalso.
    pose proof (Hcover x ltac:(by left)) as Hx. by apply elem_of_nil in Hx.
  - pose proof (occurrences_split w ws) as Hsplit.
    rewrite <- Hsplit. f_equal.
    rewrite <- (IH (List.filter (fun x => negb (bool_decide (x = w))) ws)).
    + clear IH Hsplit Hcover Hl. induction l as [|v l IHl]; simpl; [done|].
      rewrite occurrences_le_filter.
      * rewrite IHl; [done|]. intros Hin. apply Hw. by right.
      * intros ->. apply Hw. by left.
    + intros x [Hx Hne]%elem_of_filter_other.
      apply Hcover in Hx. apply elem_of_cons in Hx as [->|Hx]; done.
Qed.

Lemma common_self (ws : list text) :
  sum_list_with (fun w => Nat.min (Spec.occurrences w ws) (Spec.occurrences w ws))
    (Spec.common ws ws) = length ws.
Proof.
  rewrite (sum_list_with_ext _ (fun w => Spec.occurrences w ws))
    by (intros; apply Nat.min_id).
  apply sum_occurrences_all; [apply NoDup_common|].
  intros w Hw. by apply elem_of_common.
Qed.

Lemma occurrences_perm (w : text) (ws ws' : list text) :
  ws ≡ₚ ws' -> Spec.occurrences w ws = Spec.occurrences w ws'.
Proof.
  unfold Spec.occurrences.
  induction 1 as [|x l l' _ IH|x y l|l l' l'' _ IH1 _ IH2]; simpl.
  - done.
  - destruct (bool_decide (x = w)); simpl; by rewrite IH.
  - by destruct (bool_decide (x = w)), (bool_decide (y = w)).
  - by rewrite IH1.
Qed.

Lemma Counter_lookup (ws : list text) (w : text) :
  Counter ws !! w = if decide (w ∈ ws) then Some (Spec.occurrences w ws) else None.
Proof.
  pose proof (count_Counter ws w) as Hcount. unfold count in Hcount.
  destruct (decide (w ∈ ws)) as [Hin|Hout].
  - assert (Hdom : w ∈ dom (Counter ws)) by (rewrite dom_Counter; by apply elem_of_list_to_set).
    apply elem_of_dom in Hdom as [n Hn]. rewrite Hn in Hcount |- *. simpl in Hcount.
    by rewrite Hcount.
  - apply not_elem_of_dom. rewrite dom_Counter. by rewrite elem_of_list_to_set.
Qed.

(** A counter forgets the order of the tokens. *)
Lemma Counter_perm (ws ws' : list text) : ws ≡ₚ ws' -> Counter ws = Counter ws'.
Proof.
  intros Hperm. apply map_eq. intros w. rewrite !Counter_lookup.
  rewrite (occurrences_perm w ws ws' Hperm).
  destruct (decide (w ∈ ws)) as [Hin|Hout], (decide (w ∈ ws')) as [Hin'|Hout'];
    try done.
  - exfalso. apply Hout'. by rewrite <- Hperm.
  - exfalso. apply Hout. by rewrite Hperm.
Qed.

End WordBagMore.

(** ** More on the matching-block ratio *)

Module RatioMore.
Section Edges.
Context {A : Type} `{EqDecision A}.
Import Difflib Invariant DifflibFacts.

Local Open Scope nat_scope.

Lemma matches_le_each (a b : list A) :
  sum_list_with size_of (get_matching_blocks a b) <= length a
  /\ sum_list_with size_of (get_matching_blocks a b) <= length b.
Proof.
  unfold get_matching_blocks.
  rewrite sum_list_with_app, collapse_sum, sum_sizes_cons, sum_sizes_nil.
  change (size_of (0, 0, 0)) with 0. cbn [snd].
  pose proof (blocks_sum a b (S (length a)) 0 (length a) 0 (length b)
                ltac:(lia) ltac:(lia)).
  lia.
Qed.

Lemma calculate_ratio_zero (n : nat) : 0 < n -> (calculate_ratio 0 n == 0)%Q.
Proof. destruct n as [|n]; [lia|]. intros _. reflexivity. Qed.

Lemma calculate_ratio_times (m n : nat) :
  (calculate_ratio m n * inject_Z (Z.of_nat n) <= 2 * inject_Z (Z.of_nat m))%Q.
Proof.
  unfold calculate_ratio. destruct n as [|n].
  - simpl. rewrite Qmult_0_r. apply (Qmult_le_0_compat 2); [discriminate|].
    rewrite <- (Zle_Qle 0). lia.
  - assert (Hpos : (0 < inject_Z (Z.of_nat (S n)))%Q) by (rewrite <- (Zlt_Qlt 0); lia).
    apply Qle_lteq. right. field. lra.
Qed.

Lemma positions_absent (x : A) (j : nat) (b : list A) :
  x ∉ b -> positions x j b = [].
Proof.
  revert j. induction b as [|y b IH]; intros j Hx; simpl; [done|].
  destruct (decide (y = x)) as [->|Hne]; [exfalso; apply Hx; by left|].
  apply IH. intros Hin. apply Hx. by right.
Qed.

Section Disjoint.
Variables a b : list A.
Hypothesis apart : forall x, x ∈ a -> x ∉ b.

Lemma scan_rows_apart blo bhi rows j2len best :
  scan_rows a b blo bhi rows j2len best = best.
Proof.
  revert j2len. induction rows as [|i rows IH]; intros j2len; simpl; [done|].
  destruct (a !! i) as [x|] eqn:Hi; [|done].
  assert (Hb : b2j b x = []).
  { unfold b2j. destruct (popular b x); [done|].
    apply positions_absent, apart. by eapply list_elem_of_lookup_2. }
  rewrite Hb. simpl. apply IH.
Qed.

Lemma same_at_apart i j : same_at a b i j = false.
Proof.
  unfold same_at. destruct (a !! i) as [x|] eqn:Hi; [|done].
  destruct (b !! j) as [y|] eqn:Hj; [|done].
  apply bool_decide_eq_false. intros ->.
  apply (apart y); by eapply list_elem_of_lookup_2.
Qed.

Lemma find_longest_match_apart alo ahi blo bhi :
  find_longest_match a b alo ahi blo bhi = (alo, blo, 0).
Proof.
  unfold find_longest_match. cbv zeta. rewrite scan_rows_apart. cbn [fst snd].
  rewrite Nat.sub_diag. cbn [extend_left fst snd].
  destruct (ahi - (alo + 0)) as [|r]; [done|].
  cbn [extend_right]. by rewrite same_at_apart, andb_false_r.
Qed.

Lemma matches_apart : sum_list_with size_of (get_matching_blocks a b) = 0.
Proof.
  unfold get_matching_blocks. cbn [blocks]. rewrite find_longest_match_apart.
  reflexivity.
Qed.

End Disjoint.
End Edges.
End RatioMore.

(** ** Matching blocks are common runs *)

Module BlockFacts.
Section Sound.
Context {A : Type} `{EqDecision A}.
Import Difflib Invariant DifflibFacts.

Local Open Scope nat_scope.

Lemma row_sound_empty (a b : list A) i : row_sound a b i ∅.
Proof. intros j k Hjk. by rewrite lookup_empty in Hjk. Qed.

Lemma agree_snoc (a b : list A) i j k :
  agree a b i j k -> a !! (i + k) = b !! (j + k) -> agree a b i j (k + 1).
Proof.
  intros Hrun Hlast d Hd. destruct (decide (d = k)) as [->|Hne]; [done|].
  apply Hrun. lia.
Qed.

Lemma agree_cons (a b : list A) i j k :
  a !! i = b !! j -> agree a b (i + 1) (j + 1) k -> agree a b i j (k + 1).
Proof.
  intros Hfirst Hrun [|d] Hd.
  - by rewrite !Nat.add_0_r.
  - replace (i + S d) with (i + 1 + d) by lia. replace (j + S d) with (j + 1 + d) by lia.
    apply Hrun. lia.
Qed.

Lemma scan_row_sound (a b : list A) blo bhi i x js j2len newj2len best :
  a !! i = Some x ->
  (forall j, j ∈ js -> b !! j = Some x) ->
  row_sound a b i j2len ->
  row_sound a b (i + 1) newj2len ->
  agree a b best.1.1 best.1.2 best.2 ->
  row_sound a b (i + 1) (scan_row blo bhi i js j2len newj2len best).1
  /\ agree a b (scan_row blo bhi i js j2len newj2len best).2.1.1
       (scan_row blo bhi i js j2len newj2len best).2.1.2
       (scan_row blo bhi i js j2len newj2len best).2.2.
Proof.
  intros Hi Hjs Hprev. revert newj2len best.
  induction js as [|j js IH]; intros newj2len best Hnew Hbest; simpl; [done|].
  assert (Hjs' : forall j', j' ∈ js -> b !! j' = Some x)
    by (intros j' Hj'; apply Hjs; by right).
  destruct (j <? blo); [by apply IH|].
  destruct (bhi <=? j); [done|].
  set (k0 := match j with O => 0 | S j' => default 0 (j2len !! j') end).
  assert (Hk0 : k0 <= i /\ k0 <= j /\ agree a b (i - k0) (j - k0) k0).
  { subst k0. destruct j as [|j'].
    - split; [lia|]. split; [lia|]. intros d Hd. lia.
    - destruct (j2len !! j') as [k|] eqn:Hk; simpl.
      + destruct (Hprev j' k Hk) as ((H1 & H2) & H3).
        split; [lia|]. split; [lia|]. by replace (S j' - k) with (j' + 1 - k) by lia.
      + split; [lia|]. split; [lia|]. intros d Hd. lia. }
  destruct Hk0 as (Hki & Hkj & Hrun).
  assert (Hnewrun : agree a b (i + 1 - (k0 + 1)) (j + 1 - (k0 + 1)) (k0 + 1)).
  { replace (i + 1 - (k0 + 1)) with (i - k0) by lia.
    replace (j + 1 - (k0 + 1)) with (j - k0) by lia.
    apply agree_snoc; [done|].
    replace (i - k0 + k0) with i by lia. replace (j - k0 + k0) with j by lia.
    rewrite Hi. symmetry. apply Hjs. by left. }
  clearbody k0.
  apply IH; [done| |].
  - intros j' k'. destruct (decide (j = j')) as [<-|Hne].
    + rewrite lookup_insert_eq. intros [= <-]. split; [lia|done].
    + rewrite lookup_insert_ne by done. apply Hnew.
  - destruct (best.2 <? k0 + 1); [done|done].
Qed.

Lemma b2j_spec (b : list A) x j : j ∈ b2j b x -> b !! j = Some x.
Proof.
  unfold b2j. destruct (popular b x); [by intros ?%elem_of_nil|].
  intros [_ Hj]%positions_spec. by rewrite Nat.sub_0_r in Hj.
Qed.

Lemma scan_rows_sound (a b : list A) blo bhi n i j2len best :
  row_sound a b i j2len ->
  agree a b best.1.1 best.1.2 best.2 ->
  agree a b (scan_rows a b blo bhi (seq i n) j2len best).1.1
    (scan_rows a b blo bhi (seq i n) j2len best).1.2
    (scan_rows a b blo bhi (seq i n) j2len best).2.
Proof.
  revert i j2len best.
  induction n as [|n IH]; intros i j2len best Hrow Hbest; simpl; [done|].
  destruct (a !! i) as [x|] eqn:Hi; [|done].
  pose proof (scan_row_sound a b blo bhi i x (b2j b x) j2len ∅ best Hi
                (b2j_spec b x) Hrow (row_sound_empty a b _) Hbest) as [Hr Hb].
  destruct (scan_row blo bhi i (b2j b x) j2len ∅ best) as [newj2len best'].
  apply IH; [|done]. by replace (S i) with (i + 1) by lia.
Qed.

Lemma same_at_true (a b : list A) i j : same_at a b i j = true -> a !! i = b !! j.
Proof.
  unfold same_at. destruct (a !! i), (b !! j); try done.
  by intros ->%bool_decide_eq_true.
Qed.

Lemma extend_left_sound (a b : list A) alo blo rounds best :
  agree a b best.1.1 best.1.2 best.2 ->
  agree a b (extend_left a b alo blo rounds best).1.1
    (extend_left a b alo blo rounds best).1.2
    (extend_left a b alo blo rounds best).2.
Proof.
  revert best. induction rounds as [|r IH]; intros [[bi bj] bs] Hb; simpl; [done|].
  destruct ((alo <? bi) && (blo <? bj) && same_at a b (bi - 1) (bj - 1)) eqn:Hc;
    [|done].
  apply andb_prop in Hc as [Hc Hsame]. apply andb_prop in Hc as [Hi Hj].
  apply Nat.ltb_lt in Hi, Hj. apply same_at_true in Hsame.
  apply IH. cbn [fst snd] in *. apply agree_cons; [done|].
  replace (bi - 1 + 1) with bi by lia. by replace (bj - 1 + 1) with bj by lia.
Qed.

Lemma extend_right_sound (a b : list A) ahi bhi rounds best :
  agree a b best.1.1 best.1.2 best.2 ->
  agree a b (extend_right a b ahi bhi rounds best).1.1
    (extend_right a b ahi bhi rounds best).1.2
    (extend_right a b ahi bhi rounds best).2.
Proof.
  revert best. induction rounds as [|r IH]; intros [[bi bj] bs] Hb; simpl; [done|].
  destruct ((bi + bs <? ahi) && (bj + bs <? bhi)
            && same_at a b (bi + bs) (bj + bs)) eqn:Hc; [|done].
  apply andb_prop in Hc as [_ Hsame]. apply same_at_true in Hsame.
  apply IH. cbn [fst snd] in *. by apply agree_snoc.
Qed.

(** The block that [find_longest_match] returns is a common run. *)
Lemma find_longest_match_sound (a b : list A) alo ahi blo bhi :
  agree a b (find_longest_match a b alo ahi blo bhi).1.1
    (find_longest_match a b alo ahi blo bhi).1.2
    (find_longest_match a b alo ahi blo bhi).2.
Proof.
  unfold find_longest_match. cbv zeta.
  apply extend_right_sound, extend_left_sound, scan_rows_sound.
  - apply row_sound_empty.
  - intros d Hd. simpl in Hd. lia.
Qed.

(** Blocks that fill both ranges show that the ranges are equal. *)
Lemma blocks_cover (a b : list A) depth alo ahi blo bhi :
  alo <= ahi -> blo <= bhi ->
  sum_list_with size_of (blocks depth a b alo ahi blo bhi) = ahi - alo ->
  sum_list_with size_of (blocks depth a b alo ahi blo bhi) = bhi - blo ->
  agree a b alo blo (ahi - alo).
Proof.
  revert alo ahi blo bhi.
  induction depth as [|dp IH]; intros alo ahi blo bhi Ha Hb;
    cbn [blocks].
  { rewrite sum_sizes_nil. intros H1 _ d Hd. lia. }
  pose proof (find_longest_match_inside a b alo ahi blo bhi Ha Hb) as Hin.
  pose proof (find_longest_match_sound a b alo ahi blo bhi) as Hrun.
  destruct (find_longest_match a b alo ahi blo bhi) as [[i j] k].
  unfold inside in Hin; cbn [fst snd] in Hin, Hrun.
  destruct (k =? 0) eqn:Hk; [rewrite sum_sizes_nil; intros H1 _ d Hd; lia|].
  rewrite sum_list_with_app, sum_sizes_cons. cbn [snd].
  set (left := if (alo <? i) && (blo <? j) then blocks dp a b alo i blo j else []).
  set (right := if (i + k <? ahi) && (j + k <? bhi)
                then blocks dp a b (i + k) ahi (j + k) bhi else []).
  assert (Hl : sum_list_with size_of left <= i - alo
               /\ sum_list_with size_of left <= j - blo).
  { subst left. destruct ((alo <? i) && (blo <? j)).
    - apply blocks_sum; lia.
    - rewrite sum_sizes_nil. lia. }
  assert (Hr : sum_list_with size_of right <= ahi - (i + k)
               /\ sum_list_with size_of right <= bhi - (j + k)).
  { subst right. destruct ((i + k <? ahi) && (j + k <? bhi)).
    - apply blocks_sum; lia.
    - rewrite sum_sizes_nil. lia. }
  intros Hsa Hsb.
  assert (Hleft : agree a b alo blo (i - alo)).
  { subst left. destruct ((alo <? i) && (blo <? j)) eqn:Hc.
    - apply (IH alo i blo j); lia.
    - rewrite sum_sizes_nil in *. intros d Hd. lia. }
  assert (Hright : agree a b (i + k) (j + k) (ahi - (i + k))).
  { subst right. destruct ((i + k <? ahi) && (j + k <? bhi)) eqn:Hc.
    - apply (IH (i + k) ahi (j + k) bhi); lia.
    - rewrite sum_sizes_nil in *. intros d Hd. lia. }
  assert (Hij : i - alo = j - blo) by lia.
  intros d Hd.
  destruct (decide (d < i - alo)) as [Hd1|Hd1]; [by apply Hleft|].
  destruct (decide (d < i - alo + k)) as [Hd2|Hd2].
  - replace (alo + d) with (i + (d - (i - alo))) by lia.
    replace (blo + d) with (j + (d - (i - alo))) by lia.
    apply Hrun. lia.
  - replace (alo + d) with (i + k + (d - (i - alo) - k)) by lia.
    replace (blo + d) with (j + k + (d - (i - alo) - k)) by lia.
    apply Hright. lia.
Qed.

(** A ratio of 1 is reached by equal sequences only. *)
Lemma ratio_one (a b : list A) : (ratio a b == 1)%Q -> a = b.
Proof.
  unfold ratio. cbv zeta.
  destruct (RatioMore.matches_le_each a b) as [Hma Hmb].
  unfold get_matching_blocks in *.
  rewrite sum_list_with_app, collapse_sum, sum_sizes_cons, sum_sizes_nil in *.
  change (size_of (0, 0, 0)) with 0 in *. cbn [snd] in *.
  set (m := sum_list_with size_of (blocks (S (length a)) a b 0 (length a) 0 (length b))) in *.
  unfold calculate_ratio.
  destruct (length a + length b) as [|n] eqn:Hn.
  - intros _. destruct a, b; simpl in Hn; try lia. done.
  - intros Hq.
    assert (Hnz : ~ (inject_Z (Z.of_nat (S n)) == 0)%Q).
    { change 0%Q with (inject_Z 0). rewrite inject_Z_injective. lia. }
    assert (H2m : (2 * Z.of_nat (0 + m + (0 + 0)) = Z.of_nat (S n))%Z).
    { apply inject_Z_injective. rewrite inject_Z_mult.
      rewrite <- (Qmult_div_r (2 * inject_Z (Z.of_nat (0 + m + (0 + 0))))
                    (inject_Z (Z.of_nat (S n))) Hnz).
      rewrite Hq. ring. }
    assert (Hcover : agree a b 0 0 (length a - 0)).
    { apply (blocks_cover a b (S (length a)) 0 (length a) 0 (length b));
        fold m; lia. }
    apply list_eq. intros d.
    destruct (decide (d < length a)) as [Hd|Hd].
    + apply (Hcover d). lia.
    + rewrite !lookup_ge_None_2; [done|lia|lia].
Qed.

End Sound.
End BlockFacts.

(** ** More on the set-overlap quotient *)

Module JaccardMore.
Import Py SimpleSim.

Local Open Scope nat_scope.

Lemma truediv_range (n d : nat) :
  n <= d -> 0 < d -> exists q, truediv n d = Ok q /\ (0 <= q <= 1)%Q.
Proof.
  intros Hnd Hd. destruct d as [|d]; [lia|]. eexists. split; [reflexivity|].
  assert (Hpos : (0 < inject_Z (Z.of_nat (S d)))%Q) by (rewrite <- (Zlt_Qlt 0); lia).
  split.
  - apply Qle_shift_div_l; [done|]. rewrite Qmult_0_l, <- (Zle_Qle 0). lia.
  - apply Qle_shift_div_r; [done|]. rewrite Qmult_1_l, <- Zle_Qle. lia.
Qed.

Lemma union_size_pos (set1 set2 : gset text) :
  set1 ∪ set2 <> ∅ -> 0 < size (set1 ∪ set2).
Proof.
  intros Hne. destruct (size (set1 ∪ set2)) eqn:Hs; [|lia].
  exfalso. apply Hne. apply leibniz_equiv. by apply size_empty_inv.
Qed.

Lemma jaccard_range (set1 set2 : gset text) :
  set1 ∪ set2 <> ∅ ->
  exists q, jaccard set1 set2 = Ok q /\ (0 <= q <= 1)%Q.
Proof.
  intros Hne. apply truediv_range; [|by apply union_size_pos].
  apply subseteq_size. intros x [Hx _]%elem_of_intersection.
  apply elem_of_union. by left.
Qed.

Lemma jaccard_comm (set1 set2 : gset text) : jaccard set1 set2 = jaccard set2 set1.
Proof. unfold jaccard. by rewrite (comm_L (∩) set1), (comm_L (∪) set1). Qed.

Lemma truediv_Ok (n d : nat) (q : Q) :
  truediv n d = Ok q ->
  0 < d /\ q = (inject_Z (Z.of_nat n) / inject_Z (Z.of_nat d))%Q.
Proof. destruct d as [|d]; [done|]. intros [= <-]. split; [lia|done]. Qed.

Lemma quotient_one (n d : nat) :
  0 < d -> (inject_Z (Z.of_nat n) / inject_Z (Z.of_nat d) == 1)%Q <-> n = d.
Proof.
  intros Hd.
  assert (Hnz : ~ (inject_Z (Z.of_nat d) == 0)%Q).
  { change 0%Q with (inject_Z 0). rewrite inject_Z_injective. lia. }
  split.
  - intros Hq. apply Nat2Z.inj, inject_Z_injective.
    rewrite <- (Qmult_div_r (inject_Z (Z.of_nat n)) (inject_Z (Z.of_nat d)) Hnz).
    rewrite Hq. ring.
  - intros ->. field. exact Hnz.
Qed.

Lemma quotient_zero (n d : nat) :
  0 < d -> (inject_Z (Z.of_nat n) / inject_Z (Z.of_nat d) == 0)%Q <-> n = 0.
Proof.
  intros Hd.
  assert (Hnz : ~ (inject_Z (Z.of_nat d) == 0)%Q).
  { change 0%Q with (inject_Z 0). rewrite inject_Z_injective. lia. }
  split.
  - intros Hq. apply Nat2Z.inj, inject_Z_injective.
    rewrite <- (Qmult_div_r (inject_Z (Z.of_nat n)) (inject_Z (Z.of_nat d)) Hnz).
    rewrite Hq. simpl. ring.
  - intros ->. simpl. field. exact Hnz.
Qed.

Lemma tokens_empty (ws1 ws2 : list text) :
  (list_to_set ws1 : gset text) ∪ list_to_set ws2 = ∅ <-> ws1 = [] /\ ws2 = [].
Proof.
  split.
  - intros Hu. apply empty_union_L in Hu as [H1 H2].
    assert (Hnil : forall ws : list text, (list_to_set ws : gset text) = ∅ -> ws = []).
    { intros [|w ws] Hws; [done|]. exfalso.
      apply (not_elem_of_empty (C := gset text) w). rewrite <- Hws.
      apply elem_of_list_to_set. by left. }
    split; by apply Hnil.
  - intros [-> ->]. simpl. by rewrite (left_id_L ∅ (∪)).
Qed.

End JaccardMore.

Section Further.
Import Py.

(** X1.  Stripping removes every character of the punctuation string and
    nothing else: the result has no punctuation character, keeps only
    characters of the input, is unchanged by a second pass, equals the input
    when the input has no punctuation, and stripping a concatenation is
    concatenating the stripped parts.  The two comparators strip alike. *)
Theorem remove_punctuation_exact (t u : text) :
  LightSim.remove_punctuation (LightSim.remove_punctuation t)
  = LightSim.remove_punctuation t
  /\ (forall c, In c (LightSim.remove_punctuation t) <->
                 In c t /\ ~ In c LightSim.punctuation)
  /\ ((forall c, In c t -> ~ In c LightSim.punctuation) ->
      LightSim.remove_punctuation t = t)
  /\ LightSim.remove_punctuation (t ++ u)
     = LightSim.remove_punctuation t ++ LightSim.remove_punctuation u
  /\ PipelineSim.remove_punctuation t = LightSim.remove_punctuation t.
Proof.
  assert (Hmem : forall c, contains LightSim.punctuation c = false
                           <-> ~ In c LightSim.punctuation).
  { intros c. unfold contains. split.
    - intros Hf Hin. apply not_true_iff_false in Hf. apply Hf.
      apply existsb_exists. exists c. split; [done|apply N.eqb_refl].
    - intros Hn. apply not_true_iff_false. intros (x & Hx & Hcx)%existsb_exists.
      apply N.eqb_eq in Hcx. by subst x. }
  split; [apply TextFacts.filter_idem|].
  split.
  { intros c. unfold LightSim.remove_punctuation.
    rewrite List.filter_In, negb_true_iff, Hmem. done. }
  split.
  { intros Hfree. unfold LightSim.remove_punctuation.
    apply List.forallb_filter_id, forallb_forall. intros c Hc.
    apply negb_true_iff, Hmem. by apply Hfree. }
  split; [apply List.filter_app|reflexivity].
Qed.

(** X2.  In the pipeline comparator two clauses that are equal once the
    punctuation characters are removed, and whose normalized texts differ,
    compare as (true, 0.99, punctuation only) with no signal evaluated; this
    covers the full-width parentheses. *)
Theorem pipeline_punctuation_invariance
    (encode : list text -> list (list Q)) (norm : list Q -> Q)
    (lazy_pinyin : text -> list text) (x x' : text) (threshold : Q) :
  PipelineSim.remove_punctuation x = PipelineSim.remove_punctuation x' ->
  PipelineSim.preprocess x <> PipelineSim.preprocess x' ->
  PipelineSim.is_consistent encode norm lazy_pinyin x x' threshold
  = ([], Ok (true, Some 0.99%Q, PipelineSim.PunctuationOnly)).
Proof.
  intros Heq Hne. apply GateFacts.pipeline_punctuation_only; [done|].
  by rewrite !TextFacts.pipeline_strip_preprocess, Heq.
Qed.

Lemma pipeline_punctuation_invariance_witness :
  PipelineSim.remove_punctuation (str "甲（乙）") = PipelineSim.remove_punctuation (str "甲乙")
  /\ PipelineSim.is_consistent Fixture.encode Fixture.norm Fixture.pinyin
       (str "甲（乙）") (str "甲乙") PipelineSim.default_threshold
     = ([], Ok (true, Some 0.99%Q, PipelineSim.PunctuationOnly)).
Proof.
  split; [vm_compute; reflexivity|].
  apply pipeline_punctuation_invariance; vm_compute; congruence.
Defined.

(** X3.  Whitespace never matters: two clauses that are equal once their
    whitespace is removed (in particular two equal clauses) compare as
    (true, 1.0, exact) in both comparators, whatever the threshold. *)
Theorem whitespace_only_difference
    (cut lazy_pinyin : text -> list text)
    (encode : list text -> list (list Q)) (norm : list Q -> Q)
    (a b : text) (threshold : Q) :
  re_sub_spaces a = re_sub_spaces b ->
  LightSim.is_consistent cut lazy_pinyin a b threshold
  = ([], Ok (true, 1%Q, LightSim.Exact))
  /\ PipelineSim.is_consistent encode norm lazy_pinyin a b threshold
     = ([], Ok (true, Some 1%Q, PipelineSim.Exact)).
Proof.
  intros Heq. change (Spec.remove_whitespace a = Spec.remove_whitespace b) in Heq.
  split.
  - apply GateFacts.light_exact.
    rewrite !NormalizerFacts.light_preprocess_steps. unfold Spec.normalize.
    by rewrite Heq.
  - apply GateFacts.pipeline_exact.
    rewrite !NormalizerFacts.pipeline_preprocess_filter. exact Heq.
Qed.

Lemma whitespace_only_difference_witness :
  re_sub_spaces (str "甲方 应在30日内　付款。") = re_sub_spaces (str "甲方应在 30 日内付款。")
  /\ LightSim.is_consistent Fixture.cut_whole Fixture.pinyin
       (str "甲方 应在30日内　付款。") (str "甲方应在 30 日内付款。") LightSim.default_threshold
     = ([], Ok (true, 1%Q, LightSim.Exact))
  /\ PipelineSim.is_consistent Fixture.encode Fixture.norm Fixture.pinyin
       (str "甲方 应在30日内　付款。") (str "甲方应在 30 日内付款。") PipelineSim.default_threshold
     = ([], Ok (true, Some 1%Q, PipelineSim.Exact)).
Proof.
  split; [vm_compute; reflexivity|].
  apply whitespace_only_difference. vm_compute. reflexivity.
Defined.

(** X4.  The digit style never matters to the lightweight comparator:
    writing a numeral of the table as its digit string, or a full-width
    parenthesis as the half-width one, anywhere in a clause, gives a clause
    that compares as (true, 1.0, exact) with the original. *)
Theorem numeral_style_is_exact
    (cut lazy_pinyin : text -> list text) (u v : text) (c : char) (d : text)
    (threshold : Q) :
  In (c, d) LightSim.number_map ->
  LightSim.is_consistent cut lazy_pinyin (u ++ c :: v) (u ++ d ++ v) threshold
  = ([], Ok (true, 1%Q, LightSim.Exact))
  /\ LightSim.is_consistent cut lazy_pinyin
       (u ++ LightSim.ord "（" :: v) (u ++ LightSim.ord "(" :: v) threshold
     = ([], Ok (true, 1%Q, LightSim.Exact))
  /\ LightSim.is_consistent cut lazy_pinyin
       (u ++ LightSim.ord "）" :: v) (u ++ LightSim.ord ")" :: v) threshold
     = ([], Ok (true, 1%Q, LightSim.Exact)).
Proof.
  intros Hd. split; [|split]; apply GateFacts.light_exact.
  - change (c :: v) with ([c] ++ v).
    rewrite !TextFacts.light_preprocess_app. by rewrite (TextFacts.entry_same_text c d).
  - change (LightSim.ord "（" :: v) with ([LightSim.ord "（"] ++ v).
    change (LightSim.ord "(" :: v) with ([LightSim.ord "("] ++ v).
    rewrite !TextFacts.light_preprocess_app. do 2 f_equal.
  - change (LightSim.ord "）" :: v) with ([LightSim.ord "）"] ++ v).
    change (LightSim.ord ")" :: v) with ([LightSim.ord ")"] ++ v).
    rewrite !TextFacts.light_preprocess_app. do 2 f_equal.
Qed.

Lemma numeral_style_is_exact_witness :
  In (LightSim.ord "三", str "3") LightSim.number_map
  /\ LightSim.is_consistent Fixture.cut_whole Fixture.pinyin
       (str "收到通知后三日内付款") (str "收到通知后3日内付款") LightSim.default_threshold
     = ([], Ok (true, 1%Q, LightSim.Exact)).
Proof.
  assert (Hentry : In (LightSim.ord "三", str "3") LightSim.number_map)
    by (vm_compute; tauto).
  split; [exact Hentry|].
  apply (numeral_style_is_exact Fixture.cut_whole Fixture.pinyin
           (str "收到通知后") (str "日内付款") (LightSim.ord "三") (str "3")
           LightSim.default_threshold).
  exact Hentry.
Defined.

(** X5.  Both normalizations work character by character: the normalized
    text of a concatenation is the concatenation of the normalized texts. *)
Theorem preprocess_concatenation (u v : text) :
  LightSim.preprocess (u ++ v) = LightSim.preprocess u ++ LightSim.preprocess v
  /\ PipelineSim.preprocess (u ++ v)
     = PipelineSim.preprocess u ++ PipelineSim.preprocess v.
Proof.
  split; [apply TextFacts.light_preprocess_app|apply TextFacts.pipeline_preprocess_app].
Qed.

(** X6.  The pipeline normalization is idempotent; its output has no
    whitespace character and keeps the other characters of the input in
    order, so a text without whitespace is returned unchanged. *)
Theorem pipeline_preprocess_idempotent (t : text) :
  PipelineSim.preprocess (PipelineSim.preprocess t) = PipelineSim.preprocess t
  /\ (forall c, In c (PipelineSim.preprocess t) <-> In c t /\ isspace c = false)
  /\ ((forall c, In c t -> isspace c = false) -> PipelineSim.preprocess t = t).
Proof.
  rewrite !NormalizerFacts.pipeline_preprocess_filter.
  split; [apply TextFacts.filter_idem|]. split.
  - intros c. by rewrite List.filter_In, negb_true_iff.
  - intros Hfree. apply List.forallb_filter_id, forallb_forall.
    intros c Hc. apply negb_true_iff. by apply Hfree.
Qed.

(** X7.  The threshold only moves the verdict.  In the lightweight
    comparator the evaluated signals, the score and the breakdown are the
    same for every threshold, and a pair accepted at a threshold is accepted
    at every lower one; the two early exits accept at every threshold.  In
    the pipeline comparator the same holds for the score and the verdict
    whenever the comparison returns. *)
Theorem threshold_moves_only_the_verdict
    (cut lazy_pinyin : text -> list text)
    (encode : list text -> list (list Q)) (norm : list Q -> Q)
    (a b : text) (low high : Q) :
  (low <= high)%Q ->
  (exists trace score reason accepted_low accepted_high,
     LightSim.is_consistent cut lazy_pinyin a b low
     = (trace, Ok (accepted_low, score, reason))
     /\ LightSim.is_consistent cut lazy_pinyin a b high
        = (trace, Ok (accepted_high, score, reason))
     /\ (accepted_high = true -> accepted_low = true))
  /\ (forall trace trace' accepted_low accepted_high score score' reason reason',
        PipelineSim.is_consistent encode norm lazy_pinyin a b low
        = (trace, Ok (accepted_low, score, reason)) ->
        PipelineSim.is_consistent encode norm lazy_pinyin a b high
        = (trace', Ok (accepted_high, score', reason')) ->
        trace = trace' /\ score = score'
        /\ (accepted_high = true -> accepted_low = true)).
Proof.
  intros Hle. split.
  - destruct (decide (LightSim.preprocess a = LightSim.preprocess b)) as [He|Hne].
    { rewrite !(GateFacts.light_exact cut lazy_pinyin a b _ He).
      by eexists _, _, _, _, _. }
    destruct (decide (LightSim.remove_punctuation (LightSim.preprocess a)
                      = LightSim.remove_punctuation (LightSim.preprocess b)))
      as [Hs|Hns].
    { rewrite !(GateFacts.light_punctuation_only cut lazy_pinyin a b _ Hne Hs).
      by eexists _, _, _, _, _. }
    rewrite !(GateFacts.light_weighted cut lazy_pinyin a b _ Hne Hns). cbv zeta.
    eexists _, _, _, _, _. split; [reflexivity|]. split; [reflexivity|].
    intros Hhigh. apply Qle_bool_iff. apply Qle_bool_iff in Hhigh.
    eapply Qle_trans; [exact Hle|exact Hhigh].
  - intros trace trace' v v' score score' reason reason'.
    destruct (decide (PipelineSim.preprocess a = PipelineSim.preprocess b)) as [He|Hne].
    { rewrite !(GateFacts.pipeline_exact encode norm lazy_pinyin a b _ He).
      by intros [= <- <- <- <-] [= <- <- <- <-]. }
    destruct (decide (PipelineSim.remove_punctuation (PipelineSim.preprocess a)
                      = PipelineSim.remove_punctuation (PipelineSim.preprocess b)))
      as [Hs|Hns].
    { rewrite !(GateFacts.pipeline_punctuation_only encode norm lazy_pinyin a b _ Hne Hs).
      by intros [= <- <- <- <-] [= <- <- <- <-]. }
    rewrite !(GateFacts.pipeline_weighted encode norm lazy_pinyin a b _ Hne Hns).
    cbv zeta.
    destruct (PipelineSim.get_semantic_similarity _ _ _ _) as [sem|e]; [|by intros [=]].
    intros [= <- <- <- <-] [= <- <- <- <-]. split; [done|]. split; [done|].
    destruct sem as [q|]; simpl; [|done].
    intros Hhigh. apply Qle_bool_iff. apply Qle_bool_iff in Hhigh.
    eapply Qle_trans; [exact Hle|exact Hhigh].
Qed.

Lemma threshold_moves_only_the_verdict_witness :
  (1 # 2 <= 9 # 10)%Q
  /\ exists trace score reason accepted_low accepted_high,
       LightSim.is_consistent Fixture.cut_whole Fixture.pinyin
         (str "tide") (str "diet") (1 # 2)
       = (trace, Ok (accepted_low, score, reason))
       /\ LightSim.is_consistent Fixture.cut_whole Fixture.pinyin
            (str "tide") (str "diet") (9 # 10)
          = (trace, Ok (accepted_high, score, reason))
       /\ (accepted_high = true -> accepted_low = true).
Proof.
  split; [vm_compute; discriminate|].
  apply (threshold_moves_only_the_verdict Fixture.cut_whole Fixture.pinyin
           Fixture.encode Fixture.norm (str "tide") (str "diet") (1 # 2) (9 # 10)).
  vm_compute. discriminate.
Defined.

(** X8.  Two clauses past the two early exits whose stopword-free token
    lists share no token get word-bag score 0, hence a score of at most 0.5:
    they are rejected at every threshold above 0.5, the default included. *)
Theorem no_common_token_caps_score
    (cut lazy_pinyin : text -> list text) (a b : text) (threshold : Q) :
  let sa := LightSim.remove_punctuation (LightSim.preprocess a) in
  let sb := LightSim.remove_punctuation (LightSim.preprocess b) in
  LightSim.preprocess a <> LightSim.preprocess b ->
  sa <> sb ->
  (forall w, w ∈ WordBag.kept cut sa -> w ∈ WordBag.kept cut sb -> False) ->
  exists verdict score c p,
    LightSim.is_consistent cut lazy_pinyin a b threshold
    = ([WordBag; CharSequence; Phonetic], Ok (verdict, score, LightSim.Details 0 c p))
    /\ (score <= 1 # 2)%Q
    /\ ((1 # 2 < threshold)%Q -> verdict = false).
Proof.
  intros sa sb Hne Hns Hnone.
  rewrite (GateFacts.light_weighted cut lazy_pinyin a b threshold Hne Hns).
  cbv zeta. fold sa sb.
  assert (Hw : Spec.word_bag (WordBag.kept cut sa) (WordBag.kept cut sb) = 0%Q).
  { unfold Spec.word_bag.
    destruct (Spec.common (WordBag.kept cut sa) (WordBag.kept cut sb)) as [|w l] eqn:Hc;
      [done|].
    exfalso.
    assert (Hin : w ∈ Spec.common (WordBag.kept cut sa) (WordBag.kept cut sb))
      by (rewrite Hc; by left).
    apply WordBagFacts.elem_of_common in Hin as [H1 H2]. by apply (Hnone w). }
  rewrite Hw.
  pose proof (DifflibFacts.ratio_range sa sb) as Hc.
  pose proof (DifflibFacts.ratio_range (lazy_pinyin sa) (lazy_pinyin sb)) as Hp.
  unfold LightSim.get_char_similarity, LightSim.get_pinyin_similarity.
  set (c := Difflib.ratio sa sb) in *.
  set (p := Difflib.ratio (lazy_pinyin sa) (lazy_pinyin sb)) in *.
  clearbody c p.
  eexists _, _, _, _. split; [reflexivity|]. split; [lra|].
  intros Hthr. apply not_true_is_false. intros Hv. apply Qle_bool_iff in Hv. lra.
Qed.

Lemma no_common_token_caps_score_witness :
  exists verdict score c p,
    LightSim.is_consistent Fixture.cut_whole Fixture.pinyin
      (str "tide") (str "diet") LightSim.default_threshold
    = ([WordBag; CharSequence; Phonetic], Ok (verdict, score, LightSim.Details 0 c p))
    /\ (score <= 1 # 2)%Q
    /\ ((1 # 2 < LightSim.default_threshold)%Q -> verdict = false).
Proof.
  apply (no_common_token_caps_score Fixture.cut_whole Fixture.pinyin
           (str "tide") (str "diet") LightSim.default_threshold).
  - vm_compute. congruence.
  - vm_compute. congruence.
  - intros w Ha Hb. vm_compute in Ha, Hb.
    apply list_elem_of_singleton in Ha, Hb. congruence.
Defined.

(** X9.  A pair that the lightweight comparator accepts on its weighted
    score has a word-bag score of at least 2 * threshold - 1: at the default
    threshold, at least 0.8. *)
Theorem accepted_needs_word_overlap
    (cut lazy_pinyin : text -> list text) (a b : text) (threshold : Q)
    (trace : list signal) (score w c p : Q) :
  LightSim.is_consistent cut lazy_pinyin a b threshold
  = (trace, Ok (true, score, LightSim.Details w c p)) ->
  (threshold <= score)%Q /\ (2 * threshold - 1 <= w)%Q /\ (0 <= w <= 1)%Q.
Proof.
  destruct (decide (LightSim.preprocess a = LightSim.preprocess b)) as [He|Hne].
  { rewrite (GateFacts.light_exact cut lazy_pinyin a b _ He). intros [=]. }
  destruct (decide (LightSim.remove_punctuation (LightSim.preprocess a)
                    = LightSim.remove_punctuation (LightSim.preprocess b)))
    as [Hs|Hns].
  { rewrite (GateFacts.light_punctuation_only cut lazy_pinyin a b _ Hne Hs).
    intros [=]. }
  rewrite (GateFacts.light_weighted cut lazy_pinyin a b _ Hne Hns). cbv zeta.
  set (sa := LightSim.remove_punctuation (LightSim.preprocess a)).
  set (sb := LightSim.remove_punctuation (LightSim.preprocess b)).
  pose proof (WordBagFacts.word_bag_range
                (WordBag.kept cut sa) (WordBag.kept cut sb)) as Hw.
  pose proof (DifflibFacts.ratio_range sa sb) as Hc.
  pose proof (DifflibFacts.ratio_range (lazy_pinyin sa) (lazy_pinyin sb)) as Hp.
  unfold LightSim.get_char_similarity, LightSim.get_pinyin_similarity.
  intros [= _ Hv Hscore <- <- <-].
  apply Qle_bool_iff in Hv. rewrite Hscore in Hv.
  split; [exact Hv|]. split; [|exact Hw]. rewrite <- Hscore in Hv. lra.
Qed.

Lemma accepted_needs_word_overlap_witness :
  exists trace score w c p,
    LightSim.is_consistent CharFixture.cut_chars CharFixture.pinyin_chars
      (str "甲方应在收到乙方通知后30日内付款") (str "甲方应在收到乙方通知后30日内付清")
      LightSim.default_threshold
    = (trace, Ok (true, score, LightSim.Details w c p))
    /\ (LightSim.default_threshold <= score)%Q
    /\ (2 * LightSim.default_threshold - 1 <= w)%Q /\ (0 <= w <= 1)%Q.
Proof.
  eexists _, _, _, _, _. split; [vm_compute; reflexivity|].
  eapply (accepted_needs_word_overlap CharFixture.cut_chars CharFixture.pinyin_chars
            (str "甲方应在收到乙方通知后30日内付款") (str "甲方应在收到乙方通知后30日内付清")
            LightSim.default_threshold).
  vm_compute. reflexivity.
Defined.

(** X10.  The word-bag scorer of light_sim.py on two copies of one text:
    when the text has a token that is not a stopword the score is 1, and
    when every token is a stopword (or there is none) the score is 0, so
    such a text scores 0 against itself. *)
Theorem word_bag_of_same_text (cut : text -> list text) (t : text) :
  (WordBag.kept cut t = [] -> LightSim.get_words_similarity cut t t = Ok 0%Q)
  /\ (WordBag.kept cut t <> [] ->
      exists q, LightSim.get_words_similarity cut t t = Ok q /\ (q == 1)%Q).
Proof.
  rewrite WordBagFacts.get_words_similarity_word_bag.
  set (ws := WordBag.kept cut t). clearbody ws.
  unfold Spec.word_bag.
  pose proof (WordBagMore.common_self ws) as Hsum.
  split.
  - intros ->. reflexivity.
  - intros Hne. destruct (Spec.common ws ws) as [|w l] eqn:Hc.
    + exfalso. destruct ws as [|x ws]; [done|].
      assert (Hx : x ∈ Spec.common (x :: ws) (x :: ws))
        by (apply WordBagFacts.elem_of_common; split; by left).
      rewrite Hc in Hx. by apply elem_of_nil in Hx.
    + eexists. split; [reflexivity|]. rewrite Hsum, Nat.max_id.
      apply JaccardMore.quotient_one; [|done].
      destruct ws; [done|simpl; lia].
Qed.

Lemma word_bag_of_same_text_witness :
  LightSim.get_words_similarity CharFixture.cut_chars (str "的了") (str "的了") = Ok 0%Q
  /\ exists q,
       LightSim.get_words_similarity CharFixture.cut_chars (str "付款") (str "付款") = Ok q
       /\ (q == 1)%Q.
Proof.
  split.
  - apply (word_bag_of_same_text CharFixture.cut_chars (str "的了")).
    vm_compute. reflexivity.
  - apply (word_bag_of_same_text CharFixture.cut_chars (str "付款")).
    vm_compute. discriminate.
Defined.

(** X11.  The word-bag scorer counts tokens and ignores where they stand:
    two texts whose kept tokens are a rearrangement of the kept tokens of
    two other texts get the same score. *)
Theorem word_bag_ignores_token_order (cut : text -> list text) (t1 t2 t1' t2' : text) :
  WordBag.kept cut t1 ≡ₚ WordBag.kept cut t1' ->
  WordBag.kept cut t2 ≡ₚ WordBag.kept cut t2' ->
  LightSim.get_words_similarity cut t1 t2 = LightSim.get_words_similarity cut t1' t2'.
Proof.
  intros H1 H2. unfold LightSim.get_words_similarity. cbv zeta.
  unfold WordBag.kept in H1, H2.
  by rewrite (WordBagMore.Counter_perm _ _ H1), (WordBagMore.Counter_perm _ _ H2).
Qed.

Lemma word_bag_ignores_token_order_witness :
  WordBag.kept CharFixture.cut_chars (str "甲乙") ≡ₚ WordBag.kept CharFixture.cut_chars (str "乙甲")
  /\ WordBag.kept CharFixture.cut_chars (str "乙丙") ≡ₚ WordBag.kept CharFixture.cut_chars (str "丙乙")
  /\ LightSim.get_words_similarity CharFixture.cut_chars (str "甲乙") (str "乙丙")
     = LightSim.get_words_similarity CharFixture.cut_chars (str "乙甲") (str "丙乙").
Proof.
  assert (H1 : WordBag.kept CharFixture.cut_chars (str "甲乙")
               ≡ₚ WordBag.kept CharFixture.cut_chars (str "乙甲"))
    by (vm_compute; apply perm_swap).
  assert (H2 : WordBag.kept CharFixture.cut_chars (str "乙丙")
               ≡ₚ WordBag.kept CharFixture.cut_chars (str "丙乙"))
    by (vm_compute; apply perm_swap).
  split; [exact H1|]. split; [exact H2|].
  exact (word_bag_ignores_token_order CharFixture.cut_chars _ _ _ _ H1 H2).
Defined.


(** X13.  Two texts that share no character, not both empty, have
    character-sequence score 0 in both comparators, at every length; and two
    texts whose syllable lists share no syllable, not both empty, have
    phonetic score 0 in the lightweight comparator, whether or not the
    texts share a character.  So a positive score shows a shared character
    (or syllable). *)
Theorem nothing_shared_scores_zero (lazy_pinyin : text -> list text) (a b : text) :
  ((forall c, c ∈ a -> c ∉ b) -> a ++ b <> [] ->
   (LightSim.get_char_similarity a b == 0)%Q
   /\ (PipelineSim.get_char_similarity a b == 0)%Q)
  /\ ((forall s, s ∈ lazy_pinyin a -> s ∉ lazy_pinyin b) ->
      lazy_pinyin a ++ lazy_pinyin b <> [] ->
      (LightSim.get_pinyin_similarity lazy_pinyin a b == 0)%Q).
Proof.
  assert (Hzero : forall (A : Type) (eqA : EqDecision A) (x y : list A),
             (forall c, c ∈ x -> c ∉ y) -> x ++ y <> [] ->
             (Difflib.ratio x y == 0)%Q).
  { intros A eqA x y Hapart Hne. unfold Difflib.ratio. cbv zeta.
    rewrite (RatioMore.matches_apart x y Hapart).
    apply RatioMore.calculate_ratio_zero.
    rewrite <- length_app. destruct (x ++ y); [done|simpl; lia]. }
  unfold PipelineSim.get_char_similarity, LightSim.get_char_similarity,
    LightSim.get_pinyin_similarity.
  split.
  - intros Hapart Hne. split; by apply Hzero.
  - cbv zeta. apply Hzero.
Qed.

Lemma nothing_shared_scores_zero_witness :
  ((forall c, c ∈ str "甲方付款" -> c ∉ str "乙丙交货")
   /\ str "甲方付款" ++ str "乙丙交货" <> []
   /\ (LightSim.get_char_similarity (str "甲方付款") (str "乙丙交货") == 0)%Q
   /\ (PipelineSim.get_char_similarity (str "甲方付款") (str "乙丙交货") == 0)%Q)
  /\ (In (LightSim.ord "行") (str "银行") /\ In (LightSim.ord "行") (str "行走"))
  /\ (forall s, s ∈ Fixture.pinyin_in_context (str "银行") ->
                s ∉ Fixture.pinyin_in_context (str "行走"))
  /\ Fixture.pinyin_in_context (str "银行") ++ Fixture.pinyin_in_context (str "行走") <> []
  /\ (LightSim.get_pinyin_similarity Fixture.pinyin_in_context
        (str "银行") (str "行走") == 0)%Q.
Proof.
  assert (Hapart : forall c, c ∈ str "甲方付款" -> c ∉ str "乙丙交货").
  { apply Forall_forall. apply (bool_decide_unpack _). vm_compute. exact I. }
  assert (Hne : str "甲方付款" ++ str "乙丙交货" <> [])
    by (vm_compute; discriminate).
  assert (Hsyll : forall s, s ∈ Fixture.pinyin_in_context (str "银行") ->
                            s ∉ Fixture.pinyin_in_context (str "行走")).
  { apply Forall_forall. apply (bool_decide_unpack _). vm_compute. exact I. }
  assert (Hsome : Fixture.pinyin_in_context (str "银行")
                  ++ Fixture.pinyin_in_context (str "行走") <> [])
    by (vm_compute; discriminate).
  split.
  { split; [exact Hapart|]. split; [exact Hne|].
    exact (proj1 (nothing_shared_scores_zero CharFixture.pinyin_chars _ _) Hapart Hne). }
  split; [vm_compute; tauto|]. split; [exact Hsyll|]. split; [exact Hsome|].
  exact (proj2 (nothing_shared_scores_zero Fixture.pinyin_in_context _ _) Hsyll Hsome).
Defined.

(** X14.  calculate_similarities of simple_sim.py returns its dictionary
    whenever the vectorizer returns and the segmenter finds a token in at
    least one text: the cosine entry is the vectorizer's value, the sequence
    entry is the matching-block ratio of the unsegmented texts, and the
    sequence and Jaccard entries lie in [0, 1]. *)
Theorem calculate_similarities_returns
    (cut : text -> list text) (tfidf_cosine : text -> text -> result Q)
    (text1 text2 : text) (cosine : Q) :
  tfidf_cosine (join (str " ") (cut text1)) (join (str " ") (cut text2)) = Ok cosine ->
  cut text1 ++ cut text2 <> [] ->
  exists jaccard,
    SimpleSim.calculate_similarities cut tfidf_cosine text1 text2
    = Ok {| SimpleSim.cosine_similarity := cosine;
            SimpleSim.sequence_similarity := Difflib.ratio text1 text2;
            SimpleSim.jaccard_similarity := jaccard |}
    /\ (0 <= Difflib.ratio text1 text2 <= 1)%Q
    /\ (0 <= jaccard <= 1)%Q.
Proof.
  intros Hcos Htokens. unfold SimpleSim.calculate_similarities. cbv zeta.
  rewrite Hcos. cbn [mbind result_bind].
  destruct (JaccardMore.jaccard_range (list_to_set (cut text1)) (list_to_set (cut text2)))
    as (q & Hq & Hrange).
  { intros Hempty. apply JaccardMore.tokens_empty in Hempty as [H1 H2].
    apply Htokens. by rewrite H1, H2. }
  rewrite Hq. exists q. split; [reflexivity|]. split; [|exact Hrange].
  apply DifflibFacts.ratio_range.
Qed.

Lemma calculate_similarities_returns_witness :
  exists jaccard,
    SimpleSim.calculate_similarities Fixture.cut_whole Fixture.tfidf_zero
      (str "tide") (str "diet")
    = Ok {| SimpleSim.cosine_similarity := 0;
            SimpleSim.sequence_similarity := Difflib.ratio (str "tide") (str "diet");
            SimpleSim.jaccard_similarity := jaccard |}
    /\ (0 <= Difflib.ratio (str "tide") (str "diet") <= 1)%Q
    /\ (0 <= jaccard <= 1)%Q.
Proof.
  apply (calculate_similarities_returns Fixture.cut_whole Fixture.tfidf_zero
           (str "tide") (str "diet") 0%Q).
  - reflexivity.
  - vm_compute. discriminate.
Defined.

(** X15.  The only ways calculate_similarities fails: the vectorizer raises,
    and its exception is passed on; or the vectorizer returns and the
    segmenter finds no token in either text, and the Jaccard quotient raises
    ZeroDivisionError. *)
Theorem calculate_similarities_raises
    (cut : text -> list text) (tfidf_cosine : text -> text -> result Q)
    (text1 text2 : text) (e : exn) :
  SimpleSim.calculate_similarities cut tfidf_cosine text1 text2 = Raise e
  <-> tfidf_cosine (join (str " ") (cut text1)) (join (str " ") (cut text2)) = Raise e
      \/ ((exists cosine,
             tfidf_cosine (join (str " ") (cut text1)) (join (str " ") (cut text2))
             = Ok cosine)
          /\ cut text1 = [] /\ cut text2 = [] /\ e = ZeroDivisionError).
Proof.
  unfold SimpleSim.calculate_similarities. cbv zeta.
  destruct (tfidf_cosine _ _) as [cosine|e'] eqn:Hcos; cbn [mbind result_bind].
  - destruct (decide (cut text1 ++ cut text2 = [])) as [Hnil|Hne].
    + apply app_eq_nil in Hnil as [H1 H2]. rewrite H1, H2.
      change (SimpleSim.jaccard (list_to_set []) (list_to_set []))
        with (SimpleSim.jaccard ∅ ∅).
      rewrite JaccardFacts.jaccard_both_empty. split.
      * intros [= <-]. right. eauto.
      * intros [[=]|(_ & _ & _ & ->)]. reflexivity.
    + destruct (JaccardMore.jaccard_range
                  (list_to_set (cut text1)) (list_to_set (cut text2)))
        as (q & Hq & _).
      { intros Hempty. apply JaccardMore.tokens_empty in Hempty as [H1 H2].
        apply Hne. by rewrite H1, H2. }
      rewrite Hq. split; [intros [=]|].
      intros [[=]|(_ & H1 & H2 & _)]. exfalso. apply Hne. by rewrite H1, H2.
  - split.
    + intros [= <-]. by left.
    + intros [[= <-]|((cosine & [=]) & _)]. reflexivity.
Qed.

(** X16.  The Jaccard entry of a returned dictionary looks at the two sets
    of tokens only: it is 1 exactly when the two texts have the same set of
    tokens, 0 exactly when they have no token in common, and it is the same
    when the two texts are swapped.  For two copies of one text the sequence
    entry is 1. *)
Theorem jaccard_entry
    (cut : text -> list text) (tfidf_cosine : text -> text -> result Q)
    (text1 text2 : text) (r : SimpleSim.similarities) :
  SimpleSim.calculate_similarities cut tfidf_cosine text1 text2 = Ok r ->
  ((SimpleSim.jaccard_similarity r == 1)%Q
   <-> (list_to_set (cut text1) : gset text) = list_to_set (cut text2))
  /\ ((SimpleSim.jaccard_similarity r == 0)%Q
      <-> (list_to_set (cut text1) : gset text) ∩ list_to_set (cut text2) = ∅)
  /\ (forall r', SimpleSim.calculate_similarities cut tfidf_cosine text2 text1 = Ok r' ->
                 SimpleSim.jaccard_similarity r' = SimpleSim.jaccard_similarity r)
  /\ (text1 = text2 -> (SimpleSim.sequence_similarity r == 1)%Q).
Proof.
  unfold SimpleSim.calculate_similarities. cbv zeta.
  destruct (tfidf_cosine _ _) as [cosine|e'] eqn:Hcos; cbn [mbind result_bind]; [|done].
  set (set1 := list_to_set (cut text1) : gset text).
  set (set2 := list_to_set (cut text2) : gset text).
  destruct (SimpleSim.jaccard set1 set2) as [q|] eqn:Hq; [|done].
  intros [= <-]. cbn [SimpleSim.jaccard_similarity SimpleSim.sequence_similarity].
  unfold SimpleSim.jaccard in Hq.
  apply JaccardMore.truediv_Ok in Hq as [Hpos ->].
  assert (Hsub : set1 ∩ set2 ⊆ set1 ∪ set2).
  { intros x [Hx _]%elem_of_intersection. apply elem_of_union. by left. }
  split; [|split; [|split]].
  - rewrite (JaccardMore.quotient_one _ _ Hpos). split.
    + intros Hsize.
      assert (Hsame : set1 ∩ set2 = set1 ∪ set2).
      { apply set_subseteq_size_eq; [exact Hsub|]. by rewrite Hsize. }
      assert (Hback : forall x, x ∈ set1 ∪ set2 -> x ∈ set1 ∩ set2)
        by (intros x; by rewrite Hsame).
      apply set_eq. intros x. split; intros Hx.
      * assert (Hu : x ∈ set1 ∪ set2) by (apply elem_of_union; by left).
        apply Hback in Hu. by apply elem_of_intersection in Hu as [_ ?].
      * assert (Hu : x ∈ set1 ∪ set2) by (apply elem_of_union; by right).
        apply Hback in Hu. by apply elem_of_intersection in Hu as [? _].
    + intros ->. by rewrite (idemp_L (∩) set2), (idemp_L (∪) set2).
  - rewrite (JaccardMore.quotient_zero _ _ Hpos). split.
    + intros Hsize. apply leibniz_equiv. by apply size_empty_inv.
    + intros ->. apply size_empty.
  - intros r'. clear Hcos.
    destruct (tfidf_cosine (join (str " ") (cut text2)) _) as [cosine'|];
      cbn [mbind result_bind]; [|done].
    fold set1 set2. rewrite (JaccardMore.jaccard_comm set2 set1).
    unfold SimpleSim.jaccard.
    destruct (size (set1 ∪ set2)) as [|n]; [lia|]. cbn [truediv].
    by intros [= <-].
  - intros ->. apply DifflibFacts.ratio_self.
Qed.

Lemma jaccard_entry_witness :
  exists r,
    SimpleSim.calculate_similarities CharFixture.cut_chars Fixture.tfidf_zero
      (str "甲乙乙") (str "乙甲") = Ok r
    /\ ((SimpleSim.jaccard_similarity r == 1)%Q
        <-> (list_to_set (CharFixture.cut_chars (str "甲乙乙")) : gset text)
            = list_to_set (CharFixture.cut_chars (str "乙甲")))
    /\ ((SimpleSim.jaccard_similarity r == 0)%Q
        <-> (list_to_set (CharFixture.cut_chars (str "甲乙乙")) : gset text)
            ∩ list_to_set (CharFixture.cut_chars (str "乙甲")) = ∅)
    /\ (forall r',
          SimpleSim.calculate_similarities CharFixture.cut_chars Fixture.tfidf_zero
            (str "乙甲") (str "甲乙乙") = Ok r' ->
          SimpleSim.jaccard_similarity r' = SimpleSim.jaccard_similarity r)
    /\ (str "甲乙乙" = str "乙甲" -> (SimpleSim.sequence_similarity r == 1)%Q).
Proof.
  eexists. split; [vm_compute; reflexivity|].
  apply (jaccard_entry CharFixture.cut_chars Fixture.tfidf_zero
           (str "甲乙乙") (str "乙甲")).
  vm_compute. reflexivity.
Defined.

(** X17.  A zero embedding does not make the pipeline comparator fail: past
    the gate, when the dot product and the product of the norms are both
    zero, the semantic score is not a number, so is the weighted score, and
    the pair is rejected at every threshold. *)
Theorem zero_embedding_is_rejected
    (encode : list text -> list (list Q)) (norm : list Q -> Q)
    (lazy_pinyin : text -> list text) (a b : text) (threshold : Q) (e0 e1 : list Q) :
  PipelineSim.preprocess a <> PipelineSim.preprocess b ->
  PipelineSim.remove_punctuation (PipelineSim.preprocess a)
  <> PipelineSim.remove_punctuation (PipelineSim.preprocess b) ->
  encode [PipelineSim.preprocess a; PipelineSim.preprocess b] = [e0; e1] ->
  (PipelineSim.dot e0 e1 == 0)%Q ->
  (norm e0 * norm e1 == 0)%Q ->
  PipelineSim.get_semantic_similarity encode norm
    (PipelineSim.preprocess a) (PipelineSim.preprocess b) = Ok None
  /\ PipelineSim.is_consistent encode norm lazy_pinyin a b threshold
     = ([Semantic; CharSequence; Phonetic], Ok (false, None, PipelineSim.Insufficient None)).
Proof.
  intros Hne Hns Henc _ Hnorm.
  assert (Hsem : PipelineSim.get_semantic_similarity encode norm
                   (PipelineSim.preprocess a) (PipelineSim.preprocess b) = Ok None).
  { unfold PipelineSim.get_semantic_similarity. cbv zeta. rewrite Henc.
    cbn [getitem lookup list_lookup mbind result_bind mret result_ret].
    unfold PipelineSim.np_div.
    apply Qeq_bool_iff in Hnorm. by rewrite Hnorm. }
  split; [exact Hsem|].
  rewrite (GateFacts.pipeline_weighted encode norm lazy_pinyin a b threshold Hne Hns).
  cbv zeta. by rewrite Hsem.
Qed.

Lemma zero_embedding_is_rejected_witness :
  PipelineSim.get_semantic_similarity CharFixture.encode_zero Fixture.norm
    (PipelineSim.preprocess (str "甲方付款")) (PipelineSim.preprocess (str "乙方付款"))
  = Ok None
  /\ PipelineSim.is_consistent CharFixture.encode_zero Fixture.norm CharFixture.pinyin_chars
       (str "甲方付款") (str "乙方付款") PipelineSim.default_threshold
     = ([Semantic; CharSequence; Phonetic], Ok (false, None, PipelineSim.Insufficient None)).
Proof.
  apply (zero_embedding_is_rejected CharFixture.encode_zero Fixture.norm
           CharFixture.pinyin_chars (str "甲方付款") (str "乙方付款")
           PipelineSim.default_threshold [0; 0]%Q [0; 0]%Q).
  - vm_compute. congruence.
  - vm_compute. congruence.
  - reflexivity.
  - reflexivity.
  - reflexivity.
Defined.

(** X18.  A pair that the pipeline comparator accepts on its weighted score
    has a weighted score that is a number, at least the threshold, and a
    semantic score of at least 2 * threshold - 1: at the default threshold,
    at least 0.8. *)
Theorem pipeline_accepted_needs_semantic
    (encode : list text -> list (list Q)) (norm : list Q -> Q)
    (lazy_pinyin : text -> list text) (a b : text) (threshold : Q)
    (trace : list signal) (score weighted : PipelineSim.npfloat) :
  PipelineSim.is_consistent encode norm lazy_pinyin a b threshold
  = (trace, Ok (true, score, PipelineSim.Composite weighted)) ->
  exists s sem,
    score = Some s /\ weighted = Some s
    /\ PipelineSim.get_semantic_similarity encode norm
         (PipelineSim.preprocess a) (PipelineSim.preprocess b) = Ok (Some sem)
    /\ (threshold <= s)%Q /\ (2 * threshold - 1 <= sem)%Q.
Proof.
  destruct (decide (PipelineSim.preprocess a = PipelineSim.preprocess b)) as [He|Hne].
  { rewrite (GateFacts.pipeline_exact encode norm lazy_pinyin a b _ He). intros [=]. }
  destruct (decide (PipelineSim.remove_punctuation (PipelineSim.preprocess a)
                    = PipelineSim.remove_punctuation (PipelineSim.preprocess b)))
    as [Hs|Hns].
  { rewrite (GateFacts.pipeline_punctuation_only encode norm lazy_pinyin a b _ Hne Hs).
    intros [=]. }
  rewrite (GateFacts.pipeline_weighted encode norm lazy_pinyin a b _ Hne Hns). cbv zeta.
  set (sa := PipelineSim.remove_punctuation (PipelineSim.preprocess a)).
  set (sb := PipelineSim.remove_punctuation (PipelineSim.preprocess b)).
  pose proof (DifflibFacts.ratio_range sa sb) as Hc.
  pose proof (DifflibFacts.ratio_range (join (str " ") (lazy_pinyin sa))
                (join (str " ") (lazy_pinyin sb))) as Hp.
  unfold PipelineSim.get_char_similarity, PipelineSim.get_pinyin_similarity. cbv zeta.
  destruct (PipelineSim.get_semantic_similarity encode norm _ _) as [[sem|]|e];
    cbn [fmap option_fmap option_map PipelineSim.np_ge]; [| |intros [=]].
  - destruct (Qle_bool threshold _) eqn:Hv; intros [= _ <- <-].
    apply Qle_bool_iff in Hv.
    eexists _, sem. split; [reflexivity|]. split; [reflexivity|].
    split; [reflexivity|]. split; [exact Hv|]. lra.
  - intros [=].
Qed.

Lemma pipeline_accepted_needs_semantic_witness :
  exists s sem,
    Some (380000 # 400000)%Q = Some s /\ Some (380000 # 400000)%Q = Some s
    /\ PipelineSim.get_semantic_similarity Fixture.encode Fixture.norm
         (PipelineSim.preprocess (str "abcdefghij"))
         (PipelineSim.preprocess (str "abcdefghik")) = Ok (Some sem)
    /\ (PipelineSim.default_threshold <= s)%Q
    /\ (2 * PipelineSim.default_threshold - 1 <= sem)%Q.
Proof.
  apply (pipeline_accepted_needs_semantic Fixture.encode Fixture.norm Fixture.pinyin
           (str "abcdefghij") (str "abcdefghik") PipelineSim.default_threshold
           [Semantic; CharSequence; Phonetic]).
  vm_compute. reflexivity.
Defined.

(** X19.  Full marks mean equality: the character-sequence score of both
    comparators is 1 exactly when the two texts are equal, the lightweight
    phonetic score exactly when the two syllable lists are equal, and the
    pipeline phonetic score exactly when the two joined syllable strings are
    equal. *)
Theorem full_marks_mean_equal (lazy_pinyin : text -> list text) (a b : text) :
  ((LightSim.get_char_similarity a b == 1)%Q <-> a = b)
  /\ ((PipelineSim.get_char_similarity a b == 1)%Q <-> a = b)
  /\ ((LightSim.get_pinyin_similarity lazy_pinyin a b == 1)%Q
      <-> lazy_pinyin a = lazy_pinyin b)
  /\ ((PipelineSim.get_pinyin_similarity lazy_pinyin a b == 1)%Q
      <-> join (str " ") (lazy_pinyin a) = join (str " ") (lazy_pinyin b)).
Proof.
  assert (Hiff : forall (A : Type) (eqA : EqDecision A) (x y : list A),
             (Difflib.ratio x y == 1)%Q <-> x = y).
  { intros A eqA x y. split; [apply BlockFacts.ratio_one|].
    intros ->. apply DifflibFacts.ratio_self. }
  unfold PipelineSim.get_char_similarity, LightSim.get_char_similarity,
    LightSim.get_pinyin_similarity, PipelineSim.get_pinyin_similarity. cbv zeta.
  split; [apply Hiff|]. split; [apply Hiff|]. split; apply Hiff.
Qed.

(** X20.  The lightweight comparator returns the score 1 for exact matches
    only: whatever it returns, the score is 1 exactly when the two
    normalized texts are equal, which is exactly when the reason is the
    exact-match one; a weighted score is always below 1. *)
Theorem only_exact_pairs_score_one
    (cut lazy_pinyin : text -> list text) (a b : text) (threshold : Q)
    (trace : list signal) (verdict : bool) (score : Q) (why : LightSim.reason) :
  LightSim.is_consistent cut lazy_pinyin a b threshold = (trace, Ok (verdict, score, why)) ->
  ((score == 1)%Q <-> LightSim.preprocess a = LightSim.preprocess b)
  /\ ((score == 1)%Q <-> why = LightSim.Exact)
  /\ (forall w c p, why = LightSim.Details w c p -> (score < 1)%Q).
Proof.
  destruct (decide (LightSim.preprocess a = LightSim.preprocess b)) as [He|Hne].
  { rewrite (GateFacts.light_exact cut lazy_pinyin a b _ He). intros [= _ _ <- <-].
    split; [done|]. split; [done|]. intros w c p [=]. }
  destruct (decide (LightSim.remove_punctuation (LightSim.preprocess a)
                    = LightSim.remove_punctuation (LightSim.preprocess b)))
    as [Hs|Hns].
  { rewrite (GateFacts.light_punctuation_only cut lazy_pinyin a b _ Hne Hs).
    intros [= _ _ <- <-].
    split; [split; [intros Hq; by vm_compute in Hq|done]|].
    split; [split; [intros Hq; by vm_compute in Hq|done]|]. intros w c p [=]. }
  rewrite (GateFacts.light_weighted cut lazy_pinyin a b _ Hne Hns). cbv zeta.
  set (sa := LightSim.remove_punctuation (LightSim.preprocess a)) in *.
  set (sb := LightSim.remove_punctuation (LightSim.preprocess b)) in *.
  pose proof (WordBagFacts.word_bag_range
                (WordBag.kept cut sa) (WordBag.kept cut sb)) as Hw.
  pose proof (DifflibFacts.ratio_range sa sb) as Hc.
  pose proof (DifflibFacts.ratio_range (lazy_pinyin sa) (lazy_pinyin sb)) as Hp.
  assert (Hc1 : (Difflib.ratio sa sb < 1)%Q).
  { destruct (Qlt_le_dec (Difflib.ratio sa sb) 1) as [Hlt|Hge]; [done|].
    exfalso. apply Hns. apply BlockFacts.ratio_one.
    apply Qle_antisym; [apply Hc|exact Hge]. }
  unfold LightSim.get_char_similarity, LightSim.get_pinyin_similarity.
  intros [= _ _ Hscore <-].
  assert (Hlt : (score < 1)%Q) by (rewrite <- Hscore; lra).
  split; [split; [intros Hq; lra|done]|].
  split; [split; [intros Hq; lra|done]|]. by intros _ _ _ _.
Qed.

Lemma only_exact_pairs_score_one_witness :
  exists verdict score why,
    LightSim.is_consistent Fixture.cut_whole Fixture.pinyin
      (str "tide") (str "diet") LightSim.default_threshold
    = ([WordBag; CharSequence; Phonetic], Ok (verdict, score, why))
    /\ ((score == 1)%Q <-> LightSim.preprocess (str "tide") = LightSim.preprocess (str "diet"))
    /\ ((score == 1)%Q <-> why = LightSim.Exact)
    /\ (forall w c p, why = LightSim.Details w c p -> (score < 1)%Q).
Proof.
  eexists _, _, _. split; [vm_compute; reflexivity|].
  eapply (only_exact_pairs_score_one Fixture.cut_whole Fixture.pinyin
           (str "tide") (str "diet") LightSim.default_threshold
           [WordBag; CharSequence; Phonetic]).
  vm_compute. reflexivity.
Defined.

End Further.
